(** * A shallow embedding of [scraper.py] (the MyFootDr clinic scraper)

    The file follows the layout of the Python module: the calls into
    [str] and [re], the [ClinicData] value class, and the
    [MyFootDrScraper] pipeline; the properties come after the
    definitions.

    - Text is a Rocq [string], read as a sequence of ASCII characters;
      the classes [\w], [\d] and [\s] are taken at their ASCII
      restriction.  The pattern of [_validate_email] is a term of a
      small regular-expression type, matched by derivatives.
    - A statement is a function from the world to an outcome and a
      world.  The world holds the visited set [seen_clinic_urls], the
      trace of observable events (GETs, sleeps, the output sink), and
      two counters.  An outcome is a value or a raised exception.
    - What is outside the program is an environment: the answer of the
      web to the k-th GET of the run, whether the k-th write to the
      sink fails, and the HTML library, which is an interface ([Dom])
      of the queries that the scraper makes.  Log messages are not
      represented. *)

From Stdlib Require Import ZArith Ascii String List Bool Lia.
From stdpp Require Import base decidable option list gmap strings.

Import ListNotations.
Local Open Scope string_scope.

(** [simpl] may unfold string concatenation on a constructor. *)
#[local] Arguments String.append !s1 s2 : simpl nomatch.

(** ** Characters and character classes *)

Module Chars.

Definition code (c : ascii) : nat := nat_of_ascii c.

Definition between (lo hi : nat) (c : ascii) : bool :=
  Nat.leb lo (code c) && Nat.leb (code c) hi.

(** [\d] *)
Definition is_digit (c : ascii) : bool := between 48 57 c.

Definition is_upper (c : ascii) : bool := between 65 90 c.
Definition is_lower (c : ascii) : bool := between 97 122 c.

(** [\w]: letters, digits and the underscore. *)
Definition is_word (c : ascii) : bool :=
  is_digit c || is_upper c || is_lower c || Ascii.eqb c "_".

(** [\s], which is also the set that [str.strip()] removes:
    TAB, LF, VT, FF, CR, the separators FS..US, and the space. *)
Definition is_space (c : ascii) : bool :=
  between 9 13 c || between 28 31 c || Ascii.eqb c " ".

Definition to_upper (c : ascii) : ascii :=
  if is_lower c then ascii_of_nat (code c - 32) else c.

Definition to_lower (c : ascii) : ascii :=
  if is_upper c then ascii_of_nat (code c + 32) else c.

Definition newline : ascii := ascii_of_nat 10.

End Chars.

(** ** The fragment of [str] and [re] that the scraper calls *)

Module Text.
Import Chars.

(** Every character of [s] satisfies [p]. *)
Fixpoint all_chars (p : ascii -> bool) (s : string) : bool :=
  match s with
  | EmptyString => true
  | String c r => p c && all_chars p r
  end.

(** [re.sub('[^...]', '', s)] for a one-character class: keep the
    characters of the class, drop the others. *)
Fixpoint keep_chars (p : ascii -> bool) (s : string) : string :=
  match s with
  | EmptyString => EmptyString
  | String c r => if p c then String c (keep_chars p r) else keep_chars p r
  end.

Fixpoint lstrip (s : string) : string :=
  match s with
  | EmptyString => EmptyString
  | String c r => if is_space c then lstrip r else s
  end.

Fixpoint rstrip (s : string) : string :=
  match s with
  | EmptyString => EmptyString
  | String c r =>
      match rstrip r with
      | EmptyString => if is_space c then EmptyString else String c EmptyString
      | r' => String c r'
      end
  end.

(** [s.strip()] *)
Definition strip (s : string) : string := rstrip (lstrip s).

(** Truth value of a Python string: non-empty. *)
Definition truthy (s : string) : bool :=
  match s with EmptyString => false | _ => true end.

(** [a or b] on strings. *)
Definition str_or (a b : string) : string := if truthy a then a else b.

(** [s.split(sep)] for a one-character separator. *)
Fixpoint split (sep : ascii) (s : string) : list string :=
  match s with
  | EmptyString => [EmptyString]
  | String c r =>
      if Ascii.eqb c sep then EmptyString :: split sep r
      else match split sep r with
           | [] => [String c EmptyString]
           | w :: ws => String c w :: ws
           end
  end.

(** [s.split(sep)[-1]] *)
Definition last_segment (sep : ascii) (s : string) : string :=
  List.last (split sep s) EmptyString.

(** [s.replace(a, b)] for one-character [a] and [b]. *)
Fixpoint replace (a b : ascii) (s : string) : string :=
  match s with
  | EmptyString => EmptyString
  | String c r => String (if Ascii.eqb c a then b else c) (replace a b r)
  end.

(** [s.title()]: a cased character is upper-cased when the previous
    character is not cased and lower-cased when it is. *)
Fixpoint title_from (prev_cased : bool) (s : string) : string :=
  match s with
  | EmptyString => EmptyString
  | String c r =>
      if is_lower c then
        String (if prev_cased then c else to_upper c) (title_from true r)
      else if is_upper c then
        String (if prev_cased then to_lower c else c) (title_from true r)
      else String c (title_from false r)
  end.

Definition title (s : string) : string := title_from false s.

(** [sep.join(l)] *)
Definition join (sep : string) (l : list string) : string := String.concat sep l.

(** [needle in s] *)
Fixpoint contains (needle s : string) : bool :=
  String.prefix needle s ||
  match s with
  | EmptyString => false
  | String _ r => contains needle r
  end.

End Text.

(** ** Regular expressions, matched by derivatives *)

Module Regex.
Import Chars.

Inductive regex : Type :=
| Void
| Eps
| Class (p : ascii -> bool)
| Cat (r1 r2 : regex)
| Alt (r1 r2 : regex)
| Star (r : regex).

(** [r+] and [r{2,}] *)
Definition Plus (r : regex) : regex := Cat r (Star r).
Definition AtLeast2 (r : regex) : regex := Cat r (Cat r (Star r)).

Fixpoint nullable (r : regex) : bool :=
  match r with
  | Void => false
  | Eps => true
  | Class _ => false
  | Cat r1 r2 => nullable r1 && nullable r2
  | Alt r1 r2 => nullable r1 || nullable r2
  | Star _ => true
  end.

Fixpoint deriv (c : ascii) (r : regex) : regex :=
  match r with
  | Void => Void
  | Eps => Void
  | Class p => if p c then Eps else Void
  | Cat r1 r2 =>
      if nullable r1 then Alt (Cat (deriv c r1) r2) (deriv c r2)
      else Cat (deriv c r1) r2
  | Alt r1 r2 => Alt (deriv c r1) (deriv c r2)
  | Star r1 => Cat (deriv c r1) (Star r1)
  end.

(** The whole of [s] is in the language of [r]. *)
Fixpoint accepts (r : regex) (s : string) : bool :=
  match s with
  | EmptyString => nullable r
  | String c s' => accepts (deriv c r) s'
  end.

(** [s] without its last character, when that character is a newline. *)
Fixpoint chop_newline (s : string) : option string :=
  match s with
  | EmptyString => None
  | String c EmptyString => if Ascii.eqb c newline then Some EmptyString else None
  | String c r => option_map (String c) (chop_newline r)
  end.

(** [re.match('^' r '$', s)] as a truth value.  Outside MULTILINE mode
    [$] matches at the end of the string and also just before a newline
    that ends the string. *)
Definition match_anchored (r : regex) (s : string) : bool :=
  accepts r s ||
  match chop_newline s with
  | Some s' => accepts r s'
  | None => false
  end.

(** The language of a regular expression. *)
Inductive lang : regex -> string -> Prop :=
| lang_eps : lang Eps EmptyString
| lang_class p c : p c = true -> lang (Class p) (String c EmptyString)
| lang_cat r1 r2 s1 s2 : lang r1 s1 -> lang r2 s2 -> lang (Cat r1 r2) (s1 ++ s2)
| lang_alt_l r1 r2 s : lang r1 s -> lang (Alt r1 r2) s
| lang_alt_r r1 r2 s : lang r2 s -> lang (Alt r1 r2) s
| lang_star_nil r : lang (Star r) EmptyString
| lang_star_cons r s1 s2 :
    lang r s1 -> lang (Star r) s2 -> lang (Star r) (s1 ++ s2).

End Regex.

(** ** [class ClinicData] *)

Module ClinicData.
Import Chars Text Regex.

Definition NOT_FOUND : string := "Not found".

(** The class [[^\d\-\s\(\)]] is the complement of [phone_char]. *)
Definition phone_char (c : ascii) : bool :=
  is_digit c || Ascii.eqb c "-" || is_space c || Ascii.eqb c "(" || Ascii.eqb c ")".

Definition noise_char (c : ascii) : bool := negb (phone_char c).

(** The characters of a phone in the words of the specification:
    digits, parentheses, hyphens and the space character. *)
Definition plain_phone_char (c : ascii) : bool :=
  is_digit c || Ascii.eqb c "(" || Ascii.eqb c ")" || Ascii.eqb c "-"
  || Ascii.eqb c " ".

Definition _normalize_phone (phone : string) : string :=
  if String.eqb phone NOT_FOUND then phone
  else
    let cleaned := strip (keep_chars phone_char phone) in
    if truthy cleaned then cleaned else NOT_FOUND.

(** [[\w\.-]] *)
Definition addr_char (c : ascii) : bool :=
  is_word c || Ascii.eqb c "." || Ascii.eqb c "-".

(** [[\w\.-]+@[\w\.-]+\.\w{2,}] *)
Definition email_re : regex :=
  Cat (Plus (Class addr_char))
   (Cat (Class (Ascii.eqb "@"))
     (Cat (Plus (Class addr_char))
       (Cat (Class (Ascii.eqb "."))
            (AtLeast2 (Class is_word))))).

Definition _validate_email (email : string) : string :=
  if String.eqb email NOT_FOUND then email
  else if match_anchored email_re email then email
  else NOT_FOUND.

Record t : Type := mk {
  name : string;
  address : string;
  phone : string;
  email : string;
  services : string;
  url : string;
  region : string
}.

(** [ClinicData.__init__] *)
Definition init (name address phone email services url : string) : t :=
  {| name := name;
     address := address;
     phone := _normalize_phone phone;
     email := _validate_email email;
     services := services;
     url := url;
     region := "" |}.

(** [details.region = r] *)
Definition set_region (r : string) (c : t) : t :=
  {| name := name c; address := address c; phone := phone c; email := email c;
     services := services c; url := url c; region := r |}.

(** [to_dict], as the association list of the dictionary in key order. *)
Definition to_dict (c : t) : list (string * string) :=
  [ ("Region", region c);
    ("Clinic_Name", name c);
    ("Address", address c);
    ("Phone", phone c);
    ("Email", email c);
    ("Services", services c) ].

(** The shape [local@domain.tld] in the words of the specification:
    a non-empty local part and a non-empty domain, both made of word
    characters, dots and hyphens, and a final label of at least two
    word characters. *)
Definition email_shape (s : string) : Prop :=
  exists loc dom tld : string,
    s = loc ++ "@" ++ dom ++ "." ++ tld /\
    truthy loc = true /\ all_chars addr_char loc = true /\
    truthy dom = true /\ all_chars addr_char dom = true /\
    2 <= String.length tld /\ all_chars is_word tld = true.

End ClinicData.

(** ** Effects: exceptions, the event trace and the world *)

Module Effects.

(** A raised Python exception. *)
Record exn : Type := Exception { message : string }.

(** What running a statement gives: a value, or an exception that
    propagates to the caller. *)
Inductive outcome (A : Type) : Type :=
| Ret (a : A)
| Raise (e : exn).
Arguments Ret {A} a.
Arguments Raise {A} e.

(** [requests.Response], as far as the scraper reads it. *)
Record Response : Type := mkResponse { status_code : Z; text : string }.

(** What one [session.get(url, timeout=...)] does. *)
Inductive attempt : Type :=
| Responded (r : Response)
| Timeout
| ConnectionError
| OtherError (e : exn).

(** The observable actions of a run, in the order they happen. *)
Inductive Event : Type :=
| EGet (url : string)                    (* session.get(url) *)
| ESleep (seconds : Z)                   (* time.sleep(2 ** attempt) *)
| EDelay                                 (* self.delay() *)
| EOpen (filename : string)              (* open(filename, 'w', ...) *)
| EWriteHeader (fieldnames : list string)  (* writer.writeheader() *)
| EWriteRow (details : ClinicData.t)     (* writer.writerow(details.to_dict()) *)
| EClose.                                (* csvfile.close() *)

Record World : Type := mkWorld {
  requests : nat;                  (* GETs issued so far *)
  rows : nat;                      (* rows handed to the csv writer so far *)
  events : list Event;
  seen_clinic_urls : gset string
}.

(** The world of a new [MyFootDrScraper]. *)
Definition fresh : World :=
  {| requests := 0; rows := 0; events := []; seen_clinic_urls := ∅ |}.

Definition emit (e : Event) (w : World) : World :=
  {| requests := requests w; rows := rows w; events := events w ++ [e];
     seen_clinic_urls := seen_clinic_urls w |}.

Definition count_request (w : World) : World :=
  {| requests := S (requests w); rows := rows w; events := events w;
     seen_clinic_urls := seen_clinic_urls w |}.

Definition count_row (w : World) : World :=
  {| requests := requests w; rows := S (rows w); events := events w;
     seen_clinic_urls := seen_clinic_urls w |}.

Definition mark_seen (u : string) (w : World) : World :=
  {| requests := requests w; rows := rows w; events := events w;
     seen_clinic_urls := {[u]} ∪ seen_clinic_urls w |}.

(** Statements: they read and change the world and may raise. *)
Definition M (A : Type) : Type := World -> outcome A * World.

Definition ret {A} (a : A) : M A := fun w => (Ret a, w).
Definition raise {A} (e : exn) : M A := fun w => (Raise e, w).

Definition bind {A B} (m : M A) (k : A -> M B) : M B :=
  fun w =>
    match m w with
    | (Ret a, w1) => k a w1
    | (Raise e, w1) => (Raise e, w1)
    end.

(** [try: m  except Exception: h] *)
Definition try_except {A} (m : M A) (h : exn -> M A) : M A :=
  fun w =>
    match m w with
    | (Ret a, w1) => (Ret a, w1)
    | (Raise e, w1) => h e w1
    end.

(** [try: m  finally: cleanup] *)
Definition try_finally {A} (m : M A) (cleanup : World -> World) : M A :=
  fun w => let (r, w1) := m w in (r, cleanup w1).

Definition get_world : M World := fun w => (Ret w, w).
Definition modify (f : World -> World) : M unit := fun w => (Ret tt, f w).

(** A pure computation that may raise, run as a statement. *)
Definition lift {A} (r : outcome A) : M A := fun w => (r, w).

End Effects.

Declare Scope stmt_scope.
Delimit Scope stmt_scope with stmt.
Notation "x <- m ;; k" := (Effects.bind m (fun x => k))
  (at level 90, m at next level, right associativity) : stmt_scope.
Notation "m ;;; k" := (Effects.bind m (fun _ => k))
  (at level 90, right associativity) : stmt_scope.

(** ** [class MyFootDrScraper] *)

Module Scraper.
Import Chars Text Effects.

(** [ScraperConfig]; the two delay bounds only feed the random pause of
    [delay] and are not represented. *)
Record ScraperConfig : Type := {
  base_url : string;
  max_retries : Z;
  request_timeout : Z;
  output_file : string
}.

Definition default_config : ScraperConfig :=
  {| base_url := "https://web.archive.org/web/20250708180027/https://www.myfootdr.com.au";
     max_retries := 3;
     request_timeout := 10;
     output_file := "clinics.csv" |}.

(** The calls into BeautifulSoup and [urllib.parse] that the scraper
    makes, as an interface. *)
Class Dom : Type := {
  Soup : Type;
  Tag : Type;
  BeautifulSoup : string -> outcome Soup;  (* BeautifulSoup(text, 'html.parser') *)
  select : Soup -> string -> list Tag;     (* soup.select(selector) *)
  get_href : Tag -> string;                (* tag.get('href', '') *)
  get_text : Tag -> string;                (* tag.get_text(strip=True) *)
  find_heading : Tag -> option Tag;        (* tag.find(['h3', 'h2', 'h4']) *)
  urljoin : string -> string -> string     (* urljoin(base, href) *)
}.

(** What is outside the program: the configuration it is started with,
    the web, the disk, and the three extractors whose text processing is
    not followed here; each of them returns a string or raises. *)
Record Env `{Dom} : Type := {
  config : ScraperConfig;
  http_get : nat -> string -> attempt;     (* the k-th GET of the run *)
  write_error : nat -> option exn;         (* does the k-th row write fail *)
  open_error : string -> option exn;       (* does open(filename, 'w') fail *)
  _extract_address : Soup -> outcome string;
  _extract_phone : Soup -> outcome string;
  _extract_email : Soup -> outcome string
}.

Record Region : Type := { region_name : string; region_url : string }.
Record ClinicLink : Type := { clinic_name : string; clinic_url : string }.

Definition fieldnames : list string :=
  ["Region"; "Clinic_Name"; "Address"; "Phone"; "Email"; "Services"].

(** [csv.DictWriter]: the values of a dictionary in field order, and
    the text of a row whose fields need no quoting. *)
Definition dict_get (d : list (string * string)) (k : string) : string :=
  match List.find (fun kv => String.eqb (fst kv) k) d with
  | Some kv => snd kv
  | None => ""
  end.

Definition csv_values (d : list (string * string)) : list string :=
  List.map (dict_get d) fieldnames.

Definition csv_line (fields : list string) : string := join "," fields.

(** [a or b] on optional integers and optional strings. *)
Definition int_or (a : option Z) (b : Z) : Z :=
  match a with
  | Some n => if Z.eqb n 0 then b else n
  | None => b
  end.

Definition opt_str_or (a : option string) (b : string) : string :=
  match a with
  | Some s => str_or s b
  | None => b
  end.

(** [range(n)] *)
Definition range (n : Z) : list nat := List.seq 0 (Z.to_nat n).

(** [response.raise_for_status()] raises for 4xx and 5xx. *)
Definition raises_for_status (r : Response) : bool :=
  Z.leb 400 (status_code r) && Z.ltb (status_code r) 600.

(** An attempt after which [safe_request] goes on to the next one. *)
Definition attempt_failed (a : attempt) : bool :=
  match a with
  | Responded r => raises_for_status r
  | Timeout | ConnectionError | OtherError _ => true
  end.

Section Pipeline.
Context `{D : Dom} (env : Env).
Local Open Scope stmt_scope.

Definition delay : M unit := modify (emit EDelay).

(** The body of [for attempt in range(max_retries)], over the attempts
    that remain. *)
Fixpoint safe_request_loop (url : string) (max_retries : Z)
    (pending : list nat) (w : World) : option Response * World :=
  match pending with
  | [] => (None, w)
  | attempt :: rest =>
      let a := http_get env (requests w) url in
      let w1 := emit (EGet url) (count_request w) in
      let backoff :=
        if Z.ltb (Z.of_nat attempt) (max_retries - 1)
        then emit (ESleep (2 ^ Z.of_nat attempt)) w1 else w1 in
      match a with
      | Responded r =>
          if raises_for_status r
          then safe_request_loop url max_retries rest backoff
          else (Some r, w1)
      | Timeout | ConnectionError | OtherError _ =>
          safe_request_loop url max_retries rest backoff
      end
  end.

Definition safe_request (url : string) (max_retries : option Z)
    (w : World) : option Response * World :=
  let max_retries := int_or max_retries (Scraper.max_retries (config env)) in
  safe_request_loop url max_retries (range max_retries) w.

(** [safe_request] as a statement; it never raises. *)
Definition safe_request_stmt (url : string) (max_retries : option Z)
    : M (option Response) :=
  fun w => let (r, w1) := safe_request url max_retries w in (Ret r, w1).

(** *** Region discovery *)

Definition dq : string := String (ascii_of_nat 34) EmptyString.

(** The attribute selector [[attr*="value"]]. *)
Definition attr_has (attr value : string) : string :=
  "[" ++ attr ++ "*=" ++ dq ++ value ++ dq ++ "]".

Definition region_selectors : list string :=
  [ ".region-list a" ++ attr_has "href" "/regions/";
    ".clinic-regions a" ++ attr_has "href" "/regions/";
    attr_has "class" "region" ++ " a" ++ attr_has "href" "/regions/";
    "a" ++ attr_has "href" "/regions/" ].

(** [link.get_text(strip=True) or
     href.split('/')[-1].replace('-', ' ').title()] *)
Definition link_region_name (link : Tag) : string :=
  str_or (get_text link)
         (title (replace "-" " " (last_segment "/" (get_href link)))).

(** [for link in links: ...] of [extract_regions]. *)
Fixpoint add_region_links (links : list Tag) (regions : list Region)
    (seen_regions : gset string) : list Region * gset string :=
  match links with
  | [] => (regions, seen_regions)
  | link :: rest =>
      let href := get_href link in
      let full_url := urljoin (base_url (config env)) href in
      if decide (full_url ∈ seen_regions)
      then add_region_links rest regions seen_regions
      else add_region_links rest
             (regions ++ [{| region_name := link_region_name link;
                             region_url := full_url |}])
             ({[full_url]} ∪ seen_regions)
  end.

(** [for selector in selectors: ... if regions: break] *)
Fixpoint regions_from_selectors (soup : Soup) (selectors : list string)
    (regions : list Region) (seen_regions : gset string) : list Region :=
  match selectors with
  | [] => regions
  | selector :: rest =>
      let '(regions1, seen1) :=
        add_region_links (select soup selector) regions seen_regions in
      match regions1 with
      | [] => regions_from_selectors soup rest regions1 seen1
      | _ :: _ => regions1
      end
  end.

Definition listing_url : string := base_url (config env) ++ "/our-clinics/".

Definition extract_regions : M (list Region) :=
  response <- safe_request_stmt listing_url None ;;
  match response with
  | None => ret []
  | Some r =>
      soup <- lift (BeautifulSoup (text r)) ;;
      ret (regions_from_selectors soup region_selectors [] ∅)
  end.

(** *** Clinic link discovery *)

Definition clinic_selectors : list string :=
  [ ".clinic-list a"; ".clinic-item a"; ".clinic-name a";
    "h3 a"; "article a"; ".entry-title a";
    "a" ++ attr_has "href" "/our-clinics/" ].

Definition generic_labels : list string := ["Our Clinics"; "Clinics"; ""].

Fixpoint add_clinic_links (seen : gset string) (links : list Tag)
    (clinics : list ClinicLink) : list ClinicLink :=
  match links with
  | [] => clinics
  | link :: rest =>
      let href := get_href link in
      let full_url := urljoin (base_url (config env)) href in
      let clinic_name := get_text link in
      if contains "/our-clinics/" href && negb (contains "/regions/" href)
         && truthy clinic_name
      then
        if negb (existsb (String.eqb clinic_name) generic_labels)
           && bool_decide (full_url ∉ seen)
        then add_clinic_links seen rest
               (clinics ++ [{| clinic_name := clinic_name; clinic_url := full_url |}])
        else add_clinic_links seen rest clinics
      else add_clinic_links seen rest clinics
  end.

Fixpoint clinics_from_selectors (seen : gset string) (soup : Soup)
    (selectors : list string) (clinics : list ClinicLink) : list ClinicLink :=
  match selectors with
  | [] => clinics
  | selector :: rest =>
      match add_clinic_links seen (select soup selector) clinics with
      | [] => clinics_from_selectors seen soup rest []
      | c :: cs => c :: cs
      end
  end.

Definition extract_clinics_from_region (region_url : string) : M (list ClinicLink) :=
  response <- safe_request_stmt region_url None ;;
  match response with
  | None => ret []
  | Some r =>
      soup <- lift (BeautifulSoup (text r)) ;;
      w <- get_world ;;
      ret (clinics_from_selectors (seen_clinic_urls w) soup clinic_selectors [])
  end.

(** *** Clinic details *)

Definition _extract_name (soup : Soup) : string :=
  match select soup "h1.entry-title" with
  | name_element :: _ => get_text name_element
  | [] => ClinicData.NOT_FOUND
  end.

Definition service_selectors : list string :=
  [ ".clinic-2020-services .featured-posts article";
    ".services article"; ".services-list li";
    attr_has "class" "service" ++ " article";
    attr_has "class" "service" ++ " li" ].

(** [for article in articles: ...] of [_extract_services]. *)
Fixpoint add_services (articles : list Tag) (services : list string) : list string :=
  match articles with
  | [] => services
  | article :: rest =>
      match find_heading article with
      | Some h3 =>
          let service_name := get_text h3 in
          if truthy service_name && bool_decide (service_name ∉ services)
          then add_services rest (services ++ [service_name])
          else add_services rest services
      | None => add_services rest services
      end
  end.

Fixpoint services_from_selectors (soup : Soup) (selectors : list string)
    (services : list string) : list string :=
  match selectors with
  | [] => services
  | selector :: rest =>
      match add_services (select soup selector) services with
      | [] => services_from_selectors soup rest []
      | s :: ss => s :: ss
      end
  end.

Definition _extract_services (soup : Soup) : string :=
  match services_from_selectors soup service_selectors [] with
  | [] => ClinicData.NOT_FOUND
  | services => join "; " services
  end.

(** [ClinicData(name=self._extract_name(soup), ...)]: the arguments are
    evaluated in the order they are written, and the first one that
    raises ends the evaluation. *)
Definition clinic_of_soup (soup : Soup) (clinic_url : string) : outcome ClinicData.t :=
  let name := _extract_name soup in
  match _extract_address env soup with
  | Raise e => Raise e
  | Ret address =>
      match _extract_phone env soup with
      | Raise e => Raise e
      | Ret phone =>
          match _extract_email env soup with
          | Raise e => Raise e
          | Ret email =>
              let services := _extract_services soup in
              Ret (ClinicData.init name address phone email services clinic_url)
          end
      end
  end.

Definition extract_clinic_details (clinic_url : string) : M (option ClinicData.t) :=
  w <- get_world ;;
  if decide (clinic_url ∈ seen_clinic_urls w) then ret None
  else
    response <- safe_request_stmt clinic_url None ;;
    match response with
    | None => ret None
    | Some r =>
        modify (mark_seen clinic_url) ;;;
        soup <- lift (BeautifulSoup (text r)) ;;
        try_except
          (clinic <- lift (clinic_of_soup soup clinic_url) ;;
           ret (Some clinic))
          (fun _ => ret None)
    end.

(** *** The orchestrator *)

Definition writeheader : M unit :=
  fun w =>
    match write_error env (rows w) with
    | Some e => (Raise e, w)
    | None => (Ret tt, emit (EWriteHeader fieldnames) (count_row w))
    end.

Definition writerow (details : ClinicData.t) : M unit :=
  fun w =>
    match write_error env (rows w) with
    | Some e => (Raise e, w)
    | None => (Ret tt, emit (EWriteRow details) (count_row w))
    end.

(** [csvfile = open(filename, 'w', newline='', encoding='utf-8')] *)
Definition open_sink (filename : string) : M unit :=
  fun w =>
    match open_error env filename with
    | Some e => (Raise e, w)
    | None => (Ret tt, emit (EOpen filename) w)
    end.

(** [for clinic in clinics: ...] *)
Fixpoint scrape_clinics (region : Region) (clinics : list ClinicLink)
    (total_scraped : nat) : M nat :=
  match clinics with
  | [] => ret total_scraped
  | clinic :: rest =>
      delay ;;;
      details <- extract_clinic_details (clinic_url clinic) ;;
      match details with
      | Some d =>
          writerow (ClinicData.set_region (region_name region) d) ;;;
          scrape_clinics region rest (S total_scraped)
      | None => scrape_clinics region rest total_scraped
      end
  end.

(** [for region in regions: ...] *)
Fixpoint scrape_regions (regions : list Region) (total_scraped : nat) : M nat :=
  match regions with
  | [] => ret total_scraped
  | region :: rest =>
      delay ;;;
      clinics <- extract_clinics_from_region (region_url region) ;;
      total <- scrape_clinics region clinics total_scraped ;;
      scrape_regions rest total
  end.

Definition scrape_all_clinics (filename : option string) : M nat :=
  let filename := opt_str_or filename (output_file (config env)) in
  regions <- extract_regions ;;
  match regions with
  | [] => ret 0
  | _ :: _ =>
      open_sink filename ;;;
      writeheader ;;;
      try_finally (scrape_regions regions 0) (emit EClose)
  end.

End Pipeline.

(** The records written by a run, read off its trace. *)
Fixpoint written (tr : list Event) : list ClinicData.t :=
  match tr with
  | [] => []
  | EWriteRow d :: rest => d :: written rest
  | _ :: rest => written rest
  end.

Definition written_urls (tr : list Event) : list string :=
  List.map ClinicData.url (written tr).

Definition is_get (e : Event) : bool :=
  match e with EGet _ => true | _ => false end.

(** The number of GET attempts in a trace. *)
Definition gets (tr : list Event) : nat := List.length (List.filter is_get tr).

End Scraper.

(** ** Traces that the properties speak about *)

Module Traces.
Import Effects Scraper.

(** [k] failed attempts on [url], each followed by its back-off pause:
    GET, sleep 1, GET, sleep 2, GET, sleep 4, ... *)
Definition backoff_trace (url : string) (k : nat) : list Event :=
  List.flat_map (fun i => [EGet url; ESleep (2 ^ Z.of_nat i)]) (List.seq 0 k).

(** What the retry loop leaves in the trace when every attempt of
    [pending] fails: a GET per attempt, and a pause after each attempt
    that is not the last of the [max_retries]. *)
Definition loop_trace (url : string) (max_retries : Z) (pending : list nat)
    : list Event :=
  List.flat_map
    (fun i => EGet url ::
              if Z.ltb (Z.of_nat i) (max_retries - 1)
              then [ESleep (2 ^ Z.of_nat i)] else [])
    pending.

(** Events of the network only. *)
Definition net_event (e : Event) : bool :=
  match e with EGet _ | ESleep _ => true | _ => false end.

(** Events that are not writes to the output sink. *)
Definition quiet_event (e : Event) : bool :=
  match e with EGet _ | ESleep _ | EDelay => true | _ => false end.

Definition is_row (e : Event) : bool :=
  match e with EWriteRow _ => true | _ => false end.

(** Events of the region and clinic loops. *)
Definition loop_event (e : Event) : bool := quiet_event e || is_row e.

(** [w'] continues the trace of [w] with events that satisfy [P]. *)
Definition grows_by (P : Event -> bool) (w w' : World) : Prop :=
  exists tr, events w' = (events w ++ tr)%list /\ forallb P tr = true.

(** Every written record has its own URL, and that URL is visited. *)
Definition consistent (w : World) : Prop :=
  List.NoDup (written_urls (events w)) /\
  forall u, In u (written_urls (events w)) -> u ∈ seen_clinic_urls w.

(** The world of a scraper at the start of a run: it has issued [k]
    requests and visited [seen]; nothing of this run has happened yet. *)
Definition at_start (k : nat) (seen : gset string) : World :=
  {| requests := k; rows := 0; events := []; seen_clinic_urls := seen |}.

End Traces.

(** ** Selector chains and first-seen order, as the specification
    words them *)

Module Chains.
Import Text Effects Scraper.

(** The result of the first strategy that yields anything. *)
Fixpoint first_nonempty {A : Type} (results : list (list A)) : list A :=
  match results with
  | [] => []
  | [] :: rest => first_nonempty rest
  | (x :: xs) :: _ => x :: xs
  end.

Section ByKey.
Context {A : Type} (key : A -> string).

Definition same_key (x y : A) : bool := String.eqb (key y) (key x).

(** Keep, of the elements with equal keys, the first one; the order of
    the kept elements is the order of the input. *)
Fixpoint first_by_key (l : list A) : list A :=
  match l with
  | [] => []
  | x :: rest => x :: List.filter (fun y => negb (same_key x y)) (first_by_key rest)
  end.

Definition key_in (acc : list A) (y : A) : bool :=
  existsb (fun x => same_key x y) acc.

(** The loop that appends an element when its key is new. *)
Fixpoint collect (l : list A) (acc : list A) : list A :=
  match l with
  | [] => acc
  | x :: rest => if key_in acc x then collect rest acc else collect rest (acc ++ [x])
  end.

End ByKey.

(** A name is its own key. *)
Definition self (s : string) : string := s.

(** The visited set of [extract_regions] holds the URLs of the regions
    collected so far. *)
Definition mirrors (seen : gset string) (regions : list Region) : Prop :=
  forall u, u ∈ seen <-> In u (List.map region_url regions).

Section WithDom.
Context `{D : Dom}.

(** The non-empty heading texts of the matched elements, in page order. *)
Definition heading_texts (articles : list Tag) : list string :=
  List.flat_map
    (fun article =>
       match find_heading article with
       | Some h => if truthy (get_text h) then [get_text h] else []
       | None => []
       end)
    articles.

(** The region that a link stands for. *)
Definition link_region (base : string) (link : Tag) : Region :=
  {| region_name :=
       if truthy (get_text link) then get_text link
       else title (replace "-" " " (last_segment "/" (get_href link)));
     region_url := urljoin base (get_href link) |}.

End WithDom.
End Chains.

(** ** A small site to run the scraper on *)

Module Demo.
Import Text Effects Scraper.

Record toy_tag : Type := { t_href : string; t_text : string; t_heading : option string }.

(** A parsed page: what each selector matches. *)
Definition toy_soup : Type := list (string * list toy_tag).

Definition toy_select (soup : toy_soup) (selector : string) : list toy_tag :=
  match List.find (fun p => String.eqb (fst p) selector) soup with
  | Some p => snd p
  | None => []
  end.

Definition toy_urljoin (base href : string) : string :=
  if String.prefix "http" href then href else base ++ href.

Definition toy_find_heading (t : toy_tag) : option toy_tag :=
  option_map (fun h => {| t_href := ""; t_text := h; t_heading := None |}) (t_heading t).

Definition link (href text : string) : toy_tag :=
  {| t_href := href; t_text := text; t_heading := None |}.

Definition article (heading : string) : toy_tag :=
  {| t_href := ""; t_text := ""; t_heading := Some heading |}.

Definition listing_page : toy_soup :=
  [ ("a" ++ attr_has "href" "/regions/",
     [ link "/regions/north" "North";
       link "/regions/south-east" "";
       link "/regions/north" "North again" ]) ].

Definition region_page : toy_soup :=
  [ (".clinic-list a",
     [ link "/our-clinics/alpha" "Alpha"; link "/our-clinics/beta" "Beta" ]) ].

Definition clinic_page : toy_soup :=
  [ ("h1.entry-title", [ link "" "My FootDr" ]);
    (".services article",
     [ article "Orthotics"; article "Nail Care"; article "Orthotics" ]) ].

Definition toy_parse (text : string) : outcome toy_soup :=
  if String.eqb text "listing" then Ret listing_page
  else if String.eqb text "region" then Ret region_page
  else if String.eqb text "clinic" then Ret clinic_page
  else Raise (Exception "markup rejected").

#[local] Instance toy_dom : Dom :=
  {| Soup := toy_soup; Tag := toy_tag;
     BeautifulSoup := toy_parse;
     select := toy_select;
     get_href := t_href;
     get_text := t_text;
     find_heading := toy_find_heading;
     urljoin := toy_urljoin |}.

Definition site : ScraperConfig :=
  {| base_url := "http://site"; max_retries := 3; request_timeout := 10;
     output_file := "clinics.csv" |}.

Definition ok (text : string) : attempt :=
  Responded {| status_code := 200; text := text |}.

Definition alpha : string := "http://site/our-clinics/alpha".
Definition beta : string := "http://site/our-clinics/beta".

(** The site when every page is served. *)
Definition serve (url : string) : attempt :=
  if String.eqb url "http://site/our-clinics/" then ok "listing"
  else if contains "/regions/" url then ok "region"
  else if contains "/our-clinics/" url then ok "clinic"
  else Responded {| status_code := 404; text := "" |}.

Definition toy_env (get : nat -> string -> attempt)
    (werr : nat -> option exn) (phone : outcome string) : Env :=
  {| config := site;
     http_get := get;
     write_error := werr;
     open_error := fun _ => None;
     _extract_address := fun _ => Ret "1 Main St";
     _extract_phone := fun _ => phone;
     _extract_email := fun _ => Ret "alpha@site.com" |}.

(** Every page is served and nothing fails. *)
Definition healthy : Env :=
  toy_env (fun _ => serve) (fun _ => None) (Ret "(07) 1234 5678").

(** The page of [alpha] times out during the first nine requests of the
    run and is served afterwards; the page of [beta] always answers 503. *)
Definition flaky : Env :=
  toy_env (fun k url =>
             if String.eqb url alpha && Nat.ltb k 9 then Timeout
             else if String.eqb url beta
                  then Responded {| status_code := 503; text := "" |}
                  else serve url)
          (fun _ => None) (Ret "(07) 1234 5678").

(** No request is ever answered. *)
Definition offline : Env :=
  toy_env (fun _ _ => ConnectionError) (fun _ => None) (Ret "(07) 1234 5678").

(** The page of [beta] is served but cannot be parsed. *)
Definition garbled : Env :=
  toy_env (fun _ url => if String.eqb url beta then ok "<<<" else serve url)
          (fun _ => None) (Ret "(07) 1234 5678").

(** Phone extraction raises on every clinic page. *)
Definition phoneless : Env :=
  toy_env (fun _ => serve) (fun _ => None) (Raise (Exception "no phone")).

(** The header cannot be written. *)
Definition disk_full : Env :=
  toy_env (fun _ => serve)
          (fun k => if Nat.eqb k 0 then Some (Exception "disk full") else None)
          (Ret "(07) 1234 5678").

(** The output file cannot be opened. *)
Definition read_only : Env :=
  {| config := site;
     http_get := fun _ => serve;
     write_error := fun _ => None;
     open_error := fun _ => Some (Exception "permission denied");
     _extract_address := fun _ => Ret "1 Main St";
     _extract_phone := fun _ => Ret "(07) 1234 5678";
     _extract_email := fun _ => Ret "alpha@site.com" |}.

End Demo.

(** ** Searching with a regular expression *)

Module Search.
Import Chars Text Regex.

(** [r?], which prefers to take [r]. *)
Definition Opt (r : regex) : regex := Alt r Eps.

(** [r*] by backtracking: one more round of [step] is tried first, on
    the condition that it consumes something; leaving the loop comes
    second. *)
Fixpoint star_loop {A : Type}
    (step : string -> (string -> option A) -> option A)
    (fuel : nat) (s : string) (k : string -> option A) : option A :=
  match fuel with
  | 0 => k s
  | S n =>
      match step s (fun s' =>
                      if Nat.ltb (String.length s') (String.length s)
                      then star_loop step n s' k else None) with
      | Some x => Some x
      | None => k s
      end
  end.

(** The matcher of [re]: the alternatives are tried in the order of the
    pattern, repetitions are greedy, and [k] decides on what is left of
    the string. *)
Fixpoint bt {A : Type} (r : regex) (s : string) (k : string -> option A) : option A :=
  match r with
  | Void => None
  | Eps => k s
  | Class p =>
      match s with
      | String c s' => if p c then k s' else None
      | EmptyString => None
      end
  | Cat r1 r2 => bt r1 s (fun s' => bt r2 s' k)
  | Alt r1 r2 =>
      match bt r1 s k with
      | Some x => Some x
      | None => bt r2 s k
      end
  | Star r1 => star_loop (fun s' k' => bt r1 s' k') (S (String.length s)) s k
  end.

(** What [re.match(r, s)] leaves of [s]. *)
Definition match_rest (r : regex) (s : string) : option string := bt r s Some.

(** The part of [s] before [rest]. *)
Definition matched (s rest : string) : string :=
  String.substring 0 (String.length s - String.length rest) s.

(** [re.search(r, s).group(0)]: the match at the leftmost position that
    has one.  It is also the first element of [re.findall(r, s)] for a
    pattern without groups. *)
Fixpoint search (r : regex) (s : string) : option string :=
  match match_rest r s with
  | Some rest => Some (matched s rest)
  | None =>
      match s with
      | EmptyString => None
      | String _ s' => search r s'
      end
  end.

(** [re.sub('^' r, '', s)] *)
Definition sub_prefix (r : regex) (s : string) : string :=
  match match_rest r s with
  | Some rest => rest
  | None => s
  end.

(** [for text in texts: found = re.findall(r, text); if found: return found[0]] *)
Fixpoint first_found (r : regex) (texts : list string) : option string :=
  match texts with
  | [] => None
  | t :: rest =>
      match search r t with
      | Some m => Some m
      | None => first_found r rest
      end
  end.

(** [s.replace(needle, '')] for a non-empty [needle]: [skip] characters
    of an occurrence are still to be dropped. *)
Fixpoint remove_from (needle : string) (skip : nat) (s : string) : string :=
  match s with
  | EmptyString => EmptyString
  | String c r =>
      match skip with
      | S n => remove_from needle n r
      | 0 =>
          if String.prefix needle s
          then remove_from needle (String.length needle - 1) r
          else String c (remove_from needle 0 r)
      end
  end.

Definition remove_all (needle s : string) : string := remove_from needle 0 s.

Fixpoint lower (s : string) : string :=
  match s with
  | EmptyString => EmptyString
  | String c r => String (to_lower c) (lower r)
  end.

(** [re.match('^' scheme, s, re.I)] for a lower-case [scheme]. *)
Definition prefix_nocase (scheme s : string) : bool :=
  String.prefix scheme (lower (String.substring 0 (String.length scheme) s)).

(** [s] without its longest prefix of characters of [p]. *)
Fixpoint drop_while (p : ascii -> bool) (s : string) : string :=
  match s with
  | EmptyString => EmptyString
  | String c r => if p c then drop_while p r else s
  end.

Definition first_char (s : string) : option ascii :=
  match s with
  | EmptyString => None
  | String c _ => Some c
  end.

Fixpoint last_char (s : string) : option ascii :=
  match s with
  | EmptyString => None
  | String c EmptyString => Some c
  | String _ r => last_char r
  end.

Fixpoint count_chars (p : ascii -> bool) (s : string) : nat :=
  match s with
  | EmptyString => 0
  | String c r => (if p c then 1 else 0) + count_chars p r
  end.

(** [t] occurs in [s]. *)
Definition substring_of (t s : string) : Prop :=
  exists before after : string, s = before ++ t ++ after.

(** A string of the language of [r] stands at the start of [s]. *)
Definition match_at_start (r : regex) (s : string) : Prop :=
  exists t u, s = t ++ u /\ lang r t.

(** A step of a repetition that only looks at the values of its
    continuation. *)
Definition extensional {A : Type}
    (step : string -> (string -> option A) -> option A) : Prop :=
  forall s k1 k2, (forall t, k1 t = k2 t) -> step s k1 = step s k2.

End Search.

(** ** The extractors of address, phone and email *)

Module Extractors.
Import Chars Text Regex Search Effects Scraper.

(** The further calls into BeautifulSoup that these extractors make. *)
Class DomText `{Dom} : Type := {
  (** [soup.find('a', href=re.compile(...))]: the first anchor whose
      target the pattern accepts. *)
  find_anchor : Soup -> (string -> bool) -> option Tag;
  (** [tag.get_text()] *)
  tag_text : Tag -> string;
  (** [soup.get_text()] *)
  soup_text : Soup -> string;
  (** The text of a detached copy of the tag from which the [i], [svg]
      and [span] elements are removed and in which every [br] is a
      space: [copy.get_text(" ", strip=True)]. *)
  address_text : Tag -> string
}.

(** [[A-Za-z0-9]] *)
Definition is_alnum (c : ascii) : bool := is_digit c || is_upper c || is_lower c.

(** [\s*[^A-Za-z0-9]*] *)
Definition lead_junk : regex :=
  Cat (Star (Class is_space)) (Star (Class (fun c => negb (is_alnum c)))).

(** [[-.\s]] *)
Definition phone_sep (c : ascii) : bool :=
  Ascii.eqb c "-" || Ascii.eqb c "." || is_space c.

Definition digits2 : regex := Cat (Class is_digit) (Class is_digit).
Definition digits4 : regex := Cat digits2 digits2.

(** [\(?\d{2}\)?[-.\s]?\d{4}[-.\s]?\d{4}] *)
Definition phone_re : regex :=
  Cat (Opt (Class (Ascii.eqb "(")))
   (Cat digits2
     (Cat (Opt (Class (Ascii.eqb ")")))
       (Cat (Opt (Class phone_sep))
         (Cat digits4
           (Cat (Opt (Class phone_sep)) digits4))))).

Definition call_button : string := "a.rose-button[href^=" ++ dq ++ "tel:" ++ dq ++ "]".

Definition phone_sections : string :=
  ".contact, .phone, .clinic-info, " ++ attr_has "class" "contact".

Definition email_sections : string :=
  ".contact, .email, .clinic-info, " ++ attr_has "class" "contact".

Section WithDom.
Context `{DT : DomText}.

Definition _extract_address (soup : Soup) : string :=
  match select soup ".address" with
  | [] => ClinicData.NOT_FOUND
  | address_div :: _ =>
      let address_text := address_text address_div in
      let address_text := strip (sub_prefix lead_junk address_text) in
      if truthy address_text then address_text else ClinicData.NOT_FOUND
  end.

(** The texts that the phone scan reads. *)
Definition phone_texts (soup : Soup) : list string :=
  match select soup phone_sections with
  | [] => [soup_text soup]
  | contact_sections => List.map tag_text contact_sections
  end.

Definition _extract_phone (soup : Soup) : string :=
  let from_button :=
    match select soup call_button with
    | phone_tag :: _ => option_map strip (search phone_re (get_text phone_tag))
    | [] => None
    end in
  match from_button with
  | Some phone => phone
  | None =>
      match find_anchor soup (String.prefix "tel:") with
      | Some tel_link => strip (remove_all "tel:" (get_href tel_link))
      | None =>
          match first_found phone_re (phone_texts soup) with
          | Some phone => phone
          | None => ClinicData.NOT_FOUND
          end
      end
  end.

(** The texts that the email scan reads. *)
Definition email_texts (soup : Soup) : list string :=
  match select soup email_sections with
  | [] =>
      match select soup "body" with
      | body :: _ => [tag_text body]
      | [] => [soup_text soup]
      end
  | contact_sections => List.map tag_text contact_sections
  end.

Definition email_scan (soup : Soup) : string :=
  match first_found ClinicData.email_re (email_texts soup) with
  | Some email => email
  | None => ClinicData.NOT_FOUND
  end.

Definition _extract_email (soup : Soup) : string :=
  match find_anchor soup (prefix_nocase "mailto:") with
  | Some email_link =>
      let email := strip (remove_all "mailto:" (get_href email_link)) in
      if contains "@" email then email else email_scan soup
  | None => email_scan soup
  end.

(** The environment of the scraper as it is written: the three
    extractors are the ones above. *)
Definition scraper_env (config : ScraperConfig)
    (http_get : nat -> string -> attempt)
    (write_error : nat -> option exn)
    (open_error : string -> option exn) : Env :=
  {| Scraper.config := config;
     Scraper.http_get := http_get;
     Scraper.write_error := write_error;
     Scraper.open_error := open_error;
     Scraper._extract_address := fun soup => Ret (_extract_address soup);
     Scraper._extract_phone := fun soup => Ret (_extract_phone soup);
     Scraper._extract_email := fun soup => Ret (_extract_email soup) |}.

End WithDom.
End Extractors.

(** ** Clinic links and written records, as sets of conditions *)

Module Conditions.
Import Chars Text Effects Scraper.

Section WithDom.
Context `{D : Dom} (env : Env).

(** A link that [extract_clinics_from_region] keeps. *)
Definition qualifies (seen : gset string) (link : Tag) : bool :=
  contains "/our-clinics/" (get_href link)
  && negb (contains "/regions/" (get_href link))
  && truthy (get_text link)
  && negb (existsb (String.eqb (get_text link)) generic_labels)
  && bool_decide (urljoin (base_url (config env)) (get_href link) ∉ seen).

Definition to_clinic_link (link : Tag) : ClinicLink :=
  {| clinic_name := get_text link;
     clinic_url := urljoin (base_url (config env)) (get_href link) |}.

(** A record that comes out of the extraction of some page. *)
Definition extracted (c : ClinicData.t) : Prop :=
  exists soup u, clinic_of_soup env soup u = Ret c.

(** A record that the extraction of some page gave and that carries the
    name of one of [regions]. *)
Definition stamped (regions : list Region) (d : ClinicData.t) : Prop :=
  exists region c,
    In region regions /\ extracted c /\
    d = ClinicData.set_region (region_name region) c.

(** In the trace [tr] of a run that started with [k0] requests made, the
    row of [d] comes directly after a GET of the URL of [d]; the web
    answered that GET without an error status, and [d] is, but for its
    region, the record built from the page of the answer. *)
Definition fetched_row (k0 : nat) (tr : list Event) (d : ClinicData.t) : Prop :=
  exists before after resp soup,
    tr = (before ++ EGet (ClinicData.url d) :: EWriteRow d :: after)%list /\
    http_get env (k0 + gets before) (ClinicData.url d) = Responded resp /\
    raises_for_status resp = false /\
    BeautifulSoup (text resp) = Ret soup /\
    clinic_of_soup env soup (ClinicData.url d) = Ret (ClinicData.set_region "" d).

(** The requests of [w] are the GETs of its trace, and every written
    record comes from a fetched page and carries the name of one of
    [regions]. *)
Definition sourced (k0 : nat) (regions : list Region) (w : World) : Prop :=
  requests w = k0 + gets (events w) /\
  forall d, In d (written (events w)) ->
    fetched_row k0 (events w) d /\
    exists region, In region regions /\ ClinicData.region d = region_name region.

End WithDom.

(** The characters of a phone that are not white space: digits, the
    hyphen and the parentheses. *)
Definition dial_char (c : ascii) : bool :=
  is_digit c || Ascii.eqb c "-" || Ascii.eqb c "(" || Ascii.eqb c ")".

(** The characters on which keeping the phone characters and dropping
    the dots agree. *)
Definition tame (c : ascii) : bool :=
  Bool.eqb (ClinicData.phone_char c) (negb (Ascii.eqb c ".")).

(** Neither a slash nor a hyphen. *)
Definition plain_char (c : ascii) : bool :=
  negb (Ascii.eqb c "/") && negb (Ascii.eqb c "-").

(** The seconds slept in a trace. *)
Fixpoint slept (tr : list Event) : Z :=
  match tr with
  | [] => 0
  | ESleep t :: rest => t + slept rest
  | _ :: rest => slept rest
  end.

(** The calls of [time.sleep]: the back-off of [safe_request] and
    [delay]. *)
Definition is_pause (e : Event) : bool :=
  match e with ESleep _ | EDelay => true | _ => false end.

(** Whether every GET of [tr] but the first has a pause between it and
    the GET before it; [hot] tells whether a GET came before [tr] with
    no pause since. *)
Fixpoint paced_from (hot : bool) (tr : list Event) : bool :=
  match tr with
  | [] => true
  | EGet _ :: rest => negb hot && paced_from true rest
  | ESleep _ :: rest => paced_from false rest
  | EDelay :: rest => paced_from false rest
  | _ :: rest => paced_from hot rest
  end.

(** [w'] continues the trace of [w] with paced events. *)
Definition spaced (hot : bool) (w w' : World) : Prop :=
  exists tr, events w' = (events w ++ tr)%list /\ paced_from hot tr = true.

End Conditions.

(** ** Clinic pages with contact details *)

Module DemoPages.
Import Text Effects Scraper Extractors Demo.

Definition toy_find_anchor (soup : toy_soup) (accepts : string -> bool)
    : option toy_tag :=
  List.find (fun t => accepts (t_href t)) (toy_select soup "a").

Definition toy_soup_text (soup : toy_soup) : string :=
  join " " (List.map t_text (toy_select soup "html")).

#[local] Instance toy_text : DomText (H := toy_dom) :=
  @Build_DomText toy_dom
    (toy_find_anchor : @Soup toy_dom -> (string -> bool) -> option (@Tag toy_dom))
    (t_text : @Tag toy_dom -> string)
    (toy_soup_text : @Soup toy_dom -> string)
    (t_text : @Tag toy_dom -> string).

(** A page with a call button, a mailto link and an address that
    starts with a bullet. *)
Definition contact_page : toy_soup :=
  [ ("h1.entry-title", [ link "" "My FootDr Alpha" ]);
    (".address", [ link "" "  * 123 Main St, Brisbane  " ]);
    (call_button, [ link "tel:0712345678" "Call (07) 1234.5678" ]);
    ("a", [ link "tel:0712345678" "Call (07) 1234.5678";
            link "mailto:alpha@site.com.au" "Email us" ]);
    (".services article", [ article "Orthotics"; article "Nail Care" ]) ].

(** A page without links, whose contact section holds the details as
    text. *)
Definition plain_page : toy_soup :=
  [ (phone_sections, [ link "" "Phone 07 1234 5678, fax 07-8765-4321" ]);
    (email_sections, [ link "" "Write to beta@site.com.au today" ]) ].

Definition contact_parse (text : string) : outcome toy_soup :=
  if String.eqb text "listing" then Ret listing_page
  else if String.eqb text "region" then Ret region_page
  else if String.eqb text "clinic" then Ret contact_page
  else Raise (Exception "markup rejected").

#[local] Instance contact_dom : Dom :=
  {| Soup := toy_soup; Tag := toy_tag;
     BeautifulSoup := contact_parse;
     select := toy_select;
     get_href := t_href;
     get_text := t_text;
     find_heading := toy_find_heading;
     urljoin := toy_urljoin |}.

#[local] Instance contact_text : DomText (H := contact_dom) :=
  @Build_DomText contact_dom
    (toy_find_anchor : @Soup contact_dom -> (string -> bool) -> option (@Tag contact_dom))
    (t_text : @Tag contact_dom -> string)
    (toy_soup_text : @Soup contact_dom -> string)
    (t_text : @Tag contact_dom -> string).

(** The scraper as it is written, on the site whose clinic pages are
    [contact_page]. *)
Definition contact_site : Env (H := contact_dom) :=
  scraper_env (DT := contact_text) site (fun _ => serve) (fun _ => None)
    (fun _ => None).

(** A listing whose region links have no text: a target with a
    fragment, a target with a query, and a target that ends with a
    slash. *)
Definition bare_listing : toy_soup :=
  [ ("a" ++ attr_has "href" "/regions/",
     [ link "/regions/north#top" "";
       link "/regions/west?ref=a/b" "";
       link "/regions/south-east/" "" ]) ].

Definition bare_parse (text : string) : outcome toy_soup :=
  if String.eqb text "listing" then Ret bare_listing else toy_parse text.

#[local] Instance bare_dom : Dom :=
  {| Soup := toy_soup; Tag := toy_tag;
     BeautifulSoup := bare_parse;
     select := toy_select;
     get_href := t_href;
     get_text := t_text;
     find_heading := toy_find_heading;
     urljoin := toy_urljoin |}.

(** The healthy site with [bare_listing] as its listing. *)
Definition bare_site : Env (H := bare_dom) :=
  {| config := site;
     http_get := fun _ => serve;
     write_error := fun _ => None;
     open_error := fun _ => None;
     Scraper._extract_address := fun _ => Ret "1 Main St";
     Scraper._extract_phone := fun _ => Ret "(07) 1234 5678";
     Scraper._extract_email := fun _ => Ret "alpha@site.com" |}.

End DemoPages.

(** * Properties *)

(** ** Strings *)

Module TextFacts.
Import Chars Text.

Lemma sapp_nil_r (s : string) : s ++ "" = s.
Proof. induction s as [|c s IH]; simpl; [reflexivity | now rewrite IH]. Qed.

Lemma sapp_assoc (a b c : string) : (a ++ b) ++ c = a ++ (b ++ c).
Proof. induction a as [|x a IH]; simpl; [reflexivity | now rewrite IH]. Qed.

Lemma sapp_eq_nil (a b : string) : a ++ b = "" -> a = "" /\ b = "".
Proof. destruct a; simpl; [auto | discriminate]. Qed.

Lemma slength_app (a b : string) :
  String.length (a ++ b) = String.length a + String.length b.
Proof. induction a as [|x a IH]; simpl; [reflexivity | now rewrite IH]. Qed.

Lemma all_chars_app p (a b : string) :
  all_chars p (a ++ b) = all_chars p a && all_chars p b.
Proof.
  induction a as [|x a IH]; simpl; [reflexivity |].
  now rewrite IH, andb_assoc.
Qed.

Lemma truthy_false (s : string) : truthy s = false <-> s = "".
Proof. destruct s; simpl; split; congruence. Qed.

Lemma truthy_true (s : string) : truthy s = true <-> s <> "".
Proof. destruct s; simpl; split; congruence. Qed.

Lemma all_keep_chars p (s : string) : all_chars p (keep_chars p s) = true.
Proof.
  induction s as [|c s IH]; simpl; [reflexivity |].
  destruct (p c) eqn:Hc; simpl; [now rewrite Hc | exact IH].
Qed.

Lemma keep_chars_none p (s : string) :
  all_chars (fun c => negb (p c)) s = true -> keep_chars p s = "".
Proof.
  induction s as [|c s IH]; simpl; [reflexivity |].
  intros [Hc Hs]%andb_prop. apply negb_true_iff in Hc. rewrite Hc. auto.
Qed.

Lemma all_lstrip p (s : string) :
  all_chars p s = true -> all_chars p (lstrip s) = true.
Proof.
  induction s as [|c s IH]; simpl; [reflexivity |].
  intros H. destruct (is_space c); [| exact H].
  apply andb_prop in H. tauto.
Qed.

Lemma all_rstrip p (s : string) :
  all_chars p s = true -> all_chars p (rstrip s) = true.
Proof.
  induction s as [|c s IH]; simpl; [reflexivity |].
  intros [Hc Hs]%andb_prop. specialize (IH Hs).
  destruct (rstrip s) as [|d r].
  - destruct (is_space c); simpl; [reflexivity | now rewrite Hc].
  - change (p c && all_chars p (String d r) = true). now rewrite Hc, IH.
Qed.

Lemma all_strip p (s : string) :
  all_chars p s = true -> all_chars p (strip s) = true.
Proof. intros H. unfold strip. now apply all_rstrip, all_lstrip. Qed.

End TextFacts.

(** ** The derivative matcher decides the language *)

Module RegexFacts.
Import Chars Text Regex TextFacts.

Lemma lang_nil_nullable r s : lang r s -> s = "" -> nullable r = true.
Proof.
  induction 1 as [| | r1 r2 s1 s2 _ IH1 _ IH2 | r1 r2 s _ IH | r1 r2 s _ IH
                 | | r s1 s2 _ _ _ _]; intros E; simpl; try reflexivity.
  - discriminate.
  - apply sapp_eq_nil in E as [-> ->]. now rewrite IH1, IH2.
  - now rewrite IH.
  - rewrite IH by assumption. apply orb_true_r.
Qed.

Lemma nullable_lang r : nullable r = true -> lang r "".
Proof.
  induction r as [| | p | r1 IH1 r2 IH2 | r1 IH1 r2 IH2 | r IH]; simpl; intros H.
  - discriminate.
  - constructor.
  - discriminate.
  - apply andb_prop in H as [H1 H2].
    change (lang (Cat r1 r2) ("" ++ "")). constructor; auto.
  - apply orb_prop in H as [H|H]; [apply lang_alt_l | apply lang_alt_r]; auto.
  - constructor.
Qed.

Lemma deriv_sound c r : forall s, lang (deriv c r) s -> lang r (String c s).
Proof.
  induction r as [| | p | r1 IH1 r2 IH2 | r1 IH1 r2 IH2 | r IH]; simpl; intros s H.
  - inversion H.
  - inversion H.
  - destruct (p c) eqn:Hc; inversion H; subst. now constructor.
  - destruct (nullable r1) eqn:Hn.
    + inversion H as [| | | ? ? ? H1 | ? ? ? H1 | |]; subst.
      * inversion H1 as [| | ? ? s1 s2 Ha Hb | | | |]; subst.
        change (lang (Cat r1 r2) (String c s1 ++ s2)). constructor; auto.
      * change (lang (Cat r1 r2) ("" ++ String c s)).
        constructor; [now apply nullable_lang | auto].
    + inversion H as [| | ? ? s1 s2 Ha Hb | | | |]; subst.
      change (lang (Cat r1 r2) (String c s1 ++ s2)). constructor; auto.
  - inversion H; subst; [apply lang_alt_l | apply lang_alt_r]; auto.
  - inversion H as [| | ? ? s1 s2 Ha Hb | | | |]; subst.
    change (lang (Star r) (String c s1 ++ s2)). constructor; auto.
Qed.

Lemma deriv_complete r s0 :
  lang r s0 -> forall c s, s0 = String c s -> lang (deriv c r) s.
Proof.
  induction 1 as [| p d Hd | r1 r2 s1 s2 H1 IH1 H2 IH2 | r1 r2 s0 _ IH
                 | r1 r2 s0 _ IH | | r s1 s2 H1 IH1 H2 IH2];
    intros c s E; simpl.
  - discriminate.
  - injection E as -> <-. rewrite Hd. constructor.
  - destruct s1 as [|x s1]; simpl in E.
    + subst s2. rewrite (lang_nil_nullable _ _ H1 eq_refl).
      apply lang_alt_r. now apply IH2.
    + injection E as -> <-.
      assert (Hc : lang (Cat (deriv c r1) r2) (s1 ++ s2))
        by (constructor; [now apply IH1 | assumption]).
      destruct (nullable r1); [now apply lang_alt_l | assumption].
  - apply lang_alt_l. now apply IH.
  - apply lang_alt_r. now apply IH.
  - discriminate.
  - destruct s1 as [|x s1]; simpl in E.
    + now apply IH2.
    + injection E as -> <-. constructor; [now apply IH1 | assumption].
Qed.

Lemma accepts_lang r s : accepts r s = true <-> lang r s.
Proof.
  revert r. induction s as [|c s IH]; intros r; simpl.
  - split; [apply nullable_lang | intros H; now apply (lang_nil_nullable r "")].
  - rewrite IH. split; [apply deriv_sound | intros H; now apply (deriv_complete r _ H)].
Qed.

(** Inversion of concatenation and of a one-character class. *)
Lemma lang_cat_inv r1 r2 s :
  lang (Cat r1 r2) s -> exists s1 s2, s = s1 ++ s2 /\ lang r1 s1 /\ lang r2 s2.
Proof. inversion 1; subst; eauto. Qed.

Lemma lang_class_inv p s :
  lang (Class p) s -> exists c, s = String c "" /\ p c = true.
Proof. inversion 1; subst; eauto. Qed.

Lemma lang_star_class p s : lang (Star (Class p)) s <-> all_chars p s = true.
Proof.
  split.
  - remember (Star (Class p)) as r eqn:Er. intros H.
    induction H as [| | | | | | r s1 s2 H1 _ H2 IH2]; try discriminate.
    + reflexivity.
    + injection Er as ->. apply lang_class_inv in H1 as (c & -> & Hc).
      simpl. rewrite Hc. now apply IH2.
  - induction s as [|c s IH]; simpl; intros H; [constructor |].
    apply andb_prop in H as [Hc Hs].
    change (lang (Star (Class p)) (String c "" ++ s)).
    constructor; [now constructor | auto].
Qed.

Lemma lang_plus_class p s :
  lang (Plus (Class p)) s <-> truthy s = true /\ all_chars p s = true.
Proof.
  unfold Plus. split.
  - intros (s1 & s2 & -> & H1 & H2)%lang_cat_inv.
    apply lang_class_inv in H1 as (c & -> & Hc).
    apply lang_star_class in H2. simpl. now rewrite Hc, H2.
  - destruct s as [|c s]; simpl; intros [Ht H]; [discriminate |].
    apply andb_prop in H as [Hc Hs].
    change (lang (Cat (Class p) (Star (Class p))) (String c "" ++ s)).
    constructor; [now constructor | now apply lang_star_class].
Qed.

Lemma lang_atleast2_class p s :
  lang (AtLeast2 (Class p)) s <-> 2 <= String.length s /\ all_chars p s = true.
Proof.
  unfold AtLeast2. split.
  - intros (s1 & s2 & -> & H1 & H2)%lang_cat_inv.
    apply lang_class_inv in H1 as (c & -> & Hc).
    apply (lang_plus_class p) in H2 as [Ht Ha].
    destruct s2 as [|d s2]; [discriminate |].
    simpl in *. rewrite Hc, Ha. split; [lia | reflexivity].
  - destruct s as [|c [|d s]]; simpl; intros [Hl H]; try lia.
    apply andb_prop in H as [Hc Hs].
    change (lang (Cat (Class p) (Plus (Class p))) (String c "" ++ String d s)).
    constructor; [now constructor |].
    apply lang_plus_class. simpl. split; [reflexivity | exact Hs].
Qed.

Lemma chop_newline_spec s s' :
  chop_newline s = Some s' <-> s = s' ++ String newline "".
Proof.
  revert s'. induction s as [|c s IH]; intros s'; simpl.
  - split; [discriminate |]. destruct s'; discriminate.
  - destruct s as [|d s].
    + destruct (Ascii.eqb_spec c newline) as [->|Hn].
      * split; [now intros [= <-] |].
        destruct s' as [|x [|y s']]; simpl; intros E; now inversion E.
      * split; [discriminate |].
        destruct s' as [|x [|y s']]; simpl; intros E; inversion E; congruence.
    + destruct (chop_newline (String d s)) as [t|]; simpl.
      * pose proof (proj1 (IH t) eq_refl) as Et. split.
        -- intros [= <-]. simpl. now rewrite <- Et.
        -- destruct s' as [|x s']; simpl; intros E; [discriminate |].
           injection E as <- E. apply IH in E. now injection E as ->.
      * split; [discriminate |].
        destruct s' as [|x s']; simpl; intros E; [discriminate |].
        injection E as <- E. apply IH in E. discriminate.
Qed.

End RegexFacts.

(** ** Phone normalisation and email validation *)

Module ClinicDataFacts.
Import Chars Text Regex ClinicData TextFacts RegexFacts.

(** The pattern of [_validate_email] describes the shape of the
    specification. *)
Lemma email_re_shape (s : string) : lang email_re s <-> email_shape s.
Proof.
  unfold email_re, email_shape. split.
  - intros (loc & s1 & -> & Hloc & H)%lang_cat_inv.
    apply lang_cat_inv in H as (at_ & s2 & -> & Hat & H).
    apply lang_cat_inv in H as (dom & s3 & -> & Hdom & H).
    apply lang_cat_inv in H as (dot & tld & -> & Hdot & Htld).
    apply lang_class_inv in Hat as (a & -> & Ha%Ascii.eqb_eq).
    apply lang_class_inv in Hdot as (b & -> & Hb%Ascii.eqb_eq).
    subst a b.
    apply lang_plus_class in Hloc as [? ?].
    apply lang_plus_class in Hdom as [? ?].
    apply lang_atleast2_class in Htld as [? ?].
    exists loc, dom, tld. auto 10.
  - intros (loc & dom & tld & -> & Hl & Hla & Hd & Hda & Ht & Hta).
    constructor; [now apply lang_plus_class |].
    constructor; [now constructor |].
    constructor; [now apply lang_plus_class |].
    constructor; [now constructor |].
    now apply lang_atleast2_class.
Qed.

Lemma accepts_email_shape (s : string) : accepts email_re s = true <-> email_shape s.
Proof. rewrite accepts_lang. apply email_re_shape. Qed.

(** What [_validate_email] does on every input: a string of the shape is
    returned as it is, and so is one that has the shape up to a final
    newline; every other string becomes the sentinel. *)
Lemma validate_email_cases (s : string) :
  (email_shape s -> _validate_email s = s) /\
  (forall s', s = s' ++ String newline "" -> email_shape s' -> _validate_email s = s) /\
  (~ email_shape s ->
   (forall s', s = s' ++ String newline "" -> ~ email_shape s') ->
   _validate_email s = NOT_FOUND).
Proof.
  unfold _validate_email, match_anchored.
  destruct (String.eqb_spec s NOT_FOUND) as [->|Hs].
  { repeat split; reflexivity. }
  repeat split.
  - intros H%accepts_email_shape. now rewrite H.
  - intros s' E H%accepts_email_shape.
    apply chop_newline_spec in E. rewrite E, H. now rewrite orb_true_r.
  - intros Hn Hc.
    destruct (accepts email_re s) eqn:Ha.
    { now apply accepts_email_shape in Ha. }
    destruct (chop_newline s) as [s'|] eqn:Ec; [| reflexivity].
    destruct (accepts email_re s') eqn:Ha'; [| reflexivity].
    apply chop_newline_spec in Ec. apply accepts_email_shape in Ha'.
    now destruct (Hc s' Ec).
Qed.

(** C2: the input made of the six characters a@b.co and a final
    newline does not have the shape local@domain.tld, yet
    [_validate_email] returns it unchanged instead of the sentinel. *)
Theorem validate_email_trailing_newline :
  let email := "a@b.co" ++ String newline "" in
  ~ email_shape email /\
  _validate_email email = email /\
  _validate_email email <> NOT_FOUND.
Proof.
  cbv zeta. split; [| split].
  - intros H%accepts_email_shape. vm_compute in H. discriminate.
  - vm_compute. reflexivity.
  - vm_compute. discriminate.
Qed.

(** C8, as the code has it: a phone input made only of noise characters
    normalises to the sentinel; the normalised phone is always either
    the sentinel or made only of digits, parentheses, hyphens and
    white-space characters (the class [\s], which the pattern keeps);
    and it is never the empty string. *)
Theorem normalize_phone_spec (phone : string) :
  (all_chars noise_char phone = true -> _normalize_phone phone = NOT_FOUND) /\
  (_normalize_phone phone = NOT_FOUND \/
   all_chars phone_char (_normalize_phone phone) = true) /\
  _normalize_phone phone <> "".
Proof.
  unfold _normalize_phone.
  destruct (String.eqb_spec phone NOT_FOUND) as [->|Hne].
  { repeat split; auto; discriminate. }
  repeat split.
  - intros H. unfold noise_char in H. now rewrite (keep_chars_none _ _ H).
  - destruct (truthy _) eqn:Ht; [right | now left].
    apply all_strip, all_keep_chars.
  - destruct (truthy _) eqn:Ht; [now apply truthy_true | discriminate].
Qed.

Lemma normalize_phone_spec_witness :
  all_chars noise_char "ext.#" = true /\ _normalize_phone "ext.#" = NOT_FOUND.
Proof.
  split; [reflexivity |].
  apply (proj1 (normalize_phone_spec "ext.#")). reflexivity.
Defined.

(** C8, refuted as stated: a line break inside the number is kept, so
    the normalised phone is not the sentinel and is not made only of
    digits, parentheses, hyphens and spaces. *)
Lemma normalize_phone_keeps_line_break :
  let phone := "07" ++ String newline "1234 5678" in
  _normalize_phone phone = phone /\
  _normalize_phone phone <> NOT_FOUND /\
  all_chars plain_phone_char (_normalize_phone phone) = false.
Proof.
  cbv zeta. split; [| split].
  - vm_compute. reflexivity.
  - vm_compute. discriminate.
  - vm_compute. reflexivity.
Qed.

End ClinicDataFacts.

(** ** The fetcher *)

Module FetcherFacts.
Import Effects Scraper Traces.
Local Open Scope list_scope.

Section Fetcher.
Context `{D : Dom} (env : Env).

Lemma gets_app (a b : list Event) : gets (a ++ b) = gets a + gets b.
Proof. unfold gets. now rewrite List.filter_app, List.length_app. Qed.

Lemma gets_backoff url k : gets (backoff_trace url k) = k.
Proof.
  unfold backoff_trace. generalize 0 as a.
  induction k as [|k IH]; intros a; simpl; [reflexivity |].
  change (S (gets (flat_map (fun i => [EGet url; ESleep (2 ^ Z.of_nat i)])
                            (List.seq (S a) k))) = S k).
  now rewrite IH.
Qed.

Lemma loop_trace_app url m a b :
  loop_trace url m (a ++ b) = loop_trace url m a ++ loop_trace url m b.
Proof. unfold loop_trace. apply List.flat_map_app. Qed.

Lemma loop_trace_cons url m i l :
  loop_trace url m (i :: l) = loop_trace url m [i] ++ loop_trace url m l.
Proof. apply (loop_trace_app url m [i] l). Qed.

(** Before the last attempt the loop pauses after every failure. *)
Lemma loop_trace_backoff_from url m k : forall a,
  (Z.of_nat (a + k) <= m - 1)%Z ->
  loop_trace url m (List.seq a k) =
  List.flat_map (fun i => [EGet url; ESleep (2 ^ Z.of_nat i)]) (List.seq a k).
Proof.
  unfold loop_trace.
  induction k as [|k IH]; intros a Hk; simpl; [reflexivity |].
  destruct (Z.ltb_spec (Z.of_nat a) (m - 1)); [| lia].
  simpl. do 2 f_equal. apply IH. lia.
Qed.

Lemma loop_trace_backoff url m k :
  (Z.of_nat k <= m - 1)%Z -> loop_trace url m (List.seq 0 k) = backoff_trace url k.
Proof. intros Hk. now apply loop_trace_backoff_from. Qed.

(** The whole loop pauses after every failure but the last. *)
Lemma loop_trace_full url m :
  (0 < m)%Z ->
  loop_trace url m (range m) = backoff_trace url (Z.to_nat m - 1) ++ [EGet url].
Proof.
  intros Hm. unfold range.
  replace (Z.to_nat m) with (S (Z.to_nat m - 1)) at 1 by lia.
  rewrite List.seq_S, loop_trace_app, loop_trace_backoff by lia.
  simpl. destruct (Z.ltb_spec (Z.of_nat (Z.to_nat m - 1)) (m - 1)); [lia | reflexivity].
Qed.

(** The retry loop, attempt by attempt. *)
Lemma safe_request_loop_spec url m pending : forall w,
  let '(r, w') := safe_request_loop env url m pending w in
  seen_clinic_urls w' = seen_clinic_urls w /\ rows w' = rows w /\
  exists k,
    (forall j, j < k -> attempt_failed (http_get env (requests w + j) url) = true) /\
    match r with
    | None =>
        k = length pending /\ requests w' = requests w + k /\
        events w' = events w ++ loop_trace url m pending
    | Some resp =>
        k < length pending /\ requests w' = requests w + S k /\
        http_get env (requests w + k) url = Responded resp /\
        raises_for_status resp = false /\
        events w' = events w ++ loop_trace url m (List.firstn k pending) ++ [EGet url]
    end.
Proof.
  induction pending as [|attempt rest IH]; intros w.
  - simpl. repeat split; try reflexivity. exists 0.
    split; [intros j Hj; lia |]. repeat split; auto.
    now rewrite List.app_nil_r.
  - assert (Hnext : forall w1,
      requests w1 = S (requests w) ->
      seen_clinic_urls w1 = seen_clinic_urls w -> rows w1 = rows w ->
      events w1 = events w ++ loop_trace url m [attempt] ->
      attempt_failed (http_get env (requests w) url) = true ->
      let '(r, w') := safe_request_loop env url m rest w1 in
      seen_clinic_urls w' = seen_clinic_urls w /\ rows w' = rows w /\
      exists k,
        (forall j, j < k -> attempt_failed (http_get env (requests w + j) url) = true) /\
        match r with
        | None =>
            k = length (attempt :: rest) /\ requests w' = requests w + k /\
            events w' = events w ++ loop_trace url m (attempt :: rest)
        | Some resp =>
            k < length (attempt :: rest) /\ requests w' = requests w + S k /\
            http_get env (requests w + k) url = Responded resp /\
            raises_for_status resp = false /\
            events w' = events w ++
              loop_trace url m (List.firstn k (attempt :: rest)) ++ [EGet url]
        end).
    { intros w1 Hr Hs Hrows He Hf. specialize (IH w1).
      destruct (safe_request_loop env url m rest w1) as [r w'].
      destruct IH as (Hs' & Hrows' & k & Hfail & Hres).
      split; [congruence |]. split; [congruence |].
      exists (S k). split.
      - intros [|j] Hj; [now rewrite Nat.add_0_r |].
        replace (requests w + S j) with (requests w1 + j) by lia.
        apply Hfail. lia.
      - destruct r as [resp|].
        + destruct Hres as (Hk & Hreq & Hget & Hok & Hev).
          replace (requests w + S k) with (requests w1 + k) by lia.
          rewrite List.firstn_cons, (loop_trace_cons url m attempt (firstn k rest)).
          cbn [length]. repeat split; try lia; try assumption.
          rewrite Hev, He. now rewrite <- !List.app_assoc.
        + destruct Hres as (Hk & Hreq & Hev).
          rewrite (loop_trace_cons url m attempt rest).
          cbn [length]. repeat split; try lia.
          rewrite Hev, He. now rewrite <- !List.app_assoc. }
    simpl safe_request_loop.
    set (w1 := emit (EGet url) (count_request w)).
    set (w2 := if (Z.of_nat attempt <? m - 1)%Z
               then emit (ESleep (2 ^ Z.of_nat attempt)) w1 else w1).
    assert (H2 : requests w2 = S (requests w) /\
                 seen_clinic_urls w2 = seen_clinic_urls w /\ rows w2 = rows w /\
                 events w2 = events w ++ loop_trace url m [attempt]).
    { unfold w2, loop_trace. simpl.
      destruct (Z.of_nat attempt <? m - 1)%Z; simpl;
        rewrite ?List.app_nil_r, <- ?List.app_assoc; auto. }
    destruct H2 as (Hr & Hs & Hrows & He).
    destruct (http_get env (requests w) url) as [resp| | |e] eqn:Hget;
      try (apply Hnext; auto; rewrite ?Hget; reflexivity).
    destruct (raises_for_status resp) eqn:Hst.
    + apply Hnext; auto; rewrite ?Hget; exact Hst.
    + repeat split; try reflexivity. exists 0.
      split; [intros j Hj; lia |].
      rewrite Nat.add_0_r. repeat split; simpl; auto; lia.
Qed.

Lemma firstn_seq k n : k <= n -> List.firstn k (List.seq 0 n) = List.seq 0 k.
Proof.
  intros Hk. replace n with (k + (n - k)) by lia.
  rewrite List.seq_app, List.firstn_app, List.length_seq, Nat.sub_diag.
  simpl. rewrite List.app_nil_r.
  rewrite <- (List.length_seq k 0) at 1. apply List.firstn_all.
Qed.

(** What a call of [safe_request] does to the world: it only adds
    network events, and as many GETs as it counts requests. *)
Lemma safe_request_frame url limit w :
  let '(r, w') := safe_request env url limit w in
  seen_clinic_urls w' = seen_clinic_urls w /\ rows w' = rows w /\
  exists tr, events w' = events w ++ tr /\
             forallb net_event tr = true /\
             (r = None -> requests w' = requests w + gets tr).
Proof.
  unfold safe_request.
  set (m := int_or limit (max_retries (config env))).
  pose proof (safe_request_loop_spec url m (range m) w) as H.
  destruct (safe_request_loop env url m (range m) w) as [r w'].
  destruct H as (Hs & Hrows & k & _ & Hres).
  split; [assumption |]. split; [assumption |].
  assert (Hnet : forall l, forallb net_event (loop_trace url m l) = true).
  { induction l as [|i l IHl]; [reflexivity |].
    unfold loop_trace in *. simpl.
    destruct (Z.of_nat i <? m - 1)%Z; simpl; exact IHl. }
  assert (Hgets : forall l, gets (loop_trace url m l) = length l).
  { induction l as [|i l IHl]; [reflexivity |].
    change (i :: l) with ([i] ++ l). rewrite loop_trace_app, gets_app, IHl.
    unfold loop_trace. simpl. now destruct (Z.of_nat i <? m - 1)%Z. }
  destruct r as [resp|].
  - destruct Hres as (_ & _ & _ & _ & Hev).
    eexists. split; [exact Hev |]. split; [| discriminate].
    rewrite List.forallb_app, Hnet. reflexivity.
  - destruct Hres as (-> & Hreq & Hev).
    eexists. split; [exact Hev |]. split; [apply Hnet |].
    intros _. now rewrite Hgets.
Qed.

(** The trace of a call whose effective limit [m] is positive. *)
Lemma safe_request_trace url limit w :
  let m := int_or limit (max_retries (config env)) in
  (0 < m)%Z ->
  let '(r, w') := safe_request env url limit w in
  exists k : nat,
    S k <= Z.to_nat m /\
    events w' = events w ++ backoff_trace url k ++ [EGet url] /\
    gets (backoff_trace url k ++ [EGet url]) = S k /\
    (forall j, j < k -> attempt_failed (http_get env (requests w + j) url) = true) /\
    match r with
    | Some resp =>
        http_get env (requests w + k) url = Responded resp /\
        raises_for_status resp = false
    | None =>
        S k = Z.to_nat m /\
        attempt_failed (http_get env (requests w + k) url) = true
    end.
Proof.
  intros m Hm. unfold safe_request. fold m.
  pose proof (safe_request_loop_spec url m (range m) w) as H.
  destruct (safe_request_loop env url m (range m) w) as [r w'].
  destruct H as (_ & _ & k & Hfail & Hres).
  assert (Hg : forall i, gets (backoff_trace url i ++ [EGet url]) = S i).
  { intros i. rewrite gets_app, gets_backoff. unfold gets. simpl. lia. }
  unfold range in Hres. rewrite List.length_seq in Hres.
  destruct r as [resp|].
  - destruct Hres as (Hk & _ & Hget & Hok & Hev).
    exists k. rewrite firstn_seq, loop_trace_backoff in Hev by lia.
    repeat split; auto; lia.
  - destruct Hres as (-> & _ & Hev).
    exists (Z.to_nat m - 1). fold (range m) in Hev.
    rewrite loop_trace_full in Hev by lia.
    repeat split; auto; try lia.
    + intros j Hj. apply Hfail. lia.
    + apply Hfail. lia.
Qed.

(** C3: with a positive limit [n], [safe_request] makes at most [n]
    GET attempts; a timeout, a connection error and an error status all
    count as a failed attempt; failed attempt [i] is followed by a sleep
    of [2^i] unless it is the last of the [n]; and when all [n] attempts
    fail the call returns [None]. *)
Theorem safe_request_retries_backoff (url : string) (n : Z) (w : World) :
  (0 < n)%Z ->
  (attempt_failed Timeout = true /\ attempt_failed ConnectionError = true /\
   forall resp, (400 <= status_code resp < 600)%Z ->
                attempt_failed (Responded resp) = true) /\
  let '(r, w') := safe_request env url (Some n) w in
  exists k : nat,
    S k <= Z.to_nat n /\
    events w' = events w ++ backoff_trace url k ++ [EGet url] /\
    gets (backoff_trace url k ++ [EGet url]) = S k /\
    (forall j, j < k -> attempt_failed (http_get env (requests w + j) url) = true) /\
    match r with
    | Some resp =>
        http_get env (requests w + k) url = Responded resp /\
        raises_for_status resp = false
    | None =>
        S k = Z.to_nat n /\
        attempt_failed (http_get env (requests w + k) url) = true
    end.
Proof.
  intros Hn. split.
  - repeat split. intros resp [Hlo Hhi]. simpl. unfold raises_for_status.
    apply andb_true_intro. split; [now apply Z.leb_le | now apply Z.ltb_lt].
  - pose proof (safe_request_trace url (Some n) w) as H. simpl in H.
    destruct (Z.eqb_spec n 0) as [->|_]; [lia |]. now apply H.
Qed.

(** C9: a limit of 0 is replaced by the configured [max_retries], as an
    omitted limit is; so with a positive configured default at least one
    GET is made. *)
Theorem safe_request_zero_limit (url : string) (w : World) :
  safe_request env url (Some 0%Z) w = safe_request env url None w /\
  ((0 < max_retries (config env))%Z ->
   exists tr, events (snd (safe_request env url (Some 0%Z) w)) = events w ++ tr /\
              1 <= gets tr).
Proof.
  split; [reflexivity |]. intros Hm.
  pose proof (safe_request_trace url (Some 0%Z) w Hm) as H.
  destruct (safe_request env url (Some 0%Z) w) as [r w'].
  destruct H as (k & _ & Hev & Hg & _).
  eexists. split; [exact Hev |]. rewrite Hg. lia.
Qed.

End Fetcher.

Lemma safe_request_retries_backoff_witness :
  (0 < 2)%Z /\
  exists k : nat,
    S k <= 2 /\
    events (snd (safe_request Demo.offline Demo.alpha (Some 2%Z) fresh)) =
    [] ++ backoff_trace Demo.alpha k ++ [EGet Demo.alpha].
Proof.
  split; [lia |].
  pose proof (safe_request_retries_backoff Demo.offline Demo.alpha 2 fresh
                ltac:(lia)) as [_ H].
  destruct (safe_request Demo.offline Demo.alpha (Some 2%Z) fresh) as [r w'].
  destruct H as (k & Hk & Hev & _).
  exists k. split; [exact Hk | exact Hev].
Defined.

Lemma safe_request_zero_limit_witness :
  (0 < max_retries (config Demo.offline))%Z /\
  exists tr,
    events (snd (safe_request Demo.offline Demo.alpha (Some 0%Z) fresh)) = [] ++ tr /\
    1 <= gets tr.
Proof.
  split; [reflexivity |].
  apply (proj2 (safe_request_zero_limit Demo.offline Demo.alpha fresh)).
  reflexivity.
Defined.

End FetcherFacts.

(** ** First-seen order *)

Module ChainFacts.
Import Text Effects Scraper Chains.
Local Open Scope list_scope.

Section ByKey.
Context {A : Type} (key : A -> string).

Lemma same_key_refl (x : A) : same_key key x x = true.
Proof. apply String.eqb_refl. Qed.

Lemma same_key_sym (x y : A) : same_key key x y = same_key key y x.
Proof. apply String.eqb_sym. Qed.

Lemma same_key_eq (x y : A) : same_key key x y = true <-> key y = key x.
Proof. apply String.eqb_eq. Qed.

Lemma key_in_app (a b : list A) (y : A) :
  key_in key (a ++ b) y = key_in key a y || key_in key b y.
Proof. unfold key_in. apply List.existsb_app. Qed.

Lemma key_in_same (acc : list A) (x y : A) :
  same_key key x y = true -> key_in key acc y = key_in key acc x.
Proof.
  intros E%same_key_eq. unfold key_in, same_key. now rewrite E.
Qed.

Lemma filter_filter_sub (f g : A -> bool) (l : list A) :
  (forall y, f y = true -> g y = true) ->
  List.filter f (List.filter g l) = List.filter f l.
Proof.
  intros Hfg. induction l as [|y l IH]; simpl; [reflexivity |].
  destruct (g y) eqn:Hg; simpl.
  - now rewrite IH.
  - destruct (f y) eqn:Hf; [| exact IH].
    apply Hfg in Hf. congruence.
Qed.

Lemma filter_filter_and (f g : A -> bool) (l : list A) :
  List.filter f (List.filter g l) = List.filter (fun y => g y && f y) l.
Proof.
  induction l as [|y l IH]; simpl; [reflexivity |].
  destruct (g y); simpl; [| exact IH]. destruct (f y); now rewrite IH.
Qed.

(** The loop appends, to what it starts with, the first occurrences of
    the keys that are new. *)
Lemma collect_spec (l : list A) : forall acc,
  collect key l acc =
  acc ++ List.filter (fun y => negb (key_in key acc y)) (first_by_key key l).
Proof.
  induction l as [|x l IH]; intros acc; simpl.
  - now rewrite List.app_nil_r.
  - destruct (key_in key acc x) eqn:Hx; simpl.
    + rewrite IH. f_equal. symmetry. apply filter_filter_sub.
      intros y Hy. destruct (same_key key x y) eqn:Hs; [| reflexivity].
      rewrite (key_in_same acc x y Hs), Hx in Hy. discriminate.
    + rewrite IH, <- List.app_assoc. simpl. do 2 f_equal.
      rewrite filter_filter_and. apply List.filter_ext. intros y.
      rewrite key_in_app. unfold key_in at 2. simpl.
      rewrite orb_false_r, negb_orb. apply andb_comm.
Qed.

Lemma collect_nil (l : list A) : collect key l [] = first_by_key key l.
Proof.
  rewrite collect_spec. simpl.
  induction (first_by_key key l) as [|y r IH]; simpl; [reflexivity | now rewrite IH].
Qed.

Lemma first_by_key_in (l : list A) (x : A) :
  In x (first_by_key key l) -> In x l.
Proof.
  revert x. induction l as [|a l IH]; simpl; intros x; [tauto |].
  intros [->|[H _]%List.filter_In]; auto.
Qed.

(** Every key of the input is kept. *)
Lemma first_by_key_keys (l : list A) (k : string) :
  In k (List.map key (first_by_key key l)) <-> In k (List.map key l).
Proof.
  induction l as [|a l IH]; simpl; [tauto |].
  rewrite <- IH. split.
  - intros [H|H]; [now left |]. right.
    apply List.in_map_iff in H as (y & <- & [Hy _]%List.filter_In).
    now apply List.in_map.
  - intros [H|H]; [now left |].
    destruct (String.eqb_spec k (key a)) as [->|Hne]; [now left |]. right.
    apply List.in_map_iff in H as (y & <- & Hy).
    apply List.in_map, List.filter_In. split; [exact Hy |].
    apply negb_true_iff. apply not_true_is_false.
    intros E%same_key_eq. contradiction.
Qed.

(** No key is kept twice. *)
Lemma first_by_key_nodup (l : list A) : List.NoDup (List.map key (first_by_key key l)).
Proof.
  induction l as [|a l IH]; simpl; constructor.
  - intros (y & E & [_ Hy]%List.filter_In)%List.in_map_iff.
    apply negb_true_iff in Hy.
    assert (same_key key a y = true) by now apply same_key_eq.
    congruence.
  - revert IH. generalize (first_by_key key l) as r.
    induction r as [|y r IHr]; simpl; intros Hnd; [constructor |].
    inversion Hnd as [|? ? Hnotin Hnd']; subst.
    destruct (negb (same_key key a y)); simpl; [| now apply IHr].
    constructor; [| now apply IHr].
    intros (z & E & [Hz _]%List.filter_In)%List.in_map_iff.
    apply Hnotin. rewrite <- E. now apply List.in_map.
Qed.

Lemma first_by_key_nil (l : list A) : first_by_key key l = [] <-> l = [].
Proof. destruct l; simpl; split; congruence. Qed.

End ByKey.

Lemma first_nonempty_map_nil {A B : Type} (f : list A -> list B) (ls : list (list A)) :
  (forall l, f l = [] <-> l = []) ->
  first_nonempty (List.map f ls) = f (first_nonempty ls).
Proof.
  intros Hf. induction ls as [|l ls IH]; simpl.
  - symmetry. now apply Hf.
  - destruct l as [|x l]; simpl.
    + rewrite (proj2 (Hf []) eq_refl). exact IH.
    + destruct (f (x :: l)) eqn:E; [| reflexivity].
      apply Hf in E. discriminate.
Qed.

End ChainFacts.

(** ** Services extraction and region discovery *)

Module DiscoveryFacts.
Import Text Effects Scraper Chains ChainFacts.
Local Open Scope list_scope.

Section WithDom.
Context `{D : Dom}.

Lemma key_in_self (l : list string) (x : string) :
  key_in self l x = negb (bool_decide (x ∉ l)).
Proof.
  assert (H : key_in self l x = true <-> x ∈ l).
  { unfold key_in. rewrite List.existsb_exists. split.
    - intros (a & Ha & E). apply same_key_eq in E. unfold self in E. subst a.
      now apply list_elem_of_In.
    - intros Hx. exists x. split; [now apply list_elem_of_In | apply same_key_refl]. }
  destruct (key_in self l x); case_bool_decide; simpl; intuition congruence.
Qed.

(** The inner loop of [_extract_services] is the first-seen loop over
    the non-empty heading texts. *)
Lemma add_services_collect (articles : list Tag) : forall services,
  add_services articles services = collect self (heading_texts articles) services.
Proof.
  induction articles as [|a rest IH]; intros services; simpl; [reflexivity |].
  destruct (find_heading a) as [h|]; simpl; [| apply IH].
  destruct (truthy (get_text h)); simpl; [| apply IH].
  rewrite key_in_self.
  destruct (bool_decide (get_text h ∉ services)); simpl; apply IH.
Qed.

Lemma services_from_selectors_spec (soup : Soup) (selectors : list string) :
  services_from_selectors soup selectors [] =
  first_by_key self
    (first_nonempty (List.map (fun sel => heading_texts (select soup sel)) selectors)).
Proof.
  rewrite <- (first_nonempty_map_nil (first_by_key self))
    by apply first_by_key_nil.
  induction selectors as [|sel rest IH]; simpl; [reflexivity |].
  rewrite add_services_collect, collect_nil.
  destruct (first_by_key self (heading_texts (select soup sel))); [exact IH | reflexivity].
Qed.

(** C5: the services are the names found by the first selector that
    yields any, each name once and in first-seen order, joined with
    [; ]; the sentinel stands for no service; and the headings
    Orthotics, Nail Care, Orthotics give [Orthotics; Nail Care]. *)
Theorem extract_services_spec (soup : Soup) :
  let found :=
    first_nonempty
      (List.map (fun sel => heading_texts (select soup sel)) service_selectors) in
  let names := first_by_key self found in
  _extract_services soup =
    match found with
    | [] => ClinicData.NOT_FOUND
    | _ :: _ => join "; " names
    end /\
  List.NoDup names /\
  (forall x, In x names <-> In x found) /\
  (found = ["Orthotics"; "Nail Care"; "Orthotics"] ->
   _extract_services soup = "Orthotics; Nail Care").
Proof.
  intros found names.
  assert (Hrun : _extract_services soup =
                 match found with
                 | [] => ClinicData.NOT_FOUND
                 | _ :: _ => join "; " names
                 end).
  { unfold _extract_services. rewrite services_from_selectors_spec.
    fold found. fold names. unfold names. destruct found; reflexivity. }
  split; [exact Hrun |]. split; [| split].
  - pose proof (first_by_key_nodup self found) as H.
    now rewrite List.map_id in H.
  - intros x. pose proof (first_by_key_keys self found x) as H.
    now rewrite !List.map_id in H.
  - intros E. rewrite Hrun. unfold names. rewrite E. reflexivity.
Qed.

Section Regions.
Context (env : Env).

Let base : string := base_url (config env).

Lemma key_in_mirrors seen regions (r : Region) :
  mirrors seen regions ->
  key_in region_url regions r = bool_decide (region_url r ∈ seen).
Proof.
  intros Hm. apply eq_true_iff_eq. rewrite bool_decide_eq_true, (Hm (region_url r)).
  unfold key_in. rewrite List.existsb_exists, List.in_map_iff.
  split; intros (x & H1 & H2); exists x.
  - apply same_key_eq in H2. auto.
  - split; [assumption | now apply same_key_eq].
Qed.

Lemma add_region_links_collect (links : list Tag) : forall regions seen,
  mirrors seen regions ->
  let '(regions1, seen1) := add_region_links env links regions seen in
  regions1 = collect region_url (List.map (link_region base) links) regions /\
  mirrors seen1 regions1.
Proof.
  induction links as [|link rest IH]; intros regions seen Hm; simpl.
  - auto.
  - rewrite (key_in_mirrors seen regions (link_region base link) Hm). simpl.
    fold base.
    destruct (decide (urljoin base (get_href link) ∈ seen)) as [Hin|Hout].
    + rewrite bool_decide_eq_true_2 by exact Hin. now apply IH.
    + rewrite bool_decide_eq_false_2 by exact Hout.
      apply (IH (regions ++ [link_region base link])).
      intros u. rewrite List.map_app, List.in_app_iff, elem_of_union,
        elem_of_singleton, <- (Hm u). simpl. intuition.
Qed.

Lemma regions_from_selectors_spec (soup : Soup) (selectors : list string) :
  forall seen, mirrors seen [] ->
  regions_from_selectors env soup selectors [] seen =
  first_by_key region_url
    (List.map (link_region base)
       (first_nonempty (List.map (select soup) selectors))).
Proof.
  rewrite <- (first_nonempty_map_nil
                (fun l => first_by_key region_url (List.map (link_region base) l))).
  2:{ intros l. rewrite first_by_key_nil. destruct l; simpl; split; congruence. }
  rewrite List.map_map.
  induction selectors as [|sel rest IH]; intros seen Hm; simpl; [reflexivity |].
  pose proof (add_region_links_collect (select soup sel) [] seen Hm) as H.
  destruct (add_region_links env (select soup sel) [] seen) as [regions1 seen1].
  destruct H as [-> Hm1]. rewrite collect_nil in *.
  destruct (first_by_key region_url (List.map (link_region base) (select soup sel)));
    [now apply IH | reflexivity].
Qed.

(** Region discovery, as the code has it: the selectors of
    [region_selectors] are tried in order and the first one that
    matches anything wins; its links are deduplicated by resolved URL,
    first occurrence first and in page order; a region is named by its
    link text, or else by what stands behind the last slash of the link
    target as the page writes it, with hyphens as spaces and in title
    case; and when the listing cannot be fetched or nothing matches,
    the result is the empty list. *)
Lemma extract_regions_spec (w : World) :
  let '(response, w1) := safe_request env (listing_url env) None w in
  match response with
  | None => extract_regions env w = (Ret [], w1)
  | Some r =>
      match BeautifulSoup (text r) with
      | Raise e => extract_regions env w = (Raise e, w1)
      | Ret soup =>
          let links := first_nonempty (List.map (select soup) region_selectors) in
          let regions := first_by_key region_url (List.map (link_region base) links) in
          extract_regions env w = (Ret regions, w1) /\
          List.NoDup (List.map region_url regions) /\
          (forall u, In u (List.map region_url regions) <->
                     In u (List.map (fun l => urljoin base (get_href l)) links)) /\
          (forall r', In r' regions -> exists l,
             In l links /\ region_url r' = urljoin base (get_href l) /\
             region_name r' =
               if truthy (get_text l) then get_text l
               else title (replace "-" " " (last_segment "/" (get_href l)))) /\
          (links = [] -> regions = [])
      end
  end.
Proof.
  unfold extract_regions, bind, safe_request_stmt.
  destruct (safe_request env (listing_url env) None w) as [[r|] w1]; [| reflexivity].
  unfold lift, ret. destruct (BeautifulSoup (text r)) as [soup|e]; [| reflexivity].
  set (links := first_nonempty (List.map (select soup) region_selectors)).
  split; [| split; [| split; [| split]]].
  - rewrite regions_from_selectors_spec; [reflexivity |].
    intros u. simpl. split; [| tauto]. apply not_elem_of_empty.
  - apply first_by_key_nodup.
  - intros u. rewrite first_by_key_keys, List.map_map. reflexivity.
  - intros r' Hr. apply first_by_key_in, List.in_map_iff in Hr as (l & <- & Hl).
    exists l. auto.
  - intros E. now rewrite E.
Qed.

End Regions.
End WithDom.

#[local] Existing Instance Demo.toy_dom.

Lemma extract_services_spec_witness :
  first_nonempty
    (List.map (fun sel => heading_texts (select (Dom := Demo.toy_dom) Demo.clinic_page sel))
              service_selectors)
  = ["Orthotics"; "Nail Care"; "Orthotics"] /\
  _extract_services (D := Demo.toy_dom) Demo.clinic_page = "Orthotics; Nail Care".
Proof.
  split; [reflexivity |].
  apply (extract_services_spec (D := Demo.toy_dom) Demo.clinic_page). reflexivity.
Defined.

(** On the demonstration site the third link repeats the first region
    and the second link has no text. *)
Example extract_regions_demo :
  fst (extract_regions Demo.healthy fresh) =
  Ret [ {| region_name := "North"; region_url := "http://site/regions/north" |};
        {| region_name := "South East";
           region_url := "http://site/regions/south-east" |} ].
Proof. vm_compute. reflexivity. Qed.

(** C4, where the code breaks it: the fall-back name is cut from the
    link target as the page writes it, behind its last slash, and not
    from the path of the URL.  With a fragment the name keeps the
    fragment, with a query that holds a slash the name is the end of
    the query, and with a slash at the end the name is empty; the last
    path segments of the three URLs are [north], [west] and
    [south-east]. *)
Theorem region_name_from_raw_href :
  fst (extract_regions DemoPages.bare_site fresh) =
  Ret [ {| region_name := "North#Top";
           region_url := "http://site/regions/north#top" |};
        {| region_name := "B";
           region_url := "http://site/regions/west?ref=a/b" |};
        {| region_name := "";
           region_url := "http://site/regions/south-east/" |} ].
Proof. vm_compute. reflexivity. Qed.

End DiscoveryFacts.

(** ** The extractor and the orchestrator *)

Module PipelineFacts.
Import Text Effects Scraper Traces Conditions FetcherFacts.
Local Open Scope list_scope.

Section Pipeline.
Context `{D : Dom} (env : Env).

(** *** Traces *)

Lemma written_app (a b : list Event) : written (a ++ b) = written a ++ written b.
Proof.
  induction a as [|e a IH]; simpl; [reflexivity |].
  destruct e; simpl; now rewrite ?IH.
Qed.

Lemma written_urls_app (a b : list Event) :
  written_urls (a ++ b) = written_urls a ++ written_urls b.
Proof. unfold written_urls. now rewrite written_app, List.map_app. Qed.

Lemma written_quiet (tr : list Event) :
  forallb quiet_event tr = true -> written tr = [].
Proof.
  induction tr as [|e tr IH]; simpl; [reflexivity |].
  intros [He Htr]%andb_prop. destruct e; try discriminate; auto.
Qed.

Lemma forallb_weaken (P Q : Event -> bool) (tr : list Event) :
  (forall e, P e = true -> Q e = true) ->
  forallb P tr = true -> forallb Q tr = true.
Proof.
  intros HPQ. rewrite !List.forallb_forall. auto.
Qed.

Lemma net_is_quiet e : net_event e = true -> quiet_event e = true.
Proof. destruct e; simpl; congruence. Qed.

Lemma quiet_is_loop e : quiet_event e = true -> loop_event e = true.
Proof. unfold loop_event. now intros ->. Qed.

Lemma grows_refl P w : grows_by P w w.
Proof. exists []. now rewrite List.app_nil_r. Qed.

Lemma grows_trans P w1 w2 w3 :
  grows_by P w1 w2 -> grows_by P w2 w3 -> grows_by P w1 w3.
Proof.
  intros (a & Ha & Pa) (b & Hb & Pb). exists (a ++ b).
  rewrite Hb, Ha, List.app_assoc, List.forallb_app, Pa, Pb. auto.
Qed.

Lemma grows_weaken (P Q : Event -> bool) w w' :
  (forall e, P e = true -> Q e = true) -> grows_by P w w' -> grows_by Q w w'.
Proof. intros HPQ (tr & E & Htr). exists tr. eauto using forallb_weaken. Qed.

Lemma grows_emit (P : Event -> bool) e w : P e = true -> grows_by P w (emit e w).
Proof. intros He. exists [e]. simpl. now rewrite He. Qed.

(** Quiet events leave the written records as they are. *)
Lemma grows_quiet_written w w' :
  grows_by quiet_event w w' -> written (events w') = written (events w).
Proof.
  intros (tr & -> & Htr). now rewrite written_app, (written_quiet tr Htr), List.app_nil_r.
Qed.

(** *** The statements, fetch by fetch *)

Lemma safe_request_grows url limit w :
  let '(r, w') := safe_request env url limit w in
  grows_by net_event w w' /\
  seen_clinic_urls w' = seen_clinic_urls w /\ rows w' = rows w.
Proof.
  pose proof (safe_request_frame env url limit w) as H.
  destruct (safe_request env url limit w) as [r w'].
  destruct H as (Hs & Hr & tr & He & Hn & _). repeat split; auto. now exists tr.
Qed.

Lemma extract_regions_frame w :
  let '(r, w') := extract_regions env w in
  grows_by net_event w w' /\
  seen_clinic_urls w' = seen_clinic_urls w /\ rows w' = rows w.
Proof.
  unfold extract_regions, bind, safe_request_stmt, lift, ret.
  pose proof (safe_request_grows (listing_url env) None w) as H.
  destruct (safe_request env (listing_url env) None w) as [[r|] w1]; [| exact H].
  destruct (BeautifulSoup (text r)); exact H.
Qed.

Lemma extract_clinics_frame url w :
  let '(r, w') := extract_clinics_from_region env url w in
  grows_by net_event w w' /\
  seen_clinic_urls w' = seen_clinic_urls w /\ rows w' = rows w.
Proof.
  unfold extract_clinics_from_region, bind, safe_request_stmt, lift, ret, get_world.
  pose proof (safe_request_grows url None w) as H.
  destruct (safe_request env url None w) as [[r|] w1]; [| exact H].
  destruct (BeautifulSoup (text r)); exact H.
Qed.

(** [extract_clinic_details], case by case. *)
Lemma extract_clinic_details_cases u w :
  extract_clinic_details env u w =
  if decide (u ∈ seen_clinic_urls w) then (Ret None, w)
  else
    let '(response, w1) := safe_request env u None w in
    match response with
    | None => (Ret None, w1)
    | Some r =>
        match BeautifulSoup (text r) with
        | Raise e => (Raise e, mark_seen u w1)
        | Ret soup =>
            match clinic_of_soup env soup u with
            | Ret clinic => (Ret (Some clinic), mark_seen u w1)
            | Raise _ => (Ret None, mark_seen u w1)
            end
        end
    end.
Proof.
  unfold extract_clinic_details, bind, get_world, safe_request_stmt, modify,
    lift, try_except, ret.
  destruct (decide (u ∈ seen_clinic_urls w)); [reflexivity |].
  destruct (safe_request env u None w) as [[r|] w1]; [| reflexivity].
  destruct (BeautifulSoup (text r)) as [soup|e]; [| reflexivity].
  destruct (clinic_of_soup env soup u); reflexivity.
Qed.

Lemma clinic_of_soup_url soup u clinic :
  clinic_of_soup env soup u = Ret clinic -> ClinicData.url clinic = u.
Proof.
  unfold clinic_of_soup.
  destruct (_extract_address env soup); [| discriminate].
  destruct (_extract_phone env soup); [| discriminate].
  destruct (_extract_email env soup); [| discriminate].
  now intros [= <-].
Qed.

(** A visited URL is skipped: no fetch, no change. *)
Lemma extract_clinic_details_skips u w :
  u ∈ seen_clinic_urls w -> extract_clinic_details env u w = (Ret None, w).
Proof.
  intros Hin. rewrite extract_clinic_details_cases.
  destruct (decide (u ∈ seen_clinic_urls w)); [reflexivity | contradiction].
Qed.

Lemma extract_clinic_details_frame u w :
  let '(r, w') := extract_clinic_details env u w in
  grows_by net_event w w' /\ rows w' = rows w /\
  (seen_clinic_urls w ⊆ seen_clinic_urls w') /\
  forall clinic, r = Ret (Some clinic) ->
    ClinicData.url clinic = u /\ (u ∉ seen_clinic_urls w) /\ (u ∈ seen_clinic_urls w').
Proof.
  rewrite extract_clinic_details_cases.
  destruct (decide (u ∈ seen_clinic_urls w)) as [Hin|Hout].
  { split; [apply grows_refl |]. do 2 (split; [reflexivity |]). discriminate. }
  pose proof (safe_request_grows u None w) as H.
  destruct (safe_request env u None w) as [[r|] w1]; destruct H as (Hg & Hs & Hr).
  2:{ split; [exact Hg |]. split; [exact Hr |]. split; [now rewrite Hs | discriminate]. }
  assert (Hsub : seen_clinic_urls w ⊆ seen_clinic_urls (mark_seen u w1)).
  { intros x Hx. simpl. apply elem_of_union_r. congruence. }
  assert (Hu : u ∈ seen_clinic_urls (mark_seen u w1)).
  { simpl. apply elem_of_union_l. now apply elem_of_singleton. }
  assert (Hgm : grows_by net_event w (mark_seen u w1)) by exact Hg.
  assert (Hrm : rows (mark_seen u w1) = rows w) by exact Hr.
  destruct (BeautifulSoup (text r)) as [soup|e].
  - destruct (clinic_of_soup env soup u) as [c|e] eqn:Ec;
      (split; [exact Hgm |]; split; [exact Hrm |]; split; [exact Hsub |]);
      [| discriminate].
    intros clinic [= <-]. apply clinic_of_soup_url in Ec. auto.
  - split; [exact Hgm |]. split; [exact Hrm |]. split; [exact Hsub | discriminate].
Qed.

(** *** The loops, step by step *)

Lemma scrape_clinics_cons region clinic rest total w :
  scrape_clinics env region (clinic :: rest) total w =
  match extract_clinic_details env (clinic_url clinic) (emit EDelay w) with
  | (Ret (Some d), w2) =>
      match write_error env (rows w2) with
      | Some e => (Raise e, w2)
      | None =>
          scrape_clinics env region rest (S total)
            (emit (EWriteRow (ClinicData.set_region (region_name region) d))
                  (count_row w2))
      end
  | (Ret None, w2) => scrape_clinics env region rest total w2
  | (Raise e, w2) => (Raise e, w2)
  end.
Proof.
  simpl. unfold bind, delay, modify, writerow.
  destruct (extract_clinic_details env (clinic_url clinic) (emit EDelay w))
    as [[[d|]|e] w2]; try reflexivity.
  destruct (write_error env (rows w2)); reflexivity.
Qed.

Lemma scrape_regions_cons region rest total w :
  scrape_regions env (region :: rest) total w =
  match extract_clinics_from_region env (region_url region) (emit EDelay w) with
  | (Ret clinics, w1) =>
      match scrape_clinics env region clinics total w1 with
      | (Ret total', w2) => scrape_regions env rest total' w2
      | (Raise e, w2) => (Raise e, w2)
      end
  | (Raise e, w1) => (Raise e, w1)
  end.
Proof.
  simpl. unfold bind, delay, modify.
  destruct (extract_clinics_from_region env (region_url region) (emit EDelay w))
    as [[clinics|e] w1]; reflexivity.
Qed.

Lemma consistent_quiet w w' :
  grows_by quiet_event w w' ->
  seen_clinic_urls w ⊆ seen_clinic_urls w' ->
  consistent w -> consistent w'.
Proof.
  intros Hg Hsub [Hnd Hin]. unfold consistent, written_urls.
  rewrite (grows_quiet_written w w' Hg). split; [exact Hnd |].
  intros u Hu. apply Hsub. now apply Hin.
Qed.

(** The clinic loop keeps the written records apart and the visited set
    growing, whatever way it ends. *)
Lemma scrape_clinics_inv region clinics : forall total w,
  consistent w ->
  let '(r, w') := scrape_clinics env region clinics total w in
  consistent w' /\ grows_by loop_event w w' /\
  (seen_clinic_urls w ⊆ seen_clinic_urls w').
Proof.
  induction clinics as [|clinic rest IH]; intros total w Hc.
  - simpl. split; [exact Hc |]. split; [apply grows_refl | reflexivity].
  - rewrite scrape_clinics_cons.
    assert (Hd : grows_by loop_event w (emit EDelay w)) by now apply grows_emit.
    assert (Hcd : consistent (emit EDelay w)).
    { apply (consistent_quiet w); auto. now apply grows_emit. }
    pose proof (extract_clinic_details_frame (clinic_url clinic) (emit EDelay w)) as H.
    destruct (extract_clinic_details env (clinic_url clinic) (emit EDelay w))
      as [r w2].
    destruct H as (Hg & Hrows & Hsub & Hrec).
    change (seen_clinic_urls (emit EDelay w)) with (seen_clinic_urls w) in Hsub.
    assert (Hq : grows_by quiet_event (emit EDelay w) w2)
      by (eapply grows_weaken; [apply net_is_quiet | exact Hg]).
    assert (Hc2 : consistent w2) by (apply (consistent_quiet (emit EDelay w)); auto).
    assert (Hl2 : grows_by loop_event w w2).
    { eapply grows_trans; [exact Hd |].
      eapply grows_weaken; [apply quiet_is_loop | exact Hq]. }
    assert (Hstop : consistent w2 /\ grows_by loop_event w w2 /\
                    (seen_clinic_urls w ⊆ seen_clinic_urls w2)) by auto.
    destruct r as [[d|]|e]; [| | exact Hstop].
    + destruct (write_error env (rows w2)); [exact Hstop |].
      destruct (Hrec d eq_refl) as (Hurl & Hnew & Hseen).
      set (w3 := emit (EWriteRow (ClinicData.set_region (region_name region) d))
                      (count_row w2)).
      assert (Hc3 : consistent w3).
      { destruct Hc2 as [Hnd Hin]. unfold consistent, w3. simpl.
        rewrite written_urls_app.
        change (written_urls [EWriteRow (ClinicData.set_region (region_name region) d)])
          with [ClinicData.url d].
        rewrite Hurl. split.
        - apply List.NoDup_app. repeat split; auto.
          + repeat constructor. simpl. tauto.
          + intros u Hu [<-|[]]. apply Hnew.
            destruct Hcd as [_ Hind]. apply Hind.
            unfold written_urls in *. now rewrite <- (grows_quiet_written _ _ Hq).
        - intros u [Hu|[<-|[]]]%List.in_app_iff; auto. }
      specialize (IH (S total) w3 Hc3).
      destruct (scrape_clinics env region rest (S total) w3) as [r' w'].
      destruct IH as (Hc' & Hg' & Hs'). split; [exact Hc' |]. split.
      * eapply grows_trans; [exact Hl2 |]. eapply grows_trans; [| exact Hg'].
        unfold w3. exists [EWriteRow (ClinicData.set_region (region_name region) d)].
        split; reflexivity.
      * etransitivity; [exact Hsub | exact Hs'].
    + specialize (IH total w2 Hc2).
      destruct (scrape_clinics env region rest total w2) as [r' w'].
      destruct IH as (Hc' & Hg' & Hs'). split; [exact Hc' |]. split.
      * eapply grows_trans; eassumption.
      * etransitivity; [exact Hsub | exact Hs'].
Qed.

Lemma scrape_regions_inv regions : forall total w,
  consistent w ->
  let '(r, w') := scrape_regions env regions total w in
  consistent w' /\ grows_by loop_event w w' /\
  (seen_clinic_urls w ⊆ seen_clinic_urls w').
Proof.
  induction regions as [|region rest IH]; intros total w Hc.
  - simpl. split; [exact Hc |]. split; [apply grows_refl | reflexivity].
  - rewrite scrape_regions_cons.
    assert (Hd : grows_by loop_event w (emit EDelay w)) by now apply grows_emit.
    assert (Hcd : consistent (emit EDelay w)).
    { apply (consistent_quiet w); auto. now apply grows_emit. }
    pose proof (extract_clinics_frame (region_url region) (emit EDelay w)) as H.
    destruct (extract_clinics_from_region env (region_url region) (emit EDelay w))
      as [r w1].
    destruct H as (Hg & Hs & Hrows).
    change (seen_clinic_urls (emit EDelay w)) with (seen_clinic_urls w) in Hs.
    assert (Hq : grows_by quiet_event (emit EDelay w) w1)
      by (eapply grows_weaken; [apply net_is_quiet | exact Hg]).
    assert (Hc1 : consistent w1).
    { apply (consistent_quiet (emit EDelay w)); auto. simpl. now rewrite Hs. }
    assert (Hl1 : grows_by loop_event w w1).
    { eapply grows_trans; [exact Hd |].
      eapply grows_weaken; [apply quiet_is_loop | exact Hq]. }
    assert (Hsub1 : seen_clinic_urls w ⊆ seen_clinic_urls w1) by now rewrite Hs.
    destruct r as [clinics|e]; [| auto].
    pose proof (scrape_clinics_inv region clinics total w1 Hc1) as H.
    destruct (scrape_clinics env region clinics total w1) as [r2 w2].
    destruct H as (Hc2 & Hg2 & Hs2).
    assert (Hl2 : grows_by loop_event w w2) by (eapply grows_trans; eassumption).
    assert (Hsub2 : seen_clinic_urls w ⊆ seen_clinic_urls w2)
      by (etransitivity; eassumption).
    destruct r2 as [total'|e]; [| auto].
    specialize (IH total' w2 Hc2).
    destruct (scrape_regions env rest total' w2) as [r' w'].
    destruct IH as (Hc' & Hg' & Hs'). split; [exact Hc' |]. split.
    + eapply grows_trans; eassumption.
    + etransitivity; eassumption.
Qed.

(** [scrape_all_clinics], case by case. *)
Lemma scrape_all_clinics_cases filename w :
  scrape_all_clinics env filename w =
  match extract_regions env w with
  | (Raise e, w1) => (Raise e, w1)
  | (Ret [], w1) => (Ret 0, w1)
  | (Ret (region :: more), w1) =>
      let sink := opt_str_or filename (output_file (config env)) in
      match open_error env sink with
      | Some e => (Raise e, w1)
      | None =>
          let opened := emit (EOpen sink) w1 in
          match write_error env (rows w1) with
          | Some e => (Raise e, opened)
          | None =>
              let '(r, w2) :=
                scrape_regions env (region :: more) 0
                  (emit (EWriteHeader fieldnames) (count_row opened)) in
              (r, emit EClose w2)
          end
      end
  end.
Proof.
  unfold scrape_all_clinics, bind, open_sink, writeheader, try_finally, ret.
  destruct (extract_regions env w) as [[[|region more]|e] w1]; try reflexivity.
  cbv zeta. destruct (open_error env _); [reflexivity |].
  simpl rows. destruct (write_error env (rows w1)); reflexivity.
Qed.

(** C10: when the page of a clinic is fetched and field extraction
    raises, [extract_clinic_details] returns [None] and leaves the URL
    in the visited set, so that every later encounter is skipped
    without a fetch; when the fetch fails the URL is not added, and a
    later encounter fetches again and can produce the record. *)
Theorem failed_extraction_stays_seen (u : string) (w : World) :
  u ∉ seen_clinic_urls w ->
  let '(response, w1) := safe_request env u None w in
  match response with
  | Some r =>
      forall soup e,
        BeautifulSoup (text r) = Ret soup ->
        clinic_of_soup env soup u = Raise e ->
        extract_clinic_details env u w = (Ret None, mark_seen u w1) /\
        (u ∈ seen_clinic_urls (mark_seen u w1)) /\
        forall w2, seen_clinic_urls (mark_seen u w1) ⊆ seen_clinic_urls w2 ->
                   extract_clinic_details env u w2 = (Ret None, w2)
  | None =>
      extract_clinic_details env u w = (Ret None, w1) /\
      (u ∉ seen_clinic_urls w1) /\
      forall w2 r2 w3 soup clinic,
        u ∉ seen_clinic_urls w2 ->
        safe_request env u None w2 = (Some r2, w3) ->
        BeautifulSoup (text r2) = Ret soup ->
        clinic_of_soup env soup u = Ret clinic ->
        extract_clinic_details env u w2 = (Ret (Some clinic), mark_seen u w3)
  end.
Proof.
  intros Hout.
  pose proof (extract_clinic_details_cases u w) as Hcases.
  pose proof (safe_request_grows u None w) as Hframe.
  destruct (decide (u ∈ seen_clinic_urls w)) as [|_]; [contradiction |].
  destruct (safe_request env u None w) as [[r|] w1].
  - intros soup e Hsoup Hraise. rewrite Hsoup, Hraise in Hcases.
    split; [exact Hcases |].
    assert (Hu : u ∈ seen_clinic_urls (mark_seen u w1)).
    { simpl. apply elem_of_union_l. now apply elem_of_singleton. }
    split; [exact Hu |].
    intros w2 Hsub. apply extract_clinic_details_skips. now apply Hsub.
  - destruct Hframe as (_ & Hs & _).
    split; [exact Hcases |]. split; [now rewrite Hs |].
    intros w2 r2 w3 soup clinic Hout2 Hget Hsoup Hok.
    rewrite extract_clinic_details_cases.
    destruct (decide (u ∈ seen_clinic_urls w2)); [contradiction |].
    now rewrite Hget, Hsoup, Hok.
Qed.

(** *** Where the written records come from *)

Lemma gets_loop_trace url m (l : list nat) : gets (loop_trace url m l) = length l.
Proof.
  induction l as [|i l IH]; [reflexivity |].
  rewrite (loop_trace_cons url m i l), gets_app, IH.
  unfold loop_trace. simpl. now destruct (Z.of_nat i <? m - 1)%Z.
Qed.

Lemma gets_net_free (tr : list Event) :
  forallb (fun e => negb (is_get e)) tr = true -> gets tr = 0.
Proof.
  unfold gets. induction tr as [|e tr IH]; simpl; [reflexivity |].
  intros [He Htr]%andb_prop. destruct (is_get e); [discriminate | auto].
Qed.

(** The requests that a call of [safe_request] counts are its GETs; a
    response that it returns is the answer to its last GET and has no
    error status. *)
Lemma safe_request_counts url limit w :
  let '(r, w') := safe_request env url limit w in
  exists tr,
    events w' = events w ++ tr /\ forallb net_event tr = true /\
    requests w' = requests w + gets tr /\
    forall resp, r = Some resp ->
      exists b, tr = b ++ [EGet url] /\
                http_get env (requests w + gets b) url = Responded resp /\
                raises_for_status resp = false.
Proof.
  unfold safe_request.
  set (m := int_or limit (max_retries (config env))).
  pose proof (safe_request_loop_spec env url m (range m) w) as H.
  destruct (safe_request_loop env url m (range m) w) as [r w'].
  destruct H as (_ & _ & k & _ & Hres).
  assert (Hnet : forall l, forallb net_event (loop_trace url m l) = true).
  { induction l as [|i l IHl]; [reflexivity |].
    unfold loop_trace in *. simpl.
    destruct (Z.of_nat i <? m - 1)%Z; simpl; exact IHl. }
  destruct r as [resp|].
  - destruct Hres as (Hk & Hreq & Hget & Hok & Hev).
    assert (Hg : gets (loop_trace url m (firstn k (range m))) = k).
    { rewrite gets_loop_trace, List.length_firstn. lia. }
    eexists. split; [exact Hev |]. split; [| split].
    + now rewrite List.forallb_app, Hnet.
    + rewrite gets_app, Hg. unfold gets at 1. simpl. lia.
    + intros resp' [= <-]. eexists. split; [reflexivity |]. now rewrite Hg.
  - destruct Hres as (-> & Hreq & Hev).
    eexists. split; [exact Hev |]. split; [apply Hnet |].
    split; [now rewrite gets_loop_trace | discriminate].
Qed.

Lemma extract_regions_counts w :
  let '(r, w') := extract_regions env w in
  exists tr, events w' = events w ++ tr /\ forallb net_event tr = true /\
             requests w' = requests w + gets tr.
Proof.
  unfold extract_regions, bind, safe_request_stmt, lift, ret.
  pose proof (safe_request_counts (listing_url env) None w) as H.
  destruct (safe_request env (listing_url env) None w) as [[r|] w1];
    destruct H as (tr & He & Hn & Hr & _);
    [destruct (BeautifulSoup (text r)) |]; exists tr; auto.
Qed.

Lemma extract_clinics_counts url w :
  let '(r, w') := extract_clinics_from_region env url w in
  exists tr, events w' = events w ++ tr /\ forallb net_event tr = true /\
             requests w' = requests w + gets tr.
Proof.
  unfold extract_clinics_from_region, bind, safe_request_stmt, lift, ret, get_world.
  pose proof (safe_request_counts url None w) as H.
  destruct (safe_request env url None w) as [[r|] w1];
    destruct H as (tr & He & Hn & Hr & _);
    [destruct (BeautifulSoup (text r)) |]; exists tr; auto.
Qed.

(** A record comes out of [extract_clinic_details] only behind a GET of
    its URL that was answered without an error status, and it is built
    from the page of that answer. *)
Lemma extract_clinic_details_counts u w :
  let '(r, w') := extract_clinic_details env u w in
  exists tr,
    events w' = events w ++ tr /\ forallb net_event tr = true /\
    requests w' = requests w + gets tr /\
    forall clinic, r = Ret (Some clinic) ->
      exists b resp soup,
        tr = b ++ [EGet u] /\
        http_get env (requests w + gets b) u = Responded resp /\
        raises_for_status resp = false /\
        BeautifulSoup (text resp) = Ret soup /\
        clinic_of_soup env soup u = Ret clinic.
Proof.
  rewrite extract_clinic_details_cases.
  destruct (decide (u ∈ seen_clinic_urls w)).
  { exists []. rewrite List.app_nil_r. repeat split; auto. discriminate. }
  pose proof (safe_request_counts u None w) as H.
  destruct (safe_request env u None w) as [[r|] w1];
    destruct H as (tr & He & Hn & Hr & Hsome).
  2:{ exists tr. repeat split; auto. discriminate. }
  destruct (Hsome r eq_refl) as (b & Hb & Hget & Hok).
  destruct (BeautifulSoup (text r)) as [soup|e] eqn:Hsoup.
  - destruct (clinic_of_soup env soup u) as [c|e] eqn:Hc;
      exists tr; (split; [exact He |]); (split; [exact Hn |]);
      (split; [exact Hr |]); [| discriminate].
    intros clinic [= <-]. exists b, r, soup. auto.
  - exists tr. repeat split; auto. discriminate.
Qed.

Lemma clinic_of_soup_unstamped soup u clinic (name : string) :
  clinic_of_soup env soup u = Ret clinic ->
  ClinicData.set_region "" (ClinicData.set_region name clinic) = clinic.
Proof.
  unfold clinic_of_soup.
  destruct (_extract_address env soup); [| discriminate].
  destruct (_extract_phone env soup); [| discriminate].
  destruct (_extract_email env soup); [| discriminate].
  now intros [= <-].
Qed.

Lemma fetched_row_app k0 (tr tr' : list Event) d :
  fetched_row env k0 tr d -> fetched_row env k0 (tr ++ tr') d.
Proof.
  intros (before & after & resp & soup & -> & H).
  exists before, (after ++ tr'), resp, soup. split; [| exact H].
  now rewrite <- List.app_assoc.
Qed.

(** Events that are neither requests nor rows leave the records and
    their sources as they are. *)
Lemma sourced_quiet k0 regions w w' (tr : list Event) :
  events w' = events w ++ tr -> written tr = [] ->
  requests w' = requests w + gets tr ->
  sourced env k0 regions w -> sourced env k0 regions w'.
Proof.
  intros He Hq Hr [Hreq Hrows]. split.
  - rewrite Hr, Hreq, He, gets_app. lia.
  - intros d. rewrite He, written_app, Hq, List.app_nil_r.
    intros Hd. destruct (Hrows d Hd) as [Hf Hreg].
    split; [now apply fetched_row_app | exact Hreg].
Qed.

Lemma sourced_emit k0 regions e w :
  is_row e = false -> is_get e = false ->
  sourced env k0 regions w -> sourced env k0 regions (emit e w).
Proof.
  intros Hq Hg. apply (sourced_quiet _ _ _ _ [e]); simpl.
  - reflexivity.
  - destruct e; try reflexivity. discriminate.
  - unfold gets. simpl. rewrite Hg. simpl. lia.
Qed.

Lemma sourced_regions k0 (rs regions : list Region) w :
  (forall region, In region rs -> In region regions) ->
  sourced env k0 rs w -> sourced env k0 regions w.
Proof.
  intros Hsub [Hreq Hrows]. split; [exact Hreq |].
  intros d Hd. destruct (Hrows d Hd) as [Hf (region & Hin & Hreg)].
  split; [exact Hf |]. exists region. auto.
Qed.

(** The clinic loop writes only records that it has just fetched. *)
Lemma scrape_clinics_sourced k0 regions region clinics :
  In region regions ->
  forall total w,
    sourced env k0 regions w ->
    let '(r, w') := scrape_clinics env region clinics total w in
    sourced env k0 regions w'.
Proof.
  intros Hregion.
  induction clinics as [|clinic rest IH]; intros total w Hw; [exact Hw |].
  rewrite scrape_clinics_cons.
  assert (Hd : sourced env k0 regions (emit EDelay w))
    by now apply sourced_emit.
  pose proof (extract_clinic_details_counts (clinic_url clinic) (emit EDelay w)) as H.
  destruct (extract_clinic_details env (clinic_url clinic) (emit EDelay w))
    as [r w2].
  destruct H as (tr & He & Hn & Hr & Hsome).
  assert (H2 : sourced env k0 regions w2).
  { apply (sourced_quiet _ _ (emit EDelay w) _ tr); auto.
    apply written_quiet.
    eapply forallb_weaken; [apply net_is_quiet | exact Hn]. }
  destruct r as [[d|]|e]; [| now apply IH | exact H2].
  destruct (write_error env (rows w2)); [exact H2 |].
  apply IH.
  destruct (Hsome d eq_refl) as (b & resp & soup & -> & Hget & Hok & Hsoup & Hc).
  destruct Hd as [Hreqd _]. destruct H2 as [Hreq2 Hrows2].
  set (d' := ClinicData.set_region (region_name region) d).
  assert (Hu : ClinicData.url d' = clinic_url clinic)
    by (simpl; now apply (clinic_of_soup_url _ _ _ Hc)).
  split.
  - simpl. rewrite gets_app, Hreq2. unfold gets at 3. simpl. lia.
  - simpl. rewrite written_app. simpl. intros x [Hx|[<-|[]]]%List.in_app_iff.
    + destruct (Hrows2 x Hx) as [Hf Hreg].
      split; [now apply fetched_row_app | exact Hreg].
    + split; [| exists region; split; [exact Hregion | reflexivity]].
      exists (events (emit EDelay w) ++ b), [], resp, soup.
      rewrite Hu. split; [| split; [| split; [| split]]]; auto.
      * rewrite He. now rewrite <- !List.app_assoc.
      * rewrite gets_app, Nat.add_assoc, <- Hreqd. exact Hget.
      * unfold d'. now rewrite (clinic_of_soup_unstamped _ _ _ _ Hc).
Qed.

Lemma scrape_regions_sourced k0 regions (rs : list Region) :
  (forall region, In region rs -> In region regions) ->
  forall total w,
    sourced env k0 regions w ->
    let '(r, w') := scrape_regions env rs total w in
    sourced env k0 regions w'.
Proof.
  induction rs as [|region rest IH]; intros Hsub total w Hw; [exact Hw |].
  rewrite scrape_regions_cons.
  assert (Hd : sourced env k0 regions (emit EDelay w))
    by now apply sourced_emit.
  pose proof (extract_clinics_counts (region_url region) (emit EDelay w)) as H.
  destruct (extract_clinics_from_region env (region_url region) (emit EDelay w))
    as [r w1].
  destruct H as (tr & He & Hn & Hr).
  assert (H1 : sourced env k0 regions w1).
  { apply (sourced_quiet _ _ (emit EDelay w) _ tr); auto.
    apply written_quiet.
    eapply forallb_weaken; [apply net_is_quiet | exact Hn]. }
  destruct r as [clinics|e]; [| exact H1].
  pose proof (scrape_clinics_sourced k0 regions region clinics
                (Hsub region (or_introl eq_refl)) total w1 H1) as H2.
  destruct (scrape_clinics env region clinics total w1) as [[total'|e] w2];
    [| exact H2].
  apply IH; [| exact H2]. intros x Hx. apply Hsub. now right.
Qed.

(** Every record that a run writes comes from a page fetched in the
    run and carries the name of a discovered region. *)
Lemma run_sourced (filename : option string) (k : nat) (seen : gset string) :
  let '(found, w1) := extract_regions env (at_start k seen) in
  let '(r, w) := scrape_all_clinics env filename (at_start k seen) in
  match found with
  | Ret regions => sourced env k regions w
  | Raise _ => written (events w) = []
  end.
Proof.
  rewrite scrape_all_clinics_cases.
  pose proof (extract_regions_counts (at_start k seen)) as H.
  destruct (extract_regions env (at_start k seen)) as [found w1].
  destruct H as (tr & He & Hn & Hr). simpl in He, Hr.
  assert (Hq : forallb quiet_event tr = true)
    by (eapply forallb_weaken; [apply net_is_quiet | exact Hn]).
  assert (H1 : forall regions, sourced env k regions w1).
  { intros regions. split; [now rewrite Hr, He |].
    intros d. rewrite He, (written_quiet tr Hq). contradiction. }
  destruct found as [[|region more]|e]; [apply H1 | | now rewrite He, written_quiet].
  cbv zeta. destruct (open_error env _); [apply H1 |].
  set (opened := emit (EOpen (opt_str_or filename (output_file (config env)))) w1).
  assert (Ho : sourced env k (region :: more) opened)
    by (apply sourced_emit; auto).
  destruct (write_error env (rows w1)); [exact Ho |].
  match goal with
  | |- context [scrape_regions env ?rs 0 ?w0] =>
      pose proof (scrape_regions_sourced k rs rs (fun _ H => H) 0 w0) as H;
      destruct (scrape_regions env rs 0 w0) as [r2 w2]
  end.
  apply sourced_emit; auto. apply H.
  apply (sourced_quiet _ _ opened _ [EWriteHeader fieldnames]); auto.
Qed.

(** C1, as the code has it: the records written by a run have pairwise
    different source URLs, all of them visited, and the visited set only
    grows; the row of every written record comes directly after a GET
    of its URL that the web answered without an error status.
    [extract_clinic_details] returns [None] without a fetch for a
    visited URL; it returns a record exactly when the URL is not
    visited, [safe_request] returns a response (the answer, without an
    error status, to the last GET of the call), the page is parsed and
    the fields are extracted; it then marks the URL visited, so every
    later encounter returns [None] without a fetch. *)
Theorem one_record_per_url (filename : option string) (k : nat) (seen : gset string) :
  let '(r, w) := scrape_all_clinics env filename (at_start k seen) in
  List.NoDup (written_urls (events w)) /\
  (forall u, In u (written_urls (events w)) -> u ∈ seen_clinic_urls w) /\
  (seen ⊆ seen_clinic_urls w) /\
  (forall d, In d (written (events w)) ->
     exists before after resp,
       events w = before ++ EGet (ClinicData.url d) :: EWriteRow d :: after /\
       http_get env (k + gets before) (ClinicData.url d) = Responded resp /\
       raises_for_status resp = false) /\
  (forall u w0,
     (u ∈ seen_clinic_urls w0 -> extract_clinic_details env u w0 = (Ret None, w0)) /\
     let '(response, w1) := safe_request env u None w0 in
     (forall resp, response = Some resp ->
        exists b, events w1 = events w0 ++ b ++ [EGet u] /\
                  http_get env (requests w0 + gets b) u = Responded resp /\
                  raises_for_status resp = false) /\
     forall clinic w2,
       extract_clinic_details env u w0 = (Ret (Some clinic), w2) <->
       (u ∉ seen_clinic_urls w0) /\ w2 = mark_seen u w1 /\
       exists resp soup,
         response = Some resp /\ BeautifulSoup (text resp) = Ret soup /\
         clinic_of_soup env soup u = Ret clinic) /\
  forall u w0 clinic w1,
    extract_clinic_details env u w0 = (Ret (Some clinic), w1) ->
    ClinicData.url clinic = u /\
    (u ∉ seen_clinic_urls w0) /\ (u ∈ seen_clinic_urls w1) /\
    forall w2, seen_clinic_urls w1 ⊆ seen_clinic_urls w2 ->
               extract_clinic_details env u w2 = (Ret None, w2).
Proof.
  assert (Hcall : forall u w0 clinic w1,
    extract_clinic_details env u w0 = (Ret (Some clinic), w1) ->
    ClinicData.url clinic = u /\
    (u ∉ seen_clinic_urls w0) /\ (u ∈ seen_clinic_urls w1) /\
    forall w2, seen_clinic_urls w1 ⊆ seen_clinic_urls w2 ->
               extract_clinic_details env u w2 = (Ret None, w2)).
  { intros u w0 clinic w1 E.
    pose proof (extract_clinic_details_frame u w0) as H. rewrite E in H.
    destruct H as (_ & _ & _ & H). destruct (H clinic eq_refl) as (Hu & Hnew & Hin).
    repeat (split; [assumption |]).
    intros w2 Hsub. apply extract_clinic_details_skips. now apply Hsub. }
  assert (Hiff : forall u w0,
    (u ∈ seen_clinic_urls w0 -> extract_clinic_details env u w0 = (Ret None, w0)) /\
    let '(response, w1) := safe_request env u None w0 in
    (forall resp, response = Some resp ->
       exists b, events w1 = events w0 ++ b ++ [EGet u] /\
                 http_get env (requests w0 + gets b) u = Responded resp /\
                 raises_for_status resp = false) /\
    forall clinic w2,
      extract_clinic_details env u w0 = (Ret (Some clinic), w2) <->
      (u ∉ seen_clinic_urls w0) /\ w2 = mark_seen u w1 /\
      exists resp soup,
        response = Some resp /\ BeautifulSoup (text resp) = Ret soup /\
        clinic_of_soup env soup u = Ret clinic).
  { intros u w0. split; [apply extract_clinic_details_skips |].
    rewrite extract_clinic_details_cases.
    pose proof (safe_request_counts u None w0) as H.
    destruct (safe_request env u None w0) as [response w1].
    destruct H as (tr & He & _ & _ & Hsome). split.
    - intros resp Hresp. destruct (Hsome resp Hresp) as (b & -> & Hget & Hok).
      exists b. auto.
    - intros clinic w2.
      destruct (decide (u ∈ seen_clinic_urls w0)) as [Hin|Hout].
      { split; [discriminate | tauto]. }
      destruct response as [resp|].
      2:{ split; [discriminate |]. intros (_ & _ & resp & soup & [=] & _). }
      destruct (BeautifulSoup (text resp)) as [soup|e] eqn:Hsoup.
      2:{ split; [discriminate |]. intros (_ & _ & resp' & soup & [= <-] & [=] & _).
          congruence. }
      destruct (clinic_of_soup env soup u) as [c|e] eqn:Hc.
      + split.
        * intros [= <- <-]. repeat split; auto. now exists resp, soup.
        * intros (_ & -> & resp' & soup' & [= <-] & Hs & Hc').
          rewrite Hsoup in Hs. injection Hs as <-. rewrite Hc in Hc'.
          now injection Hc' as <-.
      + split; [discriminate |].
        intros (_ & _ & resp' & soup' & [= <-] & Hs & Hc').
        rewrite Hsoup in Hs. injection Hs as <-. rewrite Hc in Hc'. discriminate. }
  assert (Hrun : let '(r, w) := scrape_all_clinics env filename (at_start k seen) in
                 consistent w /\ (seen ⊆ seen_clinic_urls w)).
  { rewrite scrape_all_clinics_cases.
    pose proof (extract_regions_frame (at_start k seen)) as H.
    destruct (extract_regions env (at_start k seen)) as [r w1].
    destruct H as (Hg & Hs & _). simpl in Hs.
    assert (Hw1 : written (events w1) = []).
    { rewrite (grows_quiet_written (at_start k seen) w1); [reflexivity |].
      eapply grows_weaken; [apply net_is_quiet | exact Hg]. }
    assert (Hc1 : consistent w1 /\ (seen ⊆ seen_clinic_urls w1)).
    { unfold consistent, written_urls. rewrite Hw1, Hs. simpl.
      split; [split; [constructor | tauto] | reflexivity]. }
    destruct r as [[|region more]|e]; try exact Hc1.
    cbv zeta. destruct (open_error env _); [exact Hc1 |].
    destruct (write_error env (rows w1)).
    { unfold consistent, written_urls. simpl. rewrite written_app, Hw1, Hs. simpl.
      split; [split; [constructor | tauto] | reflexivity]. }
    match goal with
    | |- context [scrape_regions env ?rs 0 ?w0] =>
        pose proof (scrape_regions_inv rs 0 w0) as H;
        destruct (scrape_regions env rs 0 w0) as [r2 w2]
    end.
    destruct H as ([Hnd Hin] & _ & Hsub).
    { unfold consistent, written_urls. simpl. rewrite !written_app, Hw1. simpl.
      split; [constructor | tauto]. }
    simpl in Hsub. rewrite Hs in Hsub.
    unfold consistent, written_urls in *. simpl.
    rewrite written_app. simpl. rewrite List.app_nil_r. auto. }
  pose proof (run_sourced filename k seen) as Hsrc.
  destruct (extract_regions env (at_start k seen)) as [found w1].
  destruct (scrape_all_clinics env filename (at_start k seen)) as [r w].
  destruct Hrun as [[Hnd Hin] Hsub].
  repeat (split; [assumption |]). split; [| split; assumption].
  intros d Hd. destruct found as [regions|e]; [| rewrite Hsrc in Hd; contradiction].
  destruct Hsrc as [_ Hrows].
  destruct (Hrows d Hd) as [(before & after & resp & soup & He & Hget & Hok & _) _].
  exists before, after, resp. auto.
Qed.

Lemma forallb_in (P : Event -> bool) (tr : list Event) (e : Event) :
  forallb P tr = true -> In e tr -> P e = true.
Proof. rewrite List.forallb_forall. auto. Qed.

(** The trace of a run, by what region discovery gave. *)
Lemma run_shape (filename : option string) (k : nat) (seen : gset string) :
  let '(found, w1) := extract_regions env (at_start k seen) in
  let '(r, w) := scrape_all_clinics env filename (at_start k seen) in
  forallb net_event (events w1) = true /\
  match found with
  | Ret (_ :: _) =>
      let sink := opt_str_or filename (output_file (config env)) in
      match open_error env sink with
      | Some e => r = Raise e /\ w = w1
      | None =>
          match write_error env 0 with
          | None =>
              exists body,
                events w =
                  events w1 ++ [EOpen sink; EWriteHeader fieldnames] ++ body ++ [EClose] /\
                forallb loop_event body = true
          | Some e => r = Raise e /\ events w = events w1 ++ [EOpen sink]
          end
      end
  | Ret [] => r = Ret 0 /\ w = w1
  | Raise e => r = Raise e /\ w = w1
  end.
Proof.
  rewrite scrape_all_clinics_cases.
  pose proof (extract_regions_frame (at_start k seen)) as H.
  destruct (extract_regions env (at_start k seen)) as [found w1].
  destruct H as ((tr & Hev & Hnet) & _ & Hrows). simpl in Hev, Hrows.
  destruct found as [[|region more]|e].
  - split; [now rewrite Hev | auto].
  - cbv zeta. rewrite Hrows.
    destruct (open_error env _); [split; [now rewrite Hev | auto] |].
    destruct (write_error env 0) as [e|].
    + split; [now rewrite Hev | auto].
    + match goal with
      | |- context [scrape_regions env ?rs 0 ?w0] =>
          pose proof (scrape_regions_inv rs 0 w0) as H;
          destruct (scrape_regions env rs 0 w0) as [r2 w2]
      end.
      split; [now rewrite Hev |].
      destruct H as (_ & (body & Hbody & Hloop) & _).
      { unfold consistent, written_urls. simpl.
        rewrite !written_app, Hev, (written_quiet tr) by
          (eapply forallb_weaken; [apply net_is_quiet | exact Hnet]).
        simpl. split; [constructor | tauto]. }
      exists body. split; [| exact Hloop]. simpl. rewrite Hbody. simpl.
      now rewrite <- !List.app_assoc.
  - split; [now rewrite Hev | auto].
Qed.

(** C6, as the code has it: the header is the six field names in the
    fixed order.  A run that discovers no region returns 0 and never
    opens the sink.  A run that discovers at least one region opens the
    sink right after discovery; when that raises, the exception leaves
    the run and nothing is opened or written; otherwise the header is
    written at once: when that raises, the exception leaves the run and
    no row is written; otherwise the header is the first thing written
    and everything after it, up to the closing of the sink, is a
    request, a pause or a data row, also when no clinic is found. *)
Theorem header_first_when_regions (filename : option string) (k : nat)
    (seen : gset string) :
  csv_line fieldnames = "Region,Clinic_Name,Address,Phone,Email,Services" /\
  let '(found, w1) := extract_regions env (at_start k seen) in
  let '(r, w) := scrape_all_clinics env filename (at_start k seen) in
  forallb net_event (events w1) = true /\
  match found with
  | Ret (_ :: _) =>
      let sink := opt_str_or filename (output_file (config env)) in
      match open_error env sink with
      | Some e => r = Raise e /\ w = w1
      | None =>
          match write_error env 0 with
          | None =>
              exists body,
                events w =
                  events w1 ++ [EOpen sink; EWriteHeader fieldnames] ++ body ++ [EClose] /\
                forallb loop_event body = true
          | Some e => r = Raise e /\ events w = events w1 ++ [EOpen sink]
          end
      end
  | Ret [] => r = Ret 0 /\ w = w1
  | Raise e => r = Raise e /\ w = w1
  end.
Proof.
  split; [reflexivity |].
  pose proof (run_shape filename k seen) as H.
  destruct (extract_regions env (at_start k seen)) as [found w1].
  destruct (scrape_all_clinics env filename (at_start k seen)) as [r w].
  exact H.
Qed.

(** Inside the guarded block the sink is always closed: in a run that
    opened the sink and wrote the header, the last event is the closing
    of the sink, whether the loops over regions and clinics completed,
    or discovery, extraction or the writing of a data row raised. *)
Lemma sink_closed_on_every_exit (filename : option string) (k : nat)
    (seen : gset string) :
  write_error env 0 = None ->
  let '(r, w) := scrape_all_clinics env filename (at_start k seen) in
  forall f, In (EOpen f) (events w) ->
  exists before body,
    events w = before ++ [EOpen f; EWriteHeader fieldnames] ++ body ++ [EClose] /\
    forallb net_event before = true /\ forallb loop_event body = true.
Proof.
  intros Hheader.
  pose proof (run_shape filename k seen) as H.
  destruct (extract_regions env (at_start k seen)) as [found w1].
  destruct (scrape_all_clinics env filename (at_start k seen)) as [r w].
  destruct H as [Hnet H]. intros f Hin.
  assert (Hquiet : In (EOpen f) (events w1) -> False).
  { intros Hin1. now apply (forallb_in _ _ _ Hnet) in Hin1. }
  destruct found as [[|region more]|e].
  - destruct H as [_ ->]. contradiction.
  - cbv zeta in H. destruct (open_error env _).
    { destruct H as [_ ->]. contradiction. }
    rewrite Hheader in H. destruct H as (body & Hev & Hloop).
    rewrite Hev in Hin |- *.
    apply List.in_app_iff in Hin as [Hin|Hin]; [contradiction |].
    simpl in Hin. destruct Hin as [Hin|[Hin|Hin]]; [| discriminate |].
    + injection Hin as <-. exists (events w1), body. auto.
    + apply List.in_app_iff in Hin as [Hin|[Hin|[]]]; [| discriminate].
      now apply (forallb_in _ _ _ Hloop) in Hin.
  - destruct H as [_ ->]. contradiction.
Qed.

(** A failing header write, in general: the sink is opened, the
    exception leaves the run, and the sink is never closed. *)
Lemma header_failure_general (filename : option string) (k : nat)
    (seen : gset string) (e : exn) :
  let sink := opt_str_or filename (output_file (config env)) in
  open_error env sink = None ->
  write_error env 0 = Some e ->
  let '(found, w1) := extract_regions env (at_start k seen) in
  let '(r, w) := scrape_all_clinics env filename (at_start k seen) in
  forall region more, found = Ret (region :: more) ->
    r = Raise e /\ In (EOpen sink) (events w) /\ ~ In EClose (events w).
Proof.
  intros sink Hopen Hheader.
  pose proof (run_shape filename k seen) as H.
  destruct (extract_regions env (at_start k seen)) as [found w1].
  destruct (scrape_all_clinics env filename (at_start k seen)) as [r w].
  destruct H as [Hnet H]. intros region more ->.
  cbv zeta in H. fold sink in H. rewrite Hopen, Hheader in H.
  destruct H as [-> Hev]. split; [reflexivity |]. rewrite Hev. split.
  - apply List.in_app_iff. right. now left.
  - intros [Hin|[Hin|[]]]%List.in_app_iff; [| discriminate].
    now apply (forallb_in _ _ _ Hnet) in Hin.
Qed.

(** The values of a written row, in the order of the header. *)
Lemma row_values (d : ClinicData.t) :
  csv_values (ClinicData.to_dict d) =
  [ ClinicData.region d; ClinicData.name d; ClinicData.address d;
    ClinicData.phone d; ClinicData.email d; ClinicData.services d ].
Proof. reflexivity. Qed.

End Pipeline.

(** *** Runs on the demonstration site *)

Section Runs.
#[local] Existing Instance Demo.toy_dom.

Lemma in_let {A B : Type} (x : A * B) (P : A -> B -> Prop) :
  (let '(a, b) := x in P a b) -> P (fst x) (snd x).
Proof. now destruct x. Qed.

(** C1, refuted as stated.  On the flaky site the discovery results of
    both regions hold the clinics alpha and beta (the discoveries are
    the second and the ninth request of the run, with nothing visited
    yet).  The first encounter of alpha, under North,
    ends in three failed fetches and no record; the record of alpha is
    produced at the later encounter, under South East.  No record of
    beta is produced at all. *)
Lemma first_encounter_record_refuted :
  let '(r, w) := scrape_all_clinics Demo.flaky None fresh in
  let both :=
    Ret [ {| clinic_name := "Alpha"; clinic_url := Demo.alpha |};
          {| clinic_name := "Beta"; clinic_url := Demo.beta |} ] in
  fst (extract_clinics_from_region Demo.flaky "http://site/regions/north"
         (at_start 1 ∅)) = both /\
  fst (extract_clinics_from_region Demo.flaky "http://site/regions/south-east"
         (at_start 8 ∅)) = both /\
  r = Ret 1 /\
  events w =
  [ EGet "http://site/our-clinics/"; EOpen "clinics.csv"; EWriteHeader fieldnames;
    EDelay; EGet "http://site/regions/north";
    EDelay; EGet Demo.alpha; ESleep 1; EGet Demo.alpha; ESleep 2; EGet Demo.alpha;
    EDelay; EGet Demo.beta; ESleep 1; EGet Demo.beta; ESleep 2; EGet Demo.beta;
    EDelay; EGet "http://site/regions/south-east";
    EDelay; EGet Demo.alpha;
    EWriteRow
      {| ClinicData.name := "My FootDr";
         ClinicData.address := "1 Main St";
         ClinicData.phone := "(07) 1234 5678";
         ClinicData.email := "alpha@site.com";
         ClinicData.services := "Orthotics; Nail Care";
         ClinicData.url := Demo.alpha;
         ClinicData.region := "South East" |};
    EDelay; EGet Demo.beta; ESleep 1; EGet Demo.beta; ESleep 2; EGet Demo.beta;
    EClose ] /\
  List.map (fun d => (ClinicData.url d, ClinicData.region d)) (written (events w)) =
  [ (Demo.alpha, "South East") ] /\
  ~ In Demo.beta (written_urls (events w)).
Proof.
  vm_compute. repeat split. intros [H|[]]. discriminate.
Qed.

(** On the flaky site the one written row comes directly after the GET
    of alpha that was answered. *)
Lemma one_record_per_url_witness :
  written_urls (events (snd (scrape_all_clinics Demo.flaky None fresh))) = [Demo.alpha] /\
  List.Forall
    (fun d =>
       exists before after resp,
         events (snd (scrape_all_clinics Demo.flaky None fresh)) =
           before ++ EGet (ClinicData.url d) :: EWriteRow d :: after /\
         http_get Demo.flaky (0 + gets before) (ClinicData.url d) = Responded resp /\
         raises_for_status resp = false)
    (written (events (snd (scrape_all_clinics Demo.flaky None fresh)))).
Proof.
  split; [vm_compute; reflexivity |].
  apply List.Forall_forall.
  exact (proj1 (proj2 (proj2 (proj2
           (in_let _ _ (one_record_per_url Demo.flaky None 0 ∅)))))).
Defined.

(** C6, refuted as stated: when the listing cannot be fetched no region
    is discovered, and the run ends without opening the sink or writing
    the header. *)
Lemma no_regions_no_header :
  let '(r, w) := scrape_all_clinics Demo.offline None fresh in
  fst (extract_regions Demo.offline fresh) = Ret [] /\
  r = Ret 0 /\
  events w =
  [ EGet "http://site/our-clinics/"; ESleep 1;
    EGet "http://site/our-clinics/"; ESleep 2;
    EGet "http://site/our-clinics/" ] /\
  ~ In (EOpen "clinics.csv") (events w) /\
  ~ In (EWriteHeader fieldnames) (events w).
Proof.
  vm_compute. repeat split; intros H; decompose [or] H; try discriminate; assumption.
Qed.

(** C7, where the code breaks it: [writer.writeheader()] stands between
    [open] and [try].  On the site whose first write fails, discovery
    finds two regions, the sink is opened, the header write raises, and
    the exception leaves [scrape_all_clinics] with the sink opened and
    never closed. *)
Theorem header_failure_leaves_sink_open :
  fst (extract_regions Demo.disk_full fresh) =
    Ret [ {| region_name := "North"; region_url := "http://site/regions/north" |};
          {| region_name := "South East";
             region_url := "http://site/regions/south-east" |} ] /\
  open_error Demo.disk_full "clinics.csv" = None /\
  scrape_all_clinics Demo.disk_full None fresh =
  (Raise (Exception "disk full"),
   {| requests := 1; rows := 0;
      events := [EGet "http://site/our-clinics/"; EOpen "clinics.csv"];
      seen_clinic_urls := ∅ |}) /\
  In (EOpen "clinics.csv") (events (snd (scrape_all_clinics Demo.disk_full None fresh))) /\
  ~ In EClose (events (snd (scrape_all_clinics Demo.disk_full None fresh))).
Proof.
  vm_compute. repeat split; auto.
  intros H; decompose [or] H; try discriminate; assumption.
Qed.

(** When the sink cannot be opened the exception leaves the run after
    discovery, and nothing is opened or written. *)
Example open_failure_writes_nothing :
  scrape_all_clinics Demo.read_only None fresh =
  (Raise (Exception "permission denied"),
   {| requests := 1; rows := 0;
      events := [EGet "http://site/our-clinics/"];
      seen_clinic_urls := ∅ |}).
Proof. vm_compute. reflexivity. Qed.

(** On the healthy site the header is the first thing written. *)
Lemma header_first_when_regions_witness :
  exists body,
    events (snd (scrape_all_clinics Demo.healthy None fresh)) =
    [EGet "http://site/our-clinics/"] ++
    [EOpen "clinics.csv"; EWriteHeader fieldnames] ++ body ++ [EClose] /\
    forallb loop_event body = true.
Proof.
  pose proof (proj2 (header_first_when_regions Demo.healthy None 0 ∅)) as H.
  change fresh with (at_start 0 ∅).
  destruct (extract_regions Demo.healthy (at_start 0 ∅)) as [found w1] eqn:E.
  vm_compute in E. injection E as <- <-.
  destruct (scrape_all_clinics Demo.healthy None (at_start 0 ∅)) as [r w].
  destruct H as [_ H]. vm_compute in H. exact H.
Defined.

(** On the garbled site the page of beta cannot be parsed; the
    exception leaves [scrape_all_clinics] after the sink is closed. *)
Lemma sink_closed_on_every_exit_demo :
  write_error Demo.garbled 0 = None /\
  fst (scrape_all_clinics Demo.garbled None fresh) = Raise (Exception "markup rejected") /\
  exists before body,
    events (snd (scrape_all_clinics Demo.garbled None fresh)) =
    before ++ [EOpen "clinics.csv"; EWriteHeader fieldnames] ++ body ++ [EClose] /\
    forallb net_event before = true /\ forallb loop_event body = true.
Proof.
  split; [reflexivity |]. split; [vm_compute; reflexivity |].
  apply (in_let _ _ (sink_closed_on_every_exit Demo.garbled None 0 ∅ eq_refl)).
  vm_compute. right. left. reflexivity.
Defined.

(** On the phoneless site the page of alpha is fetched and phone
    extraction raises. *)
Lemma failed_extraction_stays_seen_witness :
  (Demo.alpha ∉ seen_clinic_urls fresh) /\
  let w1 := snd (safe_request Demo.phoneless Demo.alpha None fresh) in
  extract_clinic_details Demo.phoneless Demo.alpha fresh =
    (Ret None, mark_seen Demo.alpha w1) /\
  (Demo.alpha ∈ seen_clinic_urls (mark_seen Demo.alpha w1)).
Proof.
  split; [apply not_elem_of_empty |].
  pose proof (failed_extraction_stays_seen Demo.phoneless Demo.alpha
                fresh (not_elem_of_empty _)) as H.
  destruct (safe_request Demo.phoneless Demo.alpha None fresh) as [[r|] w1] eqn:E;
    vm_compute in E; [| discriminate].
  injection E as <- <-.
  destruct (H Demo.clinic_page (Exception "no phone") eq_refl eq_refl) as (H1 & H2 & _).
  split; assumption.
Defined.

End Runs.
End PipelineFacts.

(** ** More on [strip] *)

Module StripFacts.
Import Chars Text Search TextFacts.

Lemma rstrip_cons (c : ascii) (r : string) :
  rstrip (String c r) =
  if truthy (rstrip r) then String c (rstrip r)
  else if is_space c then "" else String c "".
Proof. simpl. destruct (rstrip r); reflexivity. Qed.

Lemma lstrip_first (s : string) (c : ascii) :
  first_char (lstrip s) = Some c -> is_space c = false.
Proof.
  induction s as [|d s IH]; simpl; [discriminate |].
  destruct (is_space d) eqn:Hd; [exact IH |].
  simpl. now intros [= <-].
Qed.

Lemma lstrip_fix (s : string) :
  (forall c, first_char s = Some c -> is_space c = false) -> lstrip s = s.
Proof.
  destruct s as [|d s]; simpl; [reflexivity |].
  intros H. now rewrite (H d eq_refl).
Qed.

Lemma rstrip_first (s : string) (c : ascii) :
  first_char (rstrip s) = Some c -> first_char s = Some c.
Proof.
  destruct s as [|d s]; [discriminate |].
  rewrite rstrip_cons. destruct (truthy (rstrip s)); simpl; [auto |].
  destruct (is_space d); simpl; [discriminate | auto].
Qed.

Lemma rstrip_last (s : string) (c : ascii) :
  last_char (rstrip s) = Some c -> is_space c = false.
Proof.
  induction s as [|d s IH]; [discriminate |].
  rewrite rstrip_cons. destruct (rstrip s) as [|e r] eqn:Er; simpl.
  - destruct (is_space d) eqn:Hd; simpl; [discriminate | now intros [= <-]].
  - exact IH.
Qed.

Lemma rstrip_fix (s : string) :
  (forall c, last_char s = Some c -> is_space c = false) -> rstrip s = s.
Proof.
  induction s as [|d s IH]; [reflexivity |].
  intros H. rewrite rstrip_cons. destruct s as [|e r].
  - simpl. now rewrite (H d eq_refl).
  - rewrite IH by exact H. reflexivity.
Qed.

Lemma rstrip_idem (s : string) : rstrip (rstrip s) = rstrip s.
Proof. apply rstrip_fix, rstrip_last. Qed.

Lemma strip_first (s : string) (c : ascii) :
  first_char (strip s) = Some c -> is_space c = false.
Proof. intros H%rstrip_first. now apply lstrip_first in H. Qed.

Lemma strip_last (s : string) (c : ascii) :
  last_char (strip s) = Some c -> is_space c = false.
Proof. apply rstrip_last. Qed.

(** A string that neither starts nor ends with white space is left as
    it is. *)
Lemma strip_fix (s : string) :
  (forall c, first_char s = Some c -> is_space c = false) ->
  (forall c, last_char s = Some c -> is_space c = false) ->
  strip s = s.
Proof. intros Hf Hl. unfold strip. rewrite (lstrip_fix s Hf). now apply rstrip_fix. Qed.

Lemma strip_idem (s : string) : strip (strip s) = strip s.
Proof. apply strip_fix; [apply strip_first | apply strip_last]. Qed.

Lemma lstrip_spaces (s : string) : all_chars is_space s = true -> lstrip s = "".
Proof.
  induction s as [|d s IH]; simpl; [reflexivity |].
  intros [Hd Hs]%andb_prop. rewrite Hd. auto.
Qed.

Lemma rstrip_empty (s : string) : rstrip s = "" <-> all_chars is_space s = true.
Proof.
  induction s as [|d s IH]; [simpl; tauto |].
  rewrite rstrip_cons. simpl all_chars. destruct (rstrip s) as [|e r] eqn:Er; simpl.
  - rewrite (proj1 IH eq_refl), andb_true_r.
    destruct (is_space d); split; congruence.
  - split; [discriminate |]. intros [_ Hs]%andb_prop.
    apply IH in Hs. discriminate.
Qed.

Lemma lstrip_all (p : ascii -> bool) (s : string) :
  all_chars is_space (lstrip s) = true -> all_chars is_space s = true.
Proof.
  induction s as [|d s IH]; simpl; [reflexivity |].
  destruct (is_space d) eqn:Hd; simpl; [exact IH |].
  now rewrite Hd.
Qed.

(** [strip] gives the empty string exactly on white space. *)
Lemma strip_empty (s : string) : strip s = "" <-> all_chars is_space s = true.
Proof.
  unfold strip. rewrite rstrip_empty. split.
  - apply (lstrip_all is_space).
  - intros H. now rewrite (lstrip_spaces s H).
Qed.

Lemma keep_chars_all (p : ascii -> bool) (s : string) :
  all_chars p s = true -> keep_chars p s = s.
Proof.
  induction s as [|d s IH]; simpl; [reflexivity |].
  intros [Hd Hs]%andb_prop. now rewrite Hd, IH.
Qed.

Lemma all_keep_chars_sub (p q : ascii -> bool) (s : string) :
  all_chars q (keep_chars p s) = true <->
  all_chars (fun c => negb (p c) || q c) s = true.
Proof.
  induction s as [|d s IH]; simpl; [tauto |].
  destruct (p d); simpl; [| exact IH].
  destruct (q d); simpl; [exact IH | tauto].
Qed.

End StripFacts.

(** ** The record class *)

Module RecordFacts.
Import Chars Text Regex Search ClinicData Conditions TextFacts StripFacts.

Lemma space_not_dial (c : ascii) : is_space c = true -> dial_char c = false.
Proof.
  destruct c as [[] [] [] [] [] [] [] []]; vm_compute; congruence.
Qed.

(** [_normalize_phone] gives the sentinel exactly when its input is the
    sentinel or holds no digit, hyphen or parenthesis. *)
Theorem normalize_phone_sentinel_iff (phone : string) :
  _normalize_phone phone = NOT_FOUND <->
  phone = NOT_FOUND \/ all_chars (fun c => negb (dial_char c)) phone = true.
Proof.
  assert (Hcls : all_chars (fun c => negb (dial_char c)) phone = true <->
                 strip (keep_chars phone_char phone) = "").
  { rewrite strip_empty, all_keep_chars_sub.
    assert (E : forall c, negb (dial_char c) = (negb (phone_char c) || is_space c)).
    { intros c. pose proof (space_not_dial c) as Hs. unfold dial_char, phone_char in *.
      destruct (is_digit c), (Ascii.eqb c "-"), (is_space c),
        (Ascii.eqb c "("), (Ascii.eqb c ")"); simpl in *;
        try reflexivity; now specialize (Hs eq_refl). }
    clear -E. induction phone as [|d s IH]; simpl; [tauto |].
    rewrite E. destruct (negb (phone_char d) || is_space d); simpl; [exact IH | tauto]. }
  unfold _normalize_phone.
  destruct (String.eqb_spec phone NOT_FOUND) as [->|Hne]; [tauto |].
  destruct (strip (keep_chars phone_char phone)) as [|d r] eqn:Es; simpl.
  - split; [intros _; right; now apply Hcls | reflexivity].
  - split.
    + intros E. exfalso.
      assert (Ha : all_chars phone_char (strip (keep_chars phone_char phone)) = true)
        by apply all_strip, all_keep_chars.
      rewrite Es, E in Ha. discriminate.
    + intros [E|E]; [contradiction |]. apply Hcls in E. discriminate.
Qed.

(** The normalised phone neither starts nor ends with white space. *)
Theorem normalize_phone_trimmed (phone : string) :
  (forall c, first_char (_normalize_phone phone) = Some c -> is_space c = false) /\
  (forall c, last_char (_normalize_phone phone) = Some c -> is_space c = false).
Proof.
  unfold _normalize_phone.
  destruct (String.eqb_spec phone NOT_FOUND) as [->|Hne].
  { split; intros c [= <-]; reflexivity. }
  destruct (truthy _).
  - split; [apply strip_first | apply strip_last].
  - split; intros c [= <-]; reflexivity.
Qed.

(** Normalising a normalised phone changes nothing. *)
Lemma normalize_phone_idempotent (phone : string) :
  _normalize_phone (_normalize_phone phone) = _normalize_phone phone.
Proof.
  set (cleaned := strip (keep_chars phone_char phone)).
  assert (H : _normalize_phone phone = NOT_FOUND \/
              (_normalize_phone phone = cleaned /\ truthy cleaned = true)).
  { unfold _normalize_phone. fold cleaned.
    destruct (String.eqb_spec phone NOT_FOUND) as [->|Hne]; [now left |].
    destruct (truthy cleaned); auto. }
  destruct H as [->|[-> Ht]]; [reflexivity |].
  assert (Ha : all_chars phone_char cleaned = true) by apply all_strip, all_keep_chars.
  unfold _normalize_phone.
  destruct (String.eqb_spec cleaned NOT_FOUND) as [E|_]; [reflexivity |].
  rewrite (keep_chars_all _ _ Ha). unfold cleaned at 1 2. rewrite strip_idem.
  fold cleaned. now rewrite Ht.
Qed.

(** Validating a validated email changes nothing. *)
Lemma validate_email_idempotent (email : string) :
  _validate_email (_validate_email email) = _validate_email email.
Proof.
  assert (H : _validate_email email = NOT_FOUND \/
              (_validate_email email = email /\ match_anchored email_re email = true)).
  { unfold _validate_email.
    destruct (String.eqb_spec email NOT_FOUND) as [->|Hne]; [now left |].
    destruct (match_anchored email_re email); auto. }
  destruct H as [->|[-> Hm]]; [reflexivity |].
  unfold _validate_email. rewrite Hm. now destruct (String.eqb email NOT_FOUND).
Qed.

(** Normalising a normalised phone, or validating a validated email,
    changes nothing; so a record built again from its own fields is the
    same record. *)
Theorem init_stable (name address phone email services url : string) :
  _normalize_phone (_normalize_phone phone) = _normalize_phone phone /\
  _validate_email (_validate_email email) = _validate_email email /\
  let c := init name address phone email services url in
  init (ClinicData.name c) (ClinicData.address c) (ClinicData.phone c)
       (ClinicData.email c) (ClinicData.services c) (ClinicData.url c) = c.
Proof.
  split; [apply normalize_phone_idempotent |].
  split; [apply validate_email_idempotent |].
  cbv zeta. unfold init. simpl.
  now rewrite normalize_phone_idempotent, validate_email_idempotent.
Qed.

End RecordFacts.

(** ** More on the fetcher *)

Module BackoffFacts.
Import Effects Scraper Traces Conditions FetcherFacts.
Local Open Scope list_scope.

Section Fetcher.
Context `{D : Dom} (env : Env).

Lemma slept_app (a b : list Event) : slept (a ++ b) = (slept a + slept b)%Z.
Proof.
  induction a as [|e a IH]; simpl; [reflexivity |].
  destruct e; rewrite ?IH; lia.
Qed.

Lemma slept_backoff_from (url : string) (k : nat) : forall a,
  slept (List.flat_map (fun i => [EGet url; ESleep (2 ^ Z.of_nat i)]) (List.seq a k))
  = (2 ^ Z.of_nat (a + k) - 2 ^ Z.of_nat a)%Z.
Proof.
  induction k as [|k IH]; intros a.
  - simpl. rewrite Nat.add_0_r. lia.
  - cbn [List.seq List.flat_map]. rewrite slept_app, IH. cbn [slept].
    replace (Z.of_nat (S a + k)) with (Z.of_nat (a + S k)) by lia.
    replace (Z.of_nat (S a)) with (Z.of_nat a + 1)%Z by lia.
    rewrite Z.pow_add_r by lia. lia.
Qed.

Lemma slept_backoff (url : string) (k : nat) :
  slept (backoff_trace url k) = (2 ^ Z.of_nat k - 1)%Z.
Proof. unfold backoff_trace. rewrite slept_backoff_from. simpl. lia. Qed.

(** A call whose limit, after the default is taken for [None] or 0, is
    not positive makes no attempt: it returns [None] and leaves the
    world as it is. *)
Theorem safe_request_no_attempt (url : string) (limit : option Z) (w : World) :
  (int_or limit (max_retries (config env)) <= 0)%Z ->
  safe_request env url limit w = (None, w).
Proof.
  intros Hm. unfold safe_request, range.
  replace (Z.to_nat (int_or limit (max_retries (config env)))) with 0 by lia.
  reflexivity.
Qed.

(** With a positive limit [m] a call that makes [g] attempts sleeps
    [2^(g-1) - 1] seconds in all; a call that fails made [m] attempts
    and slept [2^(m-1) - 1] seconds. *)
Theorem safe_request_sleep_total (url : string) (limit : option Z) (w : World) :
  let m := int_or limit (max_retries (config env)) in
  (0 < m)%Z ->
  let '(r, w') := safe_request env url limit w in
  exists tr,
    events w' = events w ++ tr /\
    1 <= gets tr /\ (Z.of_nat (gets tr) <= m)%Z /\
    slept tr = (2 ^ (Z.of_nat (gets tr) - 1) - 1)%Z /\
    (r = None -> Z.of_nat (gets tr) = m /\ slept tr = (2 ^ (m - 1) - 1)%Z).
Proof.
  intros m Hm. pose proof (safe_request_trace env url limit w Hm) as H.
  destruct (safe_request env url limit w) as [r w']. fold m in H.
  destruct H as (k & Hk & Hev & Hg & _ & Hres).
  exists (backoff_trace url k ++ [EGet url]).
  assert (Hs : slept (backoff_trace url k ++ [EGet url]) = (2 ^ Z.of_nat k - 1)%Z).
  { rewrite slept_app, slept_backoff. simpl. lia. }
  rewrite Hg, Hs.
  replace (Z.of_nat (S k) - 1)%Z with (Z.of_nat k) by lia.
  split; [exact Hev |]. split; [lia |]. split; [lia |]. split; [reflexivity |].
  intros ->. destruct Hres as [Hn _].
  replace (m - 1)%Z with (Z.of_nat k) by lia. split; [lia | reflexivity].
Qed.

End Fetcher.

Lemma safe_request_no_attempt_witness :
  (int_or (Some (-1)%Z) (max_retries (config Demo.offline)) <= 0)%Z /\
  safe_request Demo.offline Demo.alpha (Some (-1)%Z) fresh = (None, fresh).
Proof.
  split; [vm_compute; discriminate |].
  apply (safe_request_no_attempt Demo.offline). vm_compute. discriminate.
Defined.

Lemma safe_request_sleep_total_witness :
  (0 < int_or None (max_retries (config Demo.offline)))%Z /\
  exists tr,
    events (snd (safe_request Demo.offline Demo.alpha None fresh)) = [] ++ tr /\
    slept tr = 3%Z.
Proof.
  split; [reflexivity |].
  pose proof (safe_request_sleep_total Demo.offline Demo.alpha None fresh eq_refl) as H.
  destruct (safe_request Demo.offline Demo.alpha None fresh) as [r w'] eqn:E.
  vm_compute in E. injection E as <- <-.
  destruct H as (tr & Hev & _ & _ & _ & Hnone).
  exists tr. split; [exact Hev |]. now destruct (Hnone eq_refl) as [_ ->].
Defined.

End BackoffFacts.

(** ** Clinic links and the names of regions *)

Module LinkFacts.
Import Chars Text Effects Scraper Chains Conditions TextFacts ChainFacts PipelineFacts.
Local Open Scope list_scope.

Section WithDom.
Context `{D : Dom} (env : Env).

Lemma add_clinic_links_spec (seen : gset string) (links : list Tag) :
  forall clinics,
    add_clinic_links env seen links clinics =
    clinics ++ List.map (to_clinic_link env) (List.filter (qualifies env seen) links).
Proof.
  induction links as [|link rest IH]; intros clinics.
  - simpl. now rewrite List.app_nil_r.
  - cbn [add_clinic_links List.filter]. unfold qualifies at 1.
    destruct (contains "/our-clinics/" (get_href link)); cbn [andb negb]; [| apply IH].
    destruct (contains "/regions/" (get_href link)); cbn [andb negb]; [apply IH |].
    destruct (truthy (get_text link)); cbn [andb]; [| apply IH].
    destruct (negb (existsb (String.eqb (get_text link)) generic_labels));
      cbn [andb]; [| apply IH].
    destruct (bool_decide (urljoin (base_url (config env)) (get_href link) ∉ seen));
      [| apply IH].
    rewrite IH. cbn [List.map]. now rewrite <- List.app_assoc.
Qed.

Lemma clinics_from_selectors_spec (seen : gset string) (soup : Soup)
    (selectors : list string) :
  clinics_from_selectors env seen soup selectors [] =
  List.map (to_clinic_link env)
    (first_nonempty
       (List.map (fun sel => List.filter (qualifies env seen) (select soup sel))
                 selectors)).
Proof.
  rewrite <- (first_nonempty_map_nil (List.map (to_clinic_link env))).
  2:{ intros l. destruct l; simpl; split; congruence. }
  rewrite List.map_map.
  induction selectors as [|sel rest IH]; simpl; [reflexivity |].
  rewrite add_clinic_links_spec. simpl.
  destruct (List.map (to_clinic_link env)
              (List.filter (qualifies env seen) (select soup sel)));
    [exact IH | reflexivity].
Qed.

Lemma first_nonempty_in {A : Type} (ls : list (list A)) (x : A) :
  In x (first_nonempty ls) -> exists l, In l ls /\ In x l.
Proof.
  induction ls as [|l ls IH]; simpl; [tauto |].
  destruct l as [|y l].
  - intros (l' & Hl & Hx)%IH. eauto.
  - intros Hx. eauto.
Qed.

(** Clinic discovery returns the links that the first successful
    selector matches and that qualify, in page order and without
    removing repetitions: a link qualifies when its target holds
    [/our-clinics/] and not [/regions/], its text is not empty and not
    a generic label, and its resolved URL is not visited.  A failed
    fetch gives the empty list.  The visited set is left as it is. *)
Theorem extract_clinics_spec (region_url : string) (w : World) :
  let '(response, w1) := safe_request env region_url None w in
  seen_clinic_urls w1 = seen_clinic_urls w /\
  match response with
  | None => extract_clinics_from_region env region_url w = (Ret [], w1)
  | Some r =>
      match BeautifulSoup (text r) with
      | Raise e => extract_clinics_from_region env region_url w = (Raise e, w1)
      | Ret soup =>
          let links :=
            first_nonempty
              (List.map (fun sel =>
                           List.filter (qualifies env (seen_clinic_urls w))
                                       (select soup sel))
                        clinic_selectors) in
          extract_clinics_from_region env region_url w =
            (Ret (List.map (to_clinic_link env) links), w1) /\
          forall c, In c (List.map (to_clinic_link env) links) ->
            (clinic_url c ∉ seen_clinic_urls w) /\
            clinic_name c <> "" /\
            clinic_name c <> "Our Clinics" /\ clinic_name c <> "Clinics"
      end
  end.
Proof.
  unfold extract_clinics_from_region, bind, safe_request_stmt, lift, ret, get_world.
  pose proof (safe_request_grows env region_url None w) as H.
  destruct (safe_request env region_url None w) as [[r|] w1];
    destruct H as (_ & Hs & _); (split; [exact Hs |]); [| reflexivity].
  destruct (BeautifulSoup (text r)) as [soup|e]; [| reflexivity].
  rewrite Hs. split; [now rewrite clinics_from_selectors_spec |].
  intros c (link & <- & Hl)%List.in_map_iff.
  apply first_nonempty_in in Hl as (l & Hsel & Hl).
  apply List.in_map_iff in Hsel as (sel & <- & _).
  apply List.filter_In in Hl as [_ Hq]. unfold qualifies in Hq.
  repeat (apply andb_prop in Hq as [Hq ?]). simpl.
  match goal with H : bool_decide _ = true |- _ => apply bool_decide_eq_true in H end.
  split; [assumption |].
  match goal with
  | H : negb (existsb _ generic_labels) = true |- _ =>
      apply negb_true_iff in H; simpl in H;
      repeat (apply orb_false_elim in H as [? H])
  end.
  repeat split; intros E;
    match goal with
    | H : String.eqb (get_text link) ?x = false |- _ =>
        rewrite E in H; discriminate H
    | H : truthy (get_text link) = true |- _ => rewrite E in H; discriminate H
    end.
Qed.

(** *** The name of a region without link text *)

Lemma split_trailing_two (sep : ascii) (s : string) :
  exists w l, split sep (s ++ String sep "")%string = w :: l ++ [""].
Proof.
  induction s as [|c s (w & l & IH)]; simpl.
  - rewrite Ascii.eqb_refl. now exists "", [].
  - rewrite IH. destruct (Ascii.eqb c sep).
    + now exists "", (w :: l).
    + now exists (String c w), l.
Qed.

Lemma last_segment_trailing (sep : ascii) (s : string) :
  last_segment sep (s ++ String sep "") = "".
Proof.
  unfold last_segment. destruct (split_trailing_two sep s) as (w & l & ->).
  change (w :: l ++ [""]) with ((w :: l) ++ [""]). apply List.last_last.
Qed.

Lemma split_no_sep (sep : ascii) (s : string) :
  split sep s <> [] /\
  List.Forall (fun w => all_chars (fun c => negb (Ascii.eqb c sep)) w = true)
              (split sep s).
Proof.
  induction s as [|c s [Hne IH]]; simpl.
  - split; [discriminate | repeat constructor].
  - destruct (Ascii.eqb c sep) eqn:Hc.
    + split; [discriminate | now constructor].
    + destruct (split sep s) as [|w ws]; [contradiction |].
      inversion IH as [|? ? Hw Hws]; subst.
      split; [discriminate |]. constructor; [| exact Hws].
      simpl. now rewrite Hc.
Qed.

Lemma last_segment_no_sep (sep : ascii) (s : string) :
  all_chars (fun c => negb (Ascii.eqb c sep)) (last_segment sep s) = true.
Proof.
  unfold last_segment. destruct (split_no_sep sep s) as [Hne Hall].
  destruct (List.exists_last Hne) as (l & w & E). rewrite E in *.
  rewrite List.last_last. apply List.Forall_app in Hall as [_ Hw].
  now inversion Hw.
Qed.

Lemma replace_hyphen_plain (s : string) :
  all_chars (fun c => negb (Ascii.eqb c "/")) s = true ->
  all_chars plain_char (replace "-" " " s) = true.
Proof.
  induction s as [|c s IH]; simpl; [reflexivity |].
  intros [Hc Hs]%andb_prop. rewrite (IH Hs), andb_true_r.
  unfold plain_char. destruct (Ascii.eqb_spec c "-") as [->|Hne]; [reflexivity |].
  rewrite Hc. simpl. apply negb_true_iff. now apply Ascii.eqb_neq.
Qed.

Lemma case_plain (c : ascii) :
  plain_char c = true ->
  plain_char (to_upper c) = true /\ plain_char (to_lower c) = true.
Proof.
  destruct c as [[] [] [] [] [] [] [] []]; vm_compute; auto.
Qed.

Lemma title_plain (s : string) : forall prev,
  all_chars plain_char s = true -> all_chars plain_char (title_from prev s) = true.
Proof.
  induction s as [|c s IH]; intros prev; simpl; [reflexivity |].
  intros [Hc Hs]%andb_prop. destruct (case_plain c Hc) as [Hu Hl].
  destruct (is_lower c); [| destruct (is_upper c)]; simpl;
    rewrite (IH _ Hs), andb_true_r; destruct prev; assumption.
Qed.

(** A region whose link has no text is named after the text behind the
    last slash of the link target: the name holds no slash and no
    hyphen, and it is empty when the target ends with a slash. *)
Theorem region_name_fallback (link : Tag) :
  truthy (get_text link) = false ->
  link_region_name link =
    title (replace "-" " " (last_segment "/" (get_href link))) /\
  all_chars plain_char (link_region_name link) = true /\
  forall s, get_href link = (s ++ "/")%string -> link_region_name link = "".
Proof.
  intros Ht. unfold link_region_name, str_or. rewrite Ht.
  split; [reflexivity |]. split.
  - apply title_plain, replace_hyphen_plain, last_segment_no_sep.
  - intros s ->. now rewrite last_segment_trailing.
Qed.

End WithDom.

Lemma region_name_fallback_witness :
  let link := Demo.link "/regions/south-east/" "" in
  truthy (get_text (Dom := Demo.toy_dom) link) = false /\
  link_region_name (D := Demo.toy_dom) link = "".
Proof.
  cbv zeta. split; [reflexivity |].
  apply (proj2 (proj2 (region_name_fallback (D := Demo.toy_dom)
                         (Demo.link "/regions/south-east/" "") eq_refl))
           "/regions/south-east").
  reflexivity.
Defined.

End LinkFacts.

(** ** Where the written records come from *)

Module ProvenanceFacts.
Import Chars Text Regex Effects Scraper Traces Conditions.
Import TextFacts StripFacts FetcherFacts PipelineFacts.
Local Open Scope list_scope.

Section Pipeline.
Context `{D : Dom} (env : Env).

Lemma details_extracted u w d w2 :
  extract_clinic_details env u w = (Ret (Some d), w2) ->
  extracted env d /\ ClinicData.url d = u /\ ClinicData.region d = "".
Proof.
  rewrite extract_clinic_details_cases.
  destruct (decide (u ∈ seen_clinic_urls w)); [discriminate |].
  destruct (safe_request env u None w) as [[r|] w1]; [| discriminate].
  destruct (BeautifulSoup (text r)) as [soup|e]; [| discriminate].
  destruct (clinic_of_soup env soup u) as [c|e] eqn:Ec; [| discriminate].
  intros [= <- <-]. split; [now exists soup, u |].
  split; [now apply clinic_of_soup_url in Ec |].
  unfold clinic_of_soup in Ec.
  destruct (_extract_address env soup); [| discriminate].
  destruct (_extract_phone env soup); [| discriminate].
  destruct (_extract_email env soup); [| discriminate].
  now injection Ec as <-.
Qed.

Lemma stamped_mono (regions regions' : list Region) (d : ClinicData.t) :
  (forall r, In r regions -> In r regions') ->
  stamped env regions d -> stamped env regions' d.
Proof. intros Hsub (region & c & Hin & Hc & ->). exists region, c. auto. Qed.

(** What the clinic loop adds to the written records. *)
Lemma scrape_clinics_new region clinics : forall total w,
  let '(r, w') := scrape_clinics env region clinics total w in
  exists new,
    written (events w') = written (events w) ++ new /\
    List.Forall (stamped env [region]) new /\
    forall n, r = Ret n -> n = total + length new.
Proof.
  induction clinics as [|clinic rest IH]; intros total w.
  - simpl. exists []. rewrite List.app_nil_r. repeat split; [constructor |].
    intros n [= <-]. simpl. lia.
  - rewrite scrape_clinics_cons.
    pose proof (extract_clinic_details_frame env (clinic_url clinic) (emit EDelay w)) as H.
    destruct (extract_clinic_details env (clinic_url clinic) (emit EDelay w))
      as [r w2] eqn:Ed.
    destruct H as (Hg & _).
    assert (Hw2 : written (events w2) = written (events w)).
    { rewrite (grows_quiet_written (emit EDelay w) w2)
        by (eapply grows_weaken; [apply net_is_quiet | exact Hg]).
      simpl. rewrite written_app. simpl. now rewrite List.app_nil_r. }
    assert (Hstop : forall e : exn, exists new,
               written (events w2) = written (events w) ++ new /\
               List.Forall (stamped env [region]) new /\
               forall n, Raise e = Ret n -> n = total + length new).
    { intros e. exists []. rewrite List.app_nil_r. repeat split; auto; discriminate. }
    destruct r as [[d|]|e].
    + destruct (write_error env (rows w2)) as [e|]; [exact (Hstop e) |].
      specialize (IH (S total)
                     (emit (EWriteRow (ClinicData.set_region (region_name region) d))
                           (count_row w2))).
      destruct (scrape_clinics env region rest (S total) _) as [r' w'].
      destruct IH as (new & Hw & Hnew & Hcount).
      exists (ClinicData.set_region (region_name region) d :: new).
      split; [| split].
      * rewrite Hw. simpl. rewrite written_app, Hw2. simpl.
        now rewrite <- List.app_assoc.
      * constructor; [| exact Hnew].
        exists region, d. split; [now left |]. split; [| reflexivity].
        now apply (details_extracted _ _ _ _ Ed).
      * intros n Hn. rewrite (Hcount n Hn). simpl. lia.
    + specialize (IH total w2).
      destruct (scrape_clinics env region rest total w2) as [r' w'].
      destruct IH as (new & Hw & Hnew & Hcount).
      exists new. rewrite Hw, Hw2. auto.
    + exact (Hstop e).
Qed.

(** What the region loop adds to the written records. *)
Lemma scrape_regions_new regions : forall total w,
  let '(r, w') := scrape_regions env regions total w in
  exists new,
    written (events w') = written (events w) ++ new /\
    List.Forall (stamped env regions) new /\
    forall n, r = Ret n -> n = total + length new.
Proof.
  induction regions as [|region rest IH]; intros total w.
  - simpl. exists []. rewrite List.app_nil_r. repeat split; [constructor |].
    intros n [= <-]. simpl. lia.
  - rewrite scrape_regions_cons.
    pose proof (extract_clinics_frame env (region_url region) (emit EDelay w)) as H.
    destruct (extract_clinics_from_region env (region_url region) (emit EDelay w))
      as [r w1].
    destruct H as (Hg & _).
    assert (Hw1 : written (events w1) = written (events w)).
    { rewrite (grows_quiet_written (emit EDelay w) w1)
        by (eapply grows_weaken; [apply net_is_quiet | exact Hg]).
      simpl. rewrite written_app. simpl. now rewrite List.app_nil_r. }
    destruct r as [clinics|e].
    2:{ exists []. rewrite List.app_nil_r. repeat split; auto; discriminate. }
    pose proof (scrape_clinics_new region clinics total w1) as H.
    destruct (scrape_clinics env region clinics total w1) as [r2 w2].
    destruct H as (new1 & Hw2 & Hnew1 & Hcount1).
    assert (Hnew1' : List.Forall (stamped env (region :: rest)) new1).
    { eapply List.Forall_impl; [| exact Hnew1].
      intros d. apply stamped_mono. intros r0 [<-|[]]. now left. }
    destruct r2 as [total'|e].
    2:{ exists new1. rewrite Hw2, Hw1. repeat split; auto; discriminate. }
    specialize (IH total' w2).
    destruct (scrape_regions env rest total' w2) as [r' w'].
    destruct IH as (new2 & Hw & Hnew2 & Hcount2).
    exists (new1 ++ new2). split; [| split].
    + rewrite Hw, Hw2, Hw1. now rewrite <- List.app_assoc.
    + apply List.Forall_app. split; [exact Hnew1' |].
      eapply List.Forall_impl; [| exact Hnew2].
      intros d. apply stamped_mono. intros r0 Hr0. now right.
    + intros n Hn. rewrite (Hcount2 n Hn), (Hcount1 total' eq_refl).
      rewrite List.length_app. lia.
Qed.

(** The records of a run, by what region discovery gave. *)
Lemma run_new_records (filename : option string) (k : nat) (seen : gset string) :
  let '(found, w1) := extract_regions env (at_start k seen) in
  let '(r, w) := scrape_all_clinics env filename (at_start k seen) in
  (forall n, r = Ret n -> n = length (written (events w))) /\
  match found with
  | Ret regions => List.Forall (stamped env regions) (written (events w))
  | Raise _ => written (events w) = []
  end.
Proof.
  rewrite scrape_all_clinics_cases.
  pose proof (extract_regions_frame env (at_start k seen)) as H.
  destruct (extract_regions env (at_start k seen)) as [found w1].
  destruct H as (Hg & _).
  assert (Hw1 : written (events w1) = []).
  { rewrite (grows_quiet_written (at_start k seen) w1); [reflexivity |].
    eapply grows_weaken; [apply net_is_quiet | exact Hg]. }
  destruct found as [[|region more]|e].
  - rewrite Hw1. split; [now intros n [= <-] | constructor].
  - cbv zeta.
    destruct (open_error env _).
    { rewrite Hw1. split; [discriminate | constructor]. }
    destruct (write_error env (rows w1)) as [e|].
    { simpl. rewrite written_app, Hw1. simpl. split; [discriminate | constructor]. }
    match goal with
    | |- context [scrape_regions env ?rs 0 ?w0] =>
        pose proof (scrape_regions_new rs 0 w0) as H;
        destruct (scrape_regions env rs 0 w0) as [r2 w2]
    end.
    destruct H as (new & Hw & Hnew & Hcount).
    simpl in Hw. rewrite !written_app, Hw1 in Hw. simpl in Hw.
    simpl. rewrite written_app, Hw. simpl. rewrite List.app_nil_r.
    split; [| exact Hnew]. intros n Hn. now rewrite (Hcount n Hn).
  - rewrite Hw1. split; [discriminate | reflexivity].
Qed.

(** When [scrape_all_clinics] returns, the number it returns is the
    number of data rows that the run wrote. *)
Theorem returned_count_is_rows (filename : option string) (k : nat)
    (seen : gset string) :
  let '(r, w) := scrape_all_clinics env filename (at_start k seen) in
  forall n, r = Ret n -> n = length (written (events w)).
Proof.
  pose proof (run_new_records filename k seen) as H.
  destruct (extract_regions env (at_start k seen)) as [found w1].
  destruct (scrape_all_clinics env filename (at_start k seen)) as [r w].
  exact (proj1 H).
Qed.

(** Every written record was built by [ClinicData(...)] from the page
    that the web returned, without an error status, to a GET of the
    URL of the record in this run: the GET directly before the row of
    the record.  Only its region field was changed afterwards: it holds
    the name of one of the discovered regions.  When region discovery
    raises, nothing is written. *)
Theorem written_records_stamped (filename : option string) (k : nat)
    (seen : gset string) :
  let '(found, w1) := extract_regions env (at_start k seen) in
  let '(r, w) := scrape_all_clinics env filename (at_start k seen) in
  match found with
  | Ret regions =>
      forall d, In d (written (events w)) ->
        (exists region,
           In region regions /\ ClinicData.region d = region_name region) /\
        exists before after resp soup,
          events w = before ++ EGet (ClinicData.url d) :: EWriteRow d :: after /\
          http_get env (k + gets before) (ClinicData.url d) = Responded resp /\
          raises_for_status resp = false /\
          BeautifulSoup (text resp) = Ret soup /\
          clinic_of_soup env soup (ClinicData.url d) =
            Ret (ClinicData.set_region "" d)
  | Raise _ => written (events w) = []
  end.
Proof.
  pose proof (run_sourced env filename k seen) as H.
  destruct (extract_regions env (at_start k seen)) as [found w1].
  destruct (scrape_all_clinics env filename (at_start k seen)) as [r w].
  destruct found as [regions|e]; [| exact H].
  intros d Hd. destruct H as [_ H]. destruct (H d Hd) as [Hf Hreg].
  split; [exact Hreg | exact Hf].
Qed.

End Pipeline.
End ProvenanceFacts.

(** ** The backtracking matcher finds the matches of the language *)

Module SearchFacts.
Import Chars Text Regex Search TextFacts RegexFacts.

Section Matcher.
Context {A : Type}.

Lemma bt_star (r : regex) (s : string) (k : string -> option A) :
  bt (Star r) s k =
  star_loop (fun s' k' => bt r s' k') (S (String.length s)) s k.
Proof. reflexivity. Qed.

Lemma star_loop_ext (step : string -> (string -> option A) -> option A)
    (Hstep : extensional step) (n : nat) :
  forall s k1 k2, (forall t, k1 t = k2 t) ->
                  star_loop step n s k1 = star_loop step n s k2.
Proof.
  induction n as [|n IH]; intros s k1 k2 Hk; simpl; [apply Hk |].
  rewrite (Hstep s _ (fun s' => if Nat.ltb (String.length s') (String.length s)
                                then star_loop step n s' k2 else None)).
  - now rewrite Hk.
  - intros t. destruct (Nat.ltb _ _); [now apply IH | reflexivity].
Qed.

Lemma bt_ext (r : regex) : extensional (bt (A := A) r).
Proof.
  induction r as [| | p | r1 IH1 r2 IH2 | r1 IH1 r2 IH2 | r IH];
    intros s k1 k2 Hk.
  - reflexivity.
  - apply Hk.
  - simpl. destruct s as [|c s]; [reflexivity |].
    destruct (p c); [apply Hk | reflexivity].
  - simpl. apply IH1. intros t. now apply IH2.
  - simpl. now rewrite (IH1 s k1 k2 Hk), (IH2 s k1 k2 Hk).
  - rewrite !bt_star. apply star_loop_ext; [| exact Hk].
    intros t j1 j2 Hj. now apply IH.
Qed.

(** Beyond the length of the string the fuel does not matter. *)
Lemma star_loop_fuel (step : string -> (string -> option A) -> option A)
    (Hstep : extensional step) (k : string -> option A) :
  forall n m s,
    String.length s < n -> String.length s < m ->
    star_loop step n s k = star_loop step m s k.
Proof.
  induction n as [|n IH]; intros m s Hn Hm; [lia |].
  destruct m as [|m]; [lia |]. simpl.
  rewrite (Hstep s _ (fun s' => if Nat.ltb (String.length s') (String.length s)
                                then star_loop step m s' k else None));
    [reflexivity |].
  intros t. destruct (Nat.ltb_spec (String.length t) (String.length s));
    [| reflexivity].
  apply IH; lia.
Qed.

Lemma star_loop_sound (step : string -> (string -> option A) -> option A)
    (r : regex)
    (Hstep : forall s k x, step s k = Some x ->
               exists s1 s2, s = s1 ++ s2 /\ lang r s1 /\ k s2 = Some x) :
  forall n s k x,
    star_loop step n s k = Some x ->
    exists s1 s2, s = s1 ++ s2 /\ lang (Star r) s1 /\ k s2 = Some x.
Proof.
  induction n as [|n IH]; intros s k x; simpl.
  - intros H. exists "", s. repeat split; [constructor | exact H].
  - destruct (step s _) as [y|] eqn:Es.
    + intros [= ->]. apply Hstep in Es as (a & s' & -> & Ha & Hk).
      destruct (Nat.ltb _ _); [| discriminate].
      apply IH in Hk as (b & s2 & -> & Hb & Hk).
      exists (a ++ b), s2. rewrite sapp_assoc. repeat split; [| exact Hk].
      now constructor.
    + intros H. exists "", s. repeat split; [constructor | exact H].
Qed.

(** What the matcher accepts is a match followed by something that the
    continuation accepts. *)
Lemma bt_sound (r : regex) : forall s (k : string -> option A) x,
  bt r s k = Some x ->
  exists s1 s2, s = s1 ++ s2 /\ lang r s1 /\ k s2 = Some x.
Proof.
  induction r as [| | p | r1 IH1 r2 IH2 | r1 IH1 r2 IH2 | r IH];
    intros s k x.
  - discriminate.
  - simpl. intros H. exists "", s. repeat split; [constructor | exact H].
  - simpl. destruct s as [|c s]; [discriminate |].
    destruct (p c) eqn:Hc; [| discriminate].
    intros H. exists (String c ""), s. repeat split; [now constructor | exact H].
  - simpl. intros (a & s' & -> & Ha & H)%IH1.
    apply IH2 in H as (b & s2 & -> & Hb & Hk).
    exists (a ++ b), s2. rewrite sapp_assoc. repeat split; [| exact Hk].
    now constructor.
  - simpl. destruct (bt r1 s k) as [y|] eqn:E1.
    + intros [= ->]. apply IH1 in E1 as (a & s2 & -> & Ha & Hk).
      exists a, s2. repeat split; [now apply lang_alt_l | exact Hk].
    + intros (a & s2 & -> & Ha & Hk)%IH2.
      exists a, s2. repeat split; [now apply lang_alt_r | exact Hk].
  - rewrite bt_star. apply star_loop_sound. intros s0 k0 x0. apply IH.
Qed.

(** Where a match is followed by something that the continuation
    accepts, the matcher accepts. *)
Lemma bt_complete (r : regex) (s1 : string) :
  lang r s1 ->
  forall s2 (k : string -> option A),
    is_Some (k s2) -> is_Some (bt r (s1 ++ s2) k).
Proof.
  induction 1 as [| p c Hc | r1 r2 a b Ha IHa Hb IHb | r1 r2 a Ha IHa
                 | r1 r2 a Ha IHa | r | r a b Ha IHa Hb IHb];
    intros s2 k Hk.
  - exact Hk.
  - simpl. now rewrite Hc.
  - simpl. rewrite sapp_assoc. apply IHa. now apply IHb.
  - simpl. destruct (IHa s2 k Hk) as [x ->]. now exists x.
  - simpl. destruct (bt r1 (a ++ s2) k) as [x|]; [now exists x | now apply IHa].
  - simpl. destruct (bt r s2 _) as [x|]; [now exists x | exact Hk].
  - destruct a as [|c a]; [now apply IHb |].
    specialize (IHb s2 k Hk).
    change (is_Some (star_loop (fun s' k' => bt r s' k')
                       (S (String.length ((String c a ++ b) ++ s2)))
                       ((String c a ++ b) ++ s2) k)).
    cbn [star_loop].
    match goal with
    | |- is_Some (match bt r ?s ?kk with _ => _ end) =>
        assert (Hstep : is_Some (bt r s kk))
    end.
    { rewrite sapp_assoc. apply IHa.
      rewrite <- sapp_assoc.
      assert (Hlt : String.length (b ++ s2) < String.length ((String c a ++ b) ++ s2)).
      { rewrite !slength_app. simpl. lia. }
      apply Nat.ltb_lt in Hlt. rewrite Hlt.
      rewrite (star_loop_fuel _ (bt_ext r) k _ (S (String.length (b ++ s2))));
        [exact IHb | | lia].
      apply Nat.ltb_lt in Hlt. exact Hlt. }
    destruct Hstep as [x ->]. now exists x.
Qed.

End Matcher.

Lemma substring_prefix (a b : string) :
  String.substring 0 (String.length a) (a ++ b) = a.
Proof.
  induction a as [|c a IH]; simpl.
  - destruct b; reflexivity.
  - now rewrite IH.
Qed.

Lemma matched_app (a b : string) : matched (a ++ b) b = a.
Proof.
  unfold matched. rewrite slength_app.
  replace (String.length a + String.length b - String.length b)
    with (String.length a) by lia.
  apply substring_prefix.
Qed.

Lemma match_rest_none (r : regex) (s : string) :
  match_rest r s = None -> ~ match_at_start r s.
Proof.
  intros Hn (t & u & -> & Ht).
  destruct (bt_complete r t Ht u Some (ltac:(now exists u))) as [x Hx].
  unfold match_rest in Hn. congruence.
Qed.

(** [search] returns a match, at the leftmost position that has one. *)
Lemma search_sound (r : regex) (s m : string) :
  search r s = Some m ->
  exists before after,
    s = before ++ m ++ after /\ lang r m /\
    forall p q, before = p ++ q -> q <> "" ->
                ~ match_at_start r (q ++ m ++ after).
Proof.
  revert m. induction s as [|c s IH]; intros m; simpl.
  - destruct (match_rest r "") as [rest|] eqn:E; [| discriminate].
    intros [= <-]. apply bt_sound in E as (s1 & s2 & E & Hl & [= <-]).
    apply eq_sym, sapp_eq_nil in E as [-> ->].
    exists "", "". repeat split; [exact Hl |].
    intros p q Hq Hne. apply eq_sym, sapp_eq_nil in Hq as [_ ->]. contradiction.
  - destruct (match_rest r (String c s)) as [rest|] eqn:E.
    + intros [= <-]. apply bt_sound in E as (s1 & s2 & E & Hl & [= <-]).
      rewrite E, matched_app. exists "", s2. repeat split; [exact Hl |].
      intros p q Hq Hne. apply eq_sym, sapp_eq_nil in Hq as [_ ->]. contradiction.
    + intros (before & after & -> & Hl & Hleft)%IH.
      exists (String c before), after. repeat split; [exact Hl |].
      intros p q Hq Hne. destruct p as [|d p]; simpl in Hq.
      * subst q. now apply match_rest_none.
      * injection Hq as <- Hq. now apply (Hleft p q).
Qed.

Lemma search_none_here (r : regex) (s : string) :
  search r s = None -> match_rest r s = None.
Proof. destruct s; simpl; destruct (match_rest r _); congruence. Qed.

Lemma search_none_later (r : regex) (c : ascii) (s : string) :
  search r (String c s) = None -> search r s = None.
Proof. simpl. destruct (match_rest r _); congruence. Qed.

(** [search] misses no match. *)
Lemma search_complete (r : regex) (s : string) :
  search r s = None -> forall m, substring_of m s -> ~ lang r m.
Proof.
  intros Hn m (before & after & ->) Hl. revert Hn.
  induction before as [|c before IH]; intros Hn.
  - apply search_none_here, match_rest_none in Hn. apply Hn. now exists m, after.
  - apply IH. now apply (search_none_later r c).
Qed.

Lemma first_found_sound (r : regex) (texts : list string) (m : string) :
  first_found r texts = Some m ->
  exists t, In t texts /\ search r t = Some m.
Proof.
  induction texts as [|t texts IH]; simpl; [discriminate |].
  destruct (search r t) as [x|] eqn:E.
  - intros [= <-]. exists t. auto.
  - intros (t' & Hin & Hs)%IH. exists t'. auto.
Qed.

Lemma first_found_complete (r : regex) (texts : list string) :
  first_found r texts = None -> forall t, In t texts -> search r t = None.
Proof.
  induction texts as [|t texts IH]; simpl; [tauto |].
  destruct (search r t) as [x|] eqn:E; [discriminate |].
  intros Hn t' [<-|Hin]; auto.
Qed.

(** A greedy repetition of a class takes the longest run when what
    follows accepts there. *)
Lemma star_class_greedy {A : Type} (p : ascii -> bool) (k : string -> option A) :
  forall n s,
    String.length s < n ->
    is_Some (k (drop_while p s)) ->
    star_loop (fun s' k' => bt (Class p) s' k') n s k = k (drop_while p s).
Proof.
  induction n as [|n IH]; intros s Hn Hk; [lia |].
  cbn [star_loop bt]. destruct s as [|c s]; [reflexivity |].
  simpl drop_while in *. destruct (p c); [| reflexivity].
  assert (Hlt : Nat.ltb (String.length s) (String.length (String c s)) = true)
    by (apply Nat.ltb_lt; simpl; lia).
  rewrite Hlt, IH by (simpl in Hn; lia || exact Hk).
  destruct Hk as [x ->]. reflexivity.
Qed.

Lemma bt_star_class {A : Type} (p : ascii -> bool) (k : string -> option A) (s : string) :
  is_Some (k (drop_while p s)) -> bt (Star (Class p)) s k = k (drop_while p s).
Proof. intros Hk. rewrite bt_star. apply star_class_greedy; [lia | exact Hk]. Qed.

Lemma drop_while_first (p : ascii -> bool) (s : string) (c : ascii) :
  first_char (drop_while p s) = Some c -> p c = false.
Proof.
  induction s as [|d s IH]; simpl; [discriminate |].
  destruct (p d) eqn:Hd; [exact IH |]. simpl. now intros [= <-].
Qed.

Lemma drop_while_split (p : ascii -> bool) (s : string) :
  exists junk, s = junk ++ drop_while p s /\ all_chars p junk = true.
Proof.
  induction s as [|d s (junk & E & Hj)]; simpl.
  - now exists "".
  - destruct (p d) eqn:Hd.
    + exists (String d junk). simpl. rewrite Hd, Hj. split; [now rewrite <- E | reflexivity].
    + now exists "".
Qed.

End SearchFacts.

(** ** The extractors of address, phone and email *)

Module ExtractorFacts.
Import Chars Text Regex Search ClinicData Conditions Effects Scraper Extractors.
Import TextFacts RegexFacts StripFacts ClinicDataFacts SearchFacts.

Lemma alnum_not_space (c : ascii) : is_alnum c = true -> is_space c = false.
Proof. destruct c as [[] [] [] [] [] [] [] []]; vm_compute; congruence. Qed.

Lemma word_not_space (c : ascii) : is_word c = true -> is_space c = false.
Proof. destruct c as [[] [] [] [] [] [] [] []]; vm_compute; congruence. Qed.

Lemma all_chars_impl (p q : ascii -> bool) (s : string) :
  (forall c, p c = true -> q c = true) ->
  all_chars p s = true -> all_chars q s = true.
Proof.
  intros Hpq. induction s as [|c s IH]; simpl; [reflexivity |].
  intros [Hc Hs]%andb_prop. now rewrite (Hpq c Hc), IH.
Qed.

Lemma rstrip_split (s : string) :
  exists ws, s = rstrip s ++ ws /\ all_chars is_space ws = true.
Proof.
  induction s as [|c s (ws & E & Hws)]; [now exists "" |].
  rewrite rstrip_cons. destruct (rstrip s) as [|d r] eqn:Er; simpl.
  - simpl in E. subst ws. destruct (is_space c) eqn:Hc.
    + exists (String c s). simpl. now rewrite Hc, Hws.
    + now exists s.
  - exists ws. split; [| exact Hws]. simpl in E. now rewrite <- E.
Qed.

Lemma last_char_app (s : string) (c : ascii) (r : string) :
  last_char (s ++ String c r) = last_char (String c r).
Proof.
  induction s as [|d s IH]; [reflexivity |].
  simpl. destruct (s ++ String c r) eqn:E; [| exact IH].
  destruct s; discriminate.
Qed.

Lemma bt_cat {A : Type} (r1 r2 : regex) (s : string) (k : string -> option A) :
  bt (Cat r1 r2) s k = bt r1 s (fun s' => bt r2 s' k).
Proof. reflexivity. Qed.

(** *** Address *)

(** The leading match of [\s*[^A-Za-z0-9]*] is the longest run of
    white space followed by the longest run of other characters that
    are neither letters nor digits. *)
Lemma sub_prefix_lead_junk (s : string) :
  sub_prefix lead_junk s =
  drop_while (fun c => negb (is_alnum c)) (drop_while is_space s).
Proof.
  unfold sub_prefix, match_rest, lead_junk. rewrite bt_cat.
  rewrite (bt_star_class is_space).
  - now rewrite (bt_star_class (fun c => negb (is_alnum c)) Some).
  - now rewrite (bt_star_class (fun c => negb (is_alnum c)) Some).
Qed.

(** The cleaning of the text of the address element. *)
Lemma address_cleaning (text : string) :
  let cleaned := strip (sub_prefix lead_junk text) in
  let address := if truthy cleaned then cleaned else NOT_FOUND in
  (exists c rest, address = String c rest /\ is_alnum c = true) /\
  (forall c, last_char address = Some c -> is_space c = false) /\
  ((exists junk ws,
      text = junk ++ address ++ ws /\
      all_chars (fun c => negb (is_alnum c)) junk = true /\
      all_chars is_space ws = true) \/
   (address = NOT_FOUND /\
    all_chars (fun c => negb (is_alnum c)) text = true)).
Proof.
  cbv zeta.
  assert (Hsent : (exists c rest, NOT_FOUND = String c rest /\ is_alnum c = true) /\
                  (forall c, last_char NOT_FOUND = Some c -> is_space c = false)).
  { split; [now exists "N"%char, "ot found" | now intros c [= <-]]. }
  rewrite sub_prefix_lead_junk.
  set (body := drop_while (fun c => negb (is_alnum c)) (drop_while is_space text)).
  assert (Hfirst : forall c, first_char body = Some c -> is_alnum c = true).
  { intros c Hc%drop_while_first. now apply negb_false_iff in Hc. }
  assert (Hjunk : exists junk, text = junk ++ body /\
                    all_chars (fun c => negb (is_alnum c)) junk = true).
  { destruct (drop_while_split is_space text) as (j1 & E1 & H1).
    destruct (drop_while_split (fun c => negb (is_alnum c)) (drop_while is_space text))
      as (j2 & E2 & H2).
    exists (j1 ++ j2). fold body in E2. rewrite sapp_assoc, <- E2, <- E1.
    split; [reflexivity |]. rewrite all_chars_app, H2, andb_true_r.
    apply (all_chars_impl is_space); [| exact H1].
    intros c Hc. apply negb_true_iff. destruct (is_alnum c) eqn:Ha; [| reflexivity].
    apply alnum_not_space in Ha. congruence. }
  assert (Hstrip : strip body = rstrip body).
  { unfold strip. f_equal. apply lstrip_fix.
    intros c Hc. now apply alnum_not_space, Hfirst. }
  destruct (truthy (strip body)) eqn:Ht.
  - split; [| split; [apply strip_last |]].
    + destruct (strip body) as [|c rest] eqn:Es; [discriminate |].
      exists c, rest. split; [reflexivity |]. apply Hfirst.
      apply rstrip_first. now rewrite <- Hstrip.
    + left. destruct Hjunk as (junk & E & Hj).
      destruct (rstrip_split body) as (ws & Ews & Hws).
      exists junk, ws. rewrite Hstrip, <- Ews. auto.
  - destruct Hsent as [H1 H2]. split; [exact H1 |]. split; [exact H2 |].
    right. split; [reflexivity |].
    apply truthy_false in Ht. rewrite Hstrip in Ht.
    destruct body as [|c b] eqn:Eb.
    + destruct Hjunk as (junk & -> & Hj). now rewrite sapp_nil_r.
    + exfalso. pose proof (Hfirst c eq_refl) as Hc. apply alnum_not_space in Hc.
      apply rstrip_empty in Ht. simpl in Ht. rewrite Hc in Ht. discriminate.
Qed.

Section WithDom.
Context `{D : Dom} {DT : DomText}.

Lemma extract_address_first (soup : Soup) :
  exists c rest, _extract_address soup = String c rest /\ is_alnum c = true.
Proof.
  unfold _extract_address. cbv zeta.
  destruct (select soup ".address") as [|address_div others].
  - now exists "N"%char, "ot found".
  - apply (address_cleaning (address_text address_div)).
Qed.

(** The address is never empty: it starts with a letter or a digit and
    does not end with white space.  Without an address element it is
    the sentinel.  With one, it is the text of the element without the
    characters before its first letter or digit and without the white
    space at its end, or the sentinel when the text holds no letter and
    no digit. *)
Theorem extract_address_spec (soup : Soup) :
  let address := _extract_address soup in
  (exists c rest, address = String c rest /\ is_alnum c = true) /\
  (forall c, last_char address = Some c -> is_space c = false) /\
  match select soup ".address" with
  | [] => address = NOT_FOUND
  | address_div :: _ =>
      (exists junk ws,
         address_text address_div = junk ++ address ++ ws /\
         all_chars (fun c => negb (is_alnum c)) junk = true /\
         all_chars is_space ws = true) \/
      (address = NOT_FOUND /\
       all_chars (fun c => negb (is_alnum c)) (address_text address_div) = true)
  end.
Proof.
  unfold _extract_address. cbv zeta.
  destruct (select soup ".address") as [|address_div others].
  - split; [now exists "N"%char, "ot found" |].
    split; [now intros c [= <-] | reflexivity].
  - apply (address_cleaning (address_text address_div)).
Qed.

(** *** Email *)

Lemma chop_newline_last (s s' : string) :
  chop_newline s = Some s' -> last_char s = Some newline.
Proof.
  intros ->%chop_newline_spec. rewrite last_char_app. reflexivity.
Qed.

(** On a string that does not end with white space, validation gives
    the sentinel or leaves a string of the exact shape. *)
Lemma validate_email_trimmed (email : string) :
  (forall c, last_char email = Some c -> is_space c = false) ->
  _validate_email email = NOT_FOUND \/
  (_validate_email email = email /\ email_shape email).
Proof.
  intros Hlast. unfold _validate_email, match_anchored.
  destruct (String.eqb_spec email NOT_FOUND) as [E|_]; [now left |].
  destruct (accepts email_re email) eqn:Ha.
  { right. split; [reflexivity | now apply accepts_email_shape]. }
  destruct (chop_newline email) as [e'|] eqn:Ec; [| now left].
  apply chop_newline_last, Hlast in Ec. discriminate.
Qed.

Lemma email_token_valid (m : string) :
  lang email_re m -> _validate_email m = m /\ email_shape m.
Proof.
  intros Hs%email_re_shape. split; [| exact Hs].
  now apply (proj1 (validate_email_cases m)).
Qed.

(** The scan gives the sentinel or a token of the email pattern. *)
Lemma email_scan_cases (soup : Soup) :
  (email_scan soup = NOT_FOUND /\
   first_found email_re (email_texts soup) = None) \/
  (exists t, In t (email_texts soup) /\ search email_re t = Some (email_scan soup)).
Proof.
  unfold email_scan.
  destruct (first_found email_re (email_texts soup)) as [m|] eqn:E; [right | now left].
  now apply first_found_sound.
Qed.

(** What the scan for an email gives, when it is not the sentinel, is a
    token of the shape [local@domain.tld] that occurs in one of the
    scanned texts, and validation leaves it as it is; the scan gives the
    sentinel only when no scanned text holds such a token.  The scan is
    the whole of [_extract_email] on a page without a mailto link. *)
Theorem email_scan_spec (soup : Soup) :
  (find_anchor soup (prefix_nocase "mailto:") = None ->
   _extract_email soup = email_scan soup) /\
  ((exists t, In t (email_texts soup) /\
              substring_of (email_scan soup) t /\
              email_shape (email_scan soup) /\
              _validate_email (email_scan soup) = email_scan soup) \/
   (email_scan soup = NOT_FOUND /\
    forall t m, In t (email_texts soup) -> substring_of m t -> ~ email_shape m)).
Proof.
  split.
  { intros Hn. unfold _extract_email. now rewrite Hn. }
  destruct (email_scan_cases soup) as [[-> Hnone]|(t & Hin & Hs)].
  - right. split; [reflexivity |]. intros t m Hin Hsub Hshape.
    apply (search_complete email_re t (first_found_complete _ _ Hnone t Hin) m Hsub).
    now apply email_re_shape.
  - left. apply search_sound in Hs as (before & after & E & Hl & _).
    destruct (email_token_valid _ Hl) as [Hv Hshape].
    exists t. repeat split; auto. now exists before, after.
Qed.

(** Where the result of [_extract_email] comes from. *)
Lemma extract_email_cases (soup : Soup) :
  (exists email_link,
     _extract_email soup = strip (remove_all "mailto:" (get_href email_link))) \/
  _extract_email soup = NOT_FOUND \/
  lang email_re (_extract_email soup).
Proof.
  assert (Hscan : email_scan soup = NOT_FOUND \/ lang email_re (email_scan soup)).
  { destruct (email_scan_cases soup) as [[-> _]|(t & _ & Hs)]; [now left |].
    apply search_sound in Hs as (_ & _ & _ & Hl & _). now right. }
  unfold _extract_email.
  destruct (find_anchor soup (prefix_nocase "mailto:")) as [email_link|];
    [| now right].
  cbv zeta. destruct (contains "@" _); [| now right].
  left. now exists email_link.
Qed.

(** The validated email of a page is the sentinel or has the exact
    shape. *)
Lemma validated_email_cases (email : string) :
  ((exists s, email = strip s) \/ email = NOT_FOUND \/ lang email_re email) ->
  _validate_email email = NOT_FOUND \/ email_shape (_validate_email email).
Proof.
  intros [(s & ->)|[->|Hl]].
  - destruct (validate_email_trimmed (strip s)) as [->|[-> Hshape]]; auto.
    apply strip_last.
  - now left.
  - destruct (email_token_valid _ Hl) as [-> Hshape]. now right.
Qed.

(** Whatever page the email comes from, the email of the record built
    from it is the sentinel or has exactly the shape
    [local@domain.tld]. *)
Theorem extract_email_valid (soup : Soup) :
  let email := _validate_email (_extract_email soup) in
  email = NOT_FOUND \/ email_shape email.
Proof.
  cbv zeta. apply validated_email_cases.
  destruct (extract_email_cases soup) as [(email_link & ->)|H]; [| now right].
  left. now eexists.
Qed.

End WithDom.

(** *** Phone *)

Lemma lang_opt_class_inv (p : ascii -> bool) (s : string) :
  lang (Opt (Class p)) s -> s = "" \/ exists c, s = String c "" /\ p c = true.
Proof.
  unfold Opt. inversion 1 as [| | | ? ? ? Hc | ? ? ? He | |]; subst.
  - right. now apply lang_class_inv.
  - left. now inversion He.
Qed.

Lemma lang_digits2_inv (s : string) :
  lang digits2 s ->
  exists a b, s = String a (String b "") /\ is_digit a = true /\ is_digit b = true.
Proof.
  intros (s1 & s2 & -> & H1 & H2)%lang_cat_inv.
  apply lang_class_inv in H1 as (a & -> & Ha).
  apply lang_class_inv in H2 as (b & -> & Hb).
  now exists a, b.
Qed.

Lemma lang_digits4_inv (s : string) :
  lang digits4 s ->
  exists a b c d,
    s = String a (String b (String c (String d ""))) /\
    is_digit a = true /\ is_digit b = true /\ is_digit c = true /\ is_digit d = true.
Proof.
  intros (s1 & s2 & -> & H1 & H2)%lang_cat_inv.
  apply lang_digits2_inv in H1 as (a & b & -> & Ha & Hb).
  apply lang_digits2_inv in H2 as (c & d & -> & Hc & Hd).
  now exists a, b, c, d.
Qed.

Lemma digit_facts (c : ascii) :
  is_digit c = true ->
  phone_char c = true /\ is_space c = false /\ Ascii.eqb c "." = false.
Proof. destruct c as [[] [] [] [] [] [] [] []]; vm_compute; auto; congruence. Qed.

Lemma sep_facts (c : ascii) :
  phone_sep c = true ->
  is_digit c = false /\ phone_char c = negb (Ascii.eqb c ".").
Proof. destruct c as [[] [] [] [] [] [] [] []]; vm_compute; auto; congruence. Qed.

Lemma paren_facts (c : ascii) :
  (Ascii.eqb "(" c = true \/ Ascii.eqb ")" c = true) ->
  is_digit c = false /\ phone_char c = true /\ is_space c = false /\
  Ascii.eqb c "." = false.
Proof.
  destruct c as [[] [] [] [] [] [] [] []]; vm_compute; intros [?|?]; auto; congruence.
Qed.

(** The strings of the phone pattern, written out. *)
Lemma phone_token_inv (m : string) :
  lang phone_re m ->
  exists o1 d1 o2 o3 d2 o4 d3,
    m = o1 ++ d1 ++ o2 ++ o3 ++ d2 ++ o4 ++ d3 /\
    lang (Opt (Class (Ascii.eqb "("))) o1 /\ lang digits2 d1 /\
    lang (Opt (Class (Ascii.eqb ")"))) o2 /\ lang (Opt (Class phone_sep)) o3 /\
    lang digits4 d2 /\ lang (Opt (Class phone_sep)) o4 /\ lang digits4 d3.
Proof.
  unfold phone_re.
  intros (o1 & s1 & -> & H1 & H)%lang_cat_inv.
  apply lang_cat_inv in H as (d1 & s2 & -> & H2 & H).
  apply lang_cat_inv in H as (o2 & s3 & -> & H3 & H).
  apply lang_cat_inv in H as (o3 & s4 & -> & H4 & H).
  apply lang_cat_inv in H as (d2 & s5 & -> & H5 & H).
  apply lang_cat_inv in H as (o4 & d3 & -> & H6 & H7).
  exists o1, d1, o2, o3, d2, o4, d3. auto 10.
Qed.

Lemma keep_chars_app (p : ascii -> bool) (a b : string) :
  keep_chars p (a ++ b) = keep_chars p a ++ keep_chars p b.
Proof.
  induction a as [|c a IH]; simpl; [reflexivity |].
  destruct (p c); simpl; now rewrite IH.
Qed.

Lemma count_chars_app (p : ascii -> bool) (a b : string) :
  count_chars p (a ++ b) = count_chars p a + count_chars p b.
Proof.
  induction a as [|c a IH]; simpl; [reflexivity |]. rewrite IH. lia.
Qed.

Lemma keep_chars_agree (p q : ascii -> bool) (s : string) :
  all_chars (fun c => Bool.eqb (p c) (q c)) s = true ->
  keep_chars p s = keep_chars q s.
Proof.
  induction s as [|c s IH]; simpl; [reflexivity |].
  intros [Hc Hs]%andb_prop. apply Bool.eqb_prop in Hc. now rewrite Hc, IH.
Qed.

Lemma count_keep_chars (p q : ascii -> bool) (s : string) :
  (forall c, q c = true -> p c = true) ->
  count_chars q (keep_chars p s) = count_chars q s.
Proof.
  intros Hqp. induction s as [|c s IH]; simpl; [reflexivity |].
  destruct (p c) eqn:Hp; simpl; rewrite IH; [reflexivity |].
  destruct (q c) eqn:Hq; [| reflexivity].
  apply Hqp in Hq. congruence.
Qed.

Lemma first_char_keep (p : ascii -> bool) (s : string) (c : ascii) :
  first_char s = Some c -> p c = true -> first_char (keep_chars p s) = Some c.
Proof.
  destruct s as [|d s]; simpl; [discriminate |].
  intros [= ->] Hc. now rewrite Hc.
Qed.

Lemma last_char_keep (p : ascii -> bool) (s : string) (c : ascii) :
  last_char s = Some c -> p c = true -> last_char (keep_chars p s) = Some c.
Proof.
  intros Hl Hc. induction s as [|d s IH]; [discriminate |].
  simpl in Hl. destruct s as [|e r].
  - injection Hl as ->. simpl. now rewrite Hc.
  - specialize (IH Hl). cbn [keep_chars]. destruct (p d); [| exact IH].
    change (keep_chars p (String e r)) with
      (if p e then String e (keep_chars p r) else keep_chars p r) in *.
    simpl. destruct (if p e then String e (keep_chars p r) else keep_chars p r);
      [discriminate | exact IH].
Qed.

Lemma digit_tame (c : ascii) : is_digit c = true -> tame c = true.
Proof. destruct c as [[] [] [] [] [] [] [] []]; vm_compute; congruence. Qed.

Lemma sep_tame (c : ascii) :
  phone_sep c = true -> tame c = true /\ is_digit c = false.
Proof. destruct c as [[] [] [] [] [] [] [] []]; vm_compute; auto; congruence. Qed.

Lemma paren_tame (c : ascii) :
  (Ascii.eqb "(" c = true \/ Ascii.eqb ")" c = true) ->
  tame c = true /\ is_digit c = false /\ phone_char c = true /\ is_space c = false.
Proof.
  destruct c as [[] [] [] [] [] [] [] []]; vm_compute; intros [?|?]; auto; congruence.
Qed.

(** An optional character that is not a digit. *)
Lemma opt_piece (p : ascii -> bool) (o : string) :
  (forall c, p c = true -> tame c = true /\ is_digit c = false) ->
  lang (Opt (Class p)) o ->
  all_chars tame o = true /\ count_chars is_digit o = 0.
Proof.
  intros Hp [->|(c & -> & Hc)]%lang_opt_class_inv; [now split |].
  destruct (Hp c Hc) as [Ht Hd]. simpl. now rewrite Ht, Hd.
Qed.

Lemma digits2_piece (s : string) :
  lang digits2 s -> all_chars tame s = true /\ count_chars is_digit s = 2.
Proof.
  intros (a & b & -> & Ha & Hb)%lang_digits2_inv. simpl.
  now rewrite (digit_tame a Ha), (digit_tame b Hb), Ha, Hb.
Qed.

Lemma digits4_piece (s : string) :
  lang digits4 s ->
  all_chars tame s = true /\ count_chars is_digit s = 4 /\
  exists c, last_char s = Some c /\ is_digit c = true.
Proof.
  intros (a & b & c & d & -> & Ha & Hb & Hc & Hd)%lang_digits4_inv. simpl.
  rewrite (digit_tame a Ha), (digit_tame b Hb), (digit_tame c Hc), (digit_tame d Hd).
  rewrite Ha, Hb, Hc, Hd. repeat split. now exists d.
Qed.

(** A token of the phone pattern is tame, has ten digits, starts with a
    phone character that is not white space and ends with a digit. *)
Lemma phone_token_shape (m : string) :
  lang phone_re m ->
  all_chars tame m = true /\ count_chars is_digit m = 10 /\
  (exists c, first_char m = Some c /\ phone_char c = true /\ is_space c = false) /\
  (exists c, last_char m = Some c /\ is_digit c = true).
Proof.
  intros (o1 & d1 & o2 & o3 & d2 & o4 & d3 & -> & H1 & H2 & H3 & H4 & H5 & H6 & H7)
           %phone_token_inv.
  assert (Hparen1 : forall c, Ascii.eqb "(" c = true ->
                              tame c = true /\ is_digit c = false)
    by (intros c Hc; destruct (paren_tame c (or_introl Hc)) as (? & ? & _); auto).
  assert (Hparen2 : forall c, Ascii.eqb ")" c = true ->
                              tame c = true /\ is_digit c = false)
    by (intros c Hc; destruct (paren_tame c (or_intror Hc)) as (? & ? & _); auto).
  destruct (opt_piece _ o1 Hparen1 H1) as [T1 C1].
  destruct (digits2_piece d1 H2) as [T2 C2].
  destruct (opt_piece _ o2 Hparen2 H3) as [T3 C3].
  destruct (opt_piece _ o3 sep_tame H4) as [T4 C4].
  destruct (digits4_piece d2 H5) as (T5 & C5 & _).
  destruct (opt_piece _ o4 sep_tame H6) as [T6 C6].
  destruct (digits4_piece d3 H7) as (T7 & C7 & j & Hj & Dj).
  split; [| split; [| split]].
  - rewrite !all_chars_app, T1, T2, T3, T4, T5, T6, T7. reflexivity.
  - rewrite !count_chars_app, C1, C2, C3, C4, C5, C6, C7. reflexivity.
  - apply lang_digits2_inv in H2 as (a & b & -> & Ha & Hb).
    destruct (digit_facts a Ha) as (Pa & Sa & _).
    apply lang_opt_class_inv in H1 as [->|(x & -> & Hx)].
    + exists a. auto.
    + exists x. destruct (paren_tame x (or_introl Hx)) as (_ & _ & Px & Sx). auto.
  - exists j. split; [| exact Dj].
    apply lang_digits4_inv in H7 as (g & h & i & j' & -> & _).
    rewrite <- !sapp_assoc. rewrite last_char_app. exact Hj.
Qed.

Lemma phone_token_shape_strip (m : string) :
  lang phone_re m -> strip m = m /\ m <> "".
Proof.
  intros (_ & _ & (x & Hfx & _ & Sx) & (j & Hlj & Dj))%phone_token_shape.
  destruct (digit_facts j Dj) as (_ & Sj & _).
  split; [apply strip_fix; intros c Hcm; congruence |].
  intros ->. discriminate Hfx.
Qed.

(** A token of the phone pattern has no white space at its ends, and
    [_normalize_phone] turns it into the token without its dots: a
    string with the ten digits of the token, which is not the
    sentinel. *)
Theorem phone_token_normalised (m : string) :
  lang phone_re m ->
  strip m = m /\
  _normalize_phone m = keep_chars (fun c => negb (Ascii.eqb c ".")) m /\
  count_chars is_digit (_normalize_phone m) = 10 /\
  _normalize_phone m <> NOT_FOUND.
Proof.
  intros (Ht & Hc & (x & Hfx & Px & Sx) & (j & Hlj & Dj))%phone_token_shape.
  destruct (digit_facts j Dj) as (Pj & Sj & _).
  assert (Hm : strip m = m).
  { apply strip_fix; intros c Hcm; congruence. }
  set (kept := keep_chars phone_char m).
  assert (Hk : strip kept = kept).
  { apply strip_fix; intros c Hck.
    - unfold kept in Hck. rewrite (first_char_keep _ _ _ Hfx Px) in Hck. congruence.
    - unfold kept in Hck. rewrite (last_char_keep _ _ _ Hlj Pj) in Hck. congruence. }
  assert (Hcount : count_chars is_digit kept = 10).
  { unfold kept. rewrite count_keep_chars; [exact Hc |].
    intros c Hd. now destruct (digit_facts c Hd). }
  assert (Hnorm : _normalize_phone m = kept).
  { unfold _normalize_phone. fold kept. rewrite Hk.
    destruct (String.eqb_spec m NOT_FOUND) as [E|_].
    { rewrite E in Hc. discriminate Hc. }
    destruct kept; [discriminate Hcount | reflexivity]. }
  split; [exact Hm |]. rewrite Hnorm. split; [| split; [exact Hcount |]].
  - apply keep_chars_agree. exact Ht.
  - intros E. rewrite E in Hcount. discriminate Hcount.
Qed.

Section Phone.
Context `{D : Dom} {DT : DomText}.

(** On a page without a [tel:] link, [_extract_phone] gives a token of
    the phone pattern that occurs in the text of the call button or in
    one of the scanned texts, or else the sentinel; and it gives the
    sentinel only when no scanned text holds such a token. *)
Theorem extract_phone_scan (soup : Soup) :
  find_anchor soup (String.prefix "tel:") = None ->
  let phone := _extract_phone soup in
  (lang phone_re phone /\
   exists t,
     substring_of phone t /\
     (In t (phone_texts soup) \/
      exists phone_tag others,
        select soup call_button = phone_tag :: others /\ t = get_text phone_tag)) \/
  (phone = NOT_FOUND /\
   forall t m, In t (phone_texts soup) -> substring_of m t -> ~ lang phone_re m).
Proof.
  intros Hno. cbv zeta. unfold _extract_phone. rewrite Hno.
  assert (Hscan :
    let scanned := match first_found phone_re (phone_texts soup) with
                   | Some phone => phone
                   | None => NOT_FOUND
                   end in
    (lang phone_re scanned /\
     exists t, substring_of scanned t /\
       (In t (phone_texts soup) \/
        exists phone_tag others,
          select soup call_button = phone_tag :: others /\ t = get_text phone_tag)) \/
    (scanned = NOT_FOUND /\
     forall t m, In t (phone_texts soup) -> substring_of m t -> ~ lang phone_re m)).
  { cbv zeta.
    destruct (first_found phone_re (phone_texts soup)) as [m|] eqn:E.
    - left. apply first_found_sound in E as (t & Hin & Hs).
      apply search_sound in Hs as (before & after & Et & Hl & _).
      split; [exact Hl |]. exists t. split; [now exists before, after | now left].
    - right. split; [reflexivity |]. intros t m Hin.
      apply search_complete. now apply (first_found_complete _ _ E). }
  destruct (select soup call_button) as [|phone_tag others] eqn:Eb; [exact Hscan |].
  destruct (search phone_re (get_text phone_tag)) as [m|] eqn:Es; [| exact Hscan].
  simpl. left.
  apply search_sound in Es as (before & after & Et & Hl & _).
  rewrite (proj1 (phone_token_shape_strip m Hl)).
  split; [exact Hl |]. exists (get_text phone_tag).
  split; [now exists before, after |]. right. now exists phone_tag, others.
Qed.

End Phone.

End ExtractorFacts.

(** ** The fields of the written records *)

Module FieldFacts.
Import Chars Text Regex Search ClinicData Effects Scraper Traces Chains Conditions.
Import Extractors.
Import TextFacts StripFacts ChainFacts DiscoveryFacts PipelineFacts LinkFacts.
Import ProvenanceFacts ExtractorFacts.
Local Open Scope list_scope.

Lemma normalize_phone_nonempty (phone : string) : _normalize_phone phone <> "".
Proof.
  unfold _normalize_phone.
  destruct (String.eqb_spec phone NOT_FOUND) as [->|_]; [discriminate |].
  destruct (strip (keep_chars phone_char phone)); simpl; discriminate.
Qed.

Section WithDom.
Context `{D : Dom}.

Lemma heading_texts_truthy (articles : list Tag) (x : string) :
  In x (heading_texts articles) -> truthy x = true.
Proof.
  unfold heading_texts. intros (a & _ & Hx)%List.in_flat_map.
  destruct (find_heading a) as [h|]; [| contradiction].
  destruct (truthy (get_text h)) eqn:Ht; [| contradiction].
  destruct Hx as [<-|[]]. exact Ht.
Qed.

Lemma extract_services_nonempty (soup : Soup) : _extract_services soup <> "".
Proof.
  unfold _extract_services. rewrite services_from_selectors_spec.
  destruct (first_by_key self _) as [|s ss] eqn:E; [discriminate |].
  assert (Hs : truthy s = true).
  { assert (Hin : In s (first_by_key self
                          (first_nonempty
                             (List.map (fun sel => heading_texts (select soup sel))
                                       service_selectors))))
      by (rewrite E; now left).
    apply first_by_key_in, first_nonempty_in in Hin as (l & Hl & Hin).
    apply List.in_map_iff in Hl as (sel & <- & _).
    now apply heading_texts_truthy in Hin. }
  destruct s as [|c s]; [discriminate |].
  unfold join. simpl. destruct ss; discriminate.
Qed.

Context {DT : DomText}.
Context (config : ScraperConfig) (http_get : nat -> string -> attempt)
        (write_error : nat -> option exn) (open_error : string -> option exn).

(** In every run of the scraper as it is written, each written record
    has an address that starts with a letter or a digit, a phone and a
    services field that are not empty, and an email that is the
    sentinel or has exactly the shape [local@domain.tld]. *)
Theorem written_fields_filled (filename : option string) (k : nat)
    (seen : gset string) :
  let env := scraper_env config http_get write_error open_error in
  let '(r, w) := scrape_all_clinics env filename (at_start k seen) in
  forall d, In d (written (events w)) ->
    (exists c rest, address d = String c rest /\ is_alnum c = true) /\
    phone d <> "" /\
    (email d = NOT_FOUND \/ email_shape (email d)) /\
    services d <> "".
Proof.
  cbv zeta. set (env := scraper_env config http_get write_error open_error).
  pose proof (run_new_records env filename k seen) as H.
  destruct (extract_regions env (at_start k seen)) as [found w1].
  destruct (scrape_all_clinics env filename (at_start k seen)) as [r w].
  destruct H as [_ H]. intros d Hd.
  destruct found as [regions|e]; [| rewrite H in Hd; contradiction].
  rewrite List.Forall_forall in H.
  destruct (H d Hd) as (region & c & _ & (soup & u & Hc) & ->).
  unfold clinic_of_soup, env in Hc. simpl in Hc. injection Hc as <-.
  simpl. split; [apply extract_address_first |].
  split; [apply normalize_phone_nonempty |].
  split; [| apply extract_services_nonempty].
  apply validated_email_cases.
  destruct (extract_email_cases soup) as [(email_link & ->)|Hcases]; [| now right].
  left. now eexists.
Qed.

End WithDom.

(** *** On the demonstration pages *)

Lemma phone_token_normalised_witness :
  lang phone_re "(07) 1234.5678" /\
  _normalize_phone "(07) 1234.5678" = "(07) 12345678".
Proof.
  assert (Hl : lang phone_re "(07) 1234.5678")
    by (apply RegexFacts.accepts_lang; vm_compute; reflexivity).
  split; [exact Hl |].
  destruct (phone_token_normalised _ Hl) as (_ & -> & _). reflexivity.
Defined.

Lemma extract_phone_scan_witness :
  find_anchor (DomText := DemoPages.toy_text) DemoPages.plain_page
    (String.prefix "tel:") = None /\
  lang phone_re
    (Extractors._extract_phone (DT := DemoPages.toy_text) DemoPages.plain_page).
Proof.
  split; [reflexivity |].
  destruct (extract_phone_scan (DT := DemoPages.toy_text) DemoPages.plain_page eq_refl)
    as [[Hl _]|[E _]]; [exact Hl |].
  vm_compute in E. discriminate E.
Defined.

Lemma written_fields_filled_witness :
  written (events (snd (scrape_all_clinics DemoPages.contact_site None fresh))) <> [] /\
  List.Forall
    (fun d => phone d <> "" /\ (email d = NOT_FOUND \/ email_shape (email d)))
    (written (events (snd (scrape_all_clinics DemoPages.contact_site None fresh)))).
Proof.
  split; [vm_compute; discriminate |].
  apply List.Forall_forall. intros d Hd.
  pose proof (in_let _ _ (written_fields_filled (D := DemoPages.contact_dom)
                (DT := DemoPages.contact_text) Demo.site (fun _ => Demo.serve)
                (fun _ => None) (fun _ => None) None 0 ∅) d Hd) as (_ & Hp & He & _).
  auto.
Defined.

(** The run on the site with contact pages. *)
Example contact_site_run :
  let '(r, w) := scrape_all_clinics DemoPages.contact_site None fresh in
  r = Ret 2 /\
  List.map (fun d => csv_values (to_dict d)) (written (events w)) =
  [ [ "North"; "My FootDr Alpha"; "123 Main St, Brisbane"; "(07) 12345678";
      "alpha@site.com.au"; "Orthotics; Nail Care" ];
    [ "North"; "My FootDr Alpha"; "123 Main St, Brisbane"; "(07) 12345678";
      "alpha@site.com.au"; "Orthotics; Nail Care" ] ].
Proof. vm_compute. split; reflexivity. Qed.

(** On the healthy site both rows come directly after the GET of
    their URL. *)
Lemma written_records_stamped_witness :
  List.map ClinicData.url
    (written (events (snd (scrape_all_clinics Demo.healthy None fresh)))) =
    [Demo.alpha; Demo.beta] /\
  List.Forall
    (fun d =>
       exists before after,
         events (snd (scrape_all_clinics Demo.healthy None fresh)) =
         before ++ EGet (ClinicData.url d) :: EWriteRow d :: after)
    (written (events (snd (scrape_all_clinics Demo.healthy None fresh)))).
Proof.
  split; [vm_compute; reflexivity |].
  pose proof (written_records_stamped Demo.healthy None 0 ∅) as H.
  change fresh with (at_start 0 ∅).
  destruct (extract_regions Demo.healthy (at_start 0 ∅)) as [[regions|e] w1] eqn:E;
    vm_compute in E; [| discriminate E].
  destruct (scrape_all_clinics Demo.healthy None (at_start 0 ∅)) as [r w].
  apply List.Forall_forall. intros d Hd.
  destruct (H d Hd) as (_ & before & after & _ & _ & He & _).
  exists before, after. exact He.
Defined.

Lemma returned_count_is_rows_witness :
  fst (scrape_all_clinics Demo.healthy None fresh) = Ret 2 /\
  length (written (events (snd (scrape_all_clinics Demo.healthy None fresh)))) = 2.
Proof.
  assert (E : fst (scrape_all_clinics Demo.healthy None fresh) = Ret 2)
    by (vm_compute; reflexivity).
  split; [exact E |]. symmetry.
  exact (in_let _ _ (returned_count_is_rows Demo.healthy None 0 ∅) 2 E).
Defined.

End FieldFacts.

(** ** Pauses between the requests *)

Module PacingFacts.
Import Effects Scraper Traces Conditions FetcherFacts PipelineFacts.
Local Open Scope list_scope.

Lemma paced_weaken (tr : list Event) : forall hot,
  paced_from true tr = true -> paced_from hot tr = true.
Proof.
  induction tr as [|e tr IH]; intros hot H; [reflexivity |].
  destruct e; simpl in *; auto. discriminate.
Qed.

Lemma paced_app (a b : list Event) : forall hot,
  paced_from hot a = true -> paced_from true b = true ->
  paced_from hot (a ++ b) = true.
Proof.
  induction a as [|e a IH]; intros hot Ha Hb; simpl.
  - now apply paced_weaken.
  - destruct e; simpl in *; auto.
    apply andb_prop in Ha as [-> Ha]. simpl. now apply IH.
Qed.

(** In a paced trace a pause separates any two GETs. *)
Lemma paced_between (b : list Event) (v : string) (c : list Event) :
  paced_from true (b ++ EGet v :: c) = true ->
  exists e, In e b /\ is_pause e = true.
Proof.
  induction b as [|e b IH]; simpl; [discriminate |].
  destruct e; simpl; try discriminate;
    try (intros (x & Hx & Hp)%IH; exists x; now auto).
  - intros _. eexists. split; [now left | reflexivity].
  - intros _. eexists. split; [now left | reflexivity].
Qed.

Lemma paced_split (a : list Event) (u : string) (b : list Event) (v : string)
    (c : list Event) : forall hot,
  paced_from hot (a ++ EGet u :: b ++ EGet v :: c) = true ->
  exists e, In e b /\ is_pause e = true.
Proof.
  induction a as [|e a IH]; intros hot; simpl.
  - intros [_ H]%andb_prop. now apply paced_between in H.
  - destruct e; simpl; try apply IH.
    intros [_ H]%andb_prop. now apply IH in H.
Qed.

Lemma paced_backoff (url : string) (k : nat) : forall a,
  paced_from false
    (List.flat_map (fun i => [EGet url; ESleep (2 ^ Z.of_nat i)]) (List.seq a k)
     ++ [EGet url]) = true.
Proof. induction k as [|k IH]; intros a; simpl; [reflexivity | apply IH]. Qed.

Lemma spaced_refl (hot : bool) (w : World) : spaced hot w w.
Proof. exists []. now rewrite List.app_nil_r. Qed.

Lemma spaced_weaken (hot : bool) (w w' : World) : spaced true w w' -> spaced hot w w'.
Proof. intros (tr & He & Hp). exists tr. split; [exact He | now apply paced_weaken]. Qed.

Lemma spaced_trans (hot : bool) (w1 w2 w3 : World) :
  spaced hot w1 w2 -> spaced true w2 w3 -> spaced hot w1 w3.
Proof.
  intros (a & Ha & Hpa) (b & Hb & Hpb). exists (a ++ b).
  split; [now rewrite Hb, Ha, List.app_assoc | now apply paced_app].
Qed.

(** After [delay] a GET may come, whatever came before. *)
Lemma spaced_delay (w w' : World) : spaced false (emit EDelay w) w' -> spaced true w w'.
Proof.
  intros (tr & He & Hp). exists (EDelay :: tr). split; [| exact Hp].
  rewrite He. simpl. now rewrite <- List.app_assoc.
Qed.

Lemma spaced_emit (hot : bool) (e : Event) (w : World) :
  is_get e = false -> spaced hot w (emit e w).
Proof.
  intros He. exists [e]. split; [reflexivity |].
  destruct e; simpl in *; try reflexivity. discriminate.
Qed.

Section Pipeline.
Context `{D : Dom} (env : Env).

(** A call of [safe_request] pauses between its attempts. *)
Lemma safe_request_spaced (url : string) (limit : option Z) (w : World) :
  let '(r, w') := safe_request env url limit w in spaced false w w'.
Proof.
  destruct (Z.ltb_spec 0 (int_or limit (max_retries (config env)))) as [Hm|Hm].
  - pose proof (safe_request_trace env url limit w Hm) as H.
    destruct (safe_request env url limit w) as [r w'].
    destruct H as (k & _ & He & _). eexists. split; [exact He |].
    apply paced_backoff.
  - unfold safe_request, range.
    replace (Z.to_nat (int_or limit (max_retries (config env)))) with 0 by lia.
    simpl. apply spaced_refl.
Qed.

Lemma extract_regions_spaced (w : World) :
  let '(r, w') := extract_regions env w in spaced false w w'.
Proof.
  unfold extract_regions, bind, safe_request_stmt, lift, ret.
  pose proof (safe_request_spaced (listing_url env) None w) as H.
  destruct (safe_request env (listing_url env) None w) as [[r|] w1]; [| exact H].
  destruct (BeautifulSoup (text r)); exact H.
Qed.

Lemma extract_clinics_spaced (url : string) (w : World) :
  let '(r, w') := extract_clinics_from_region env url w in spaced false w w'.
Proof.
  unfold extract_clinics_from_region, bind, safe_request_stmt, lift, ret, get_world.
  pose proof (safe_request_spaced url None w) as H.
  destruct (safe_request env url None w) as [[r|] w1]; [| exact H].
  destruct (BeautifulSoup (text r)); exact H.
Qed.

Lemma extract_clinic_details_spaced (u : string) (w : World) :
  let '(r, w') := extract_clinic_details env u w in spaced false w w'.
Proof.
  rewrite extract_clinic_details_cases.
  destruct (decide (u ∈ seen_clinic_urls w)); [apply spaced_refl |].
  pose proof (safe_request_spaced u None w) as H.
  destruct (safe_request env u None w) as [[r|] w1]; [| exact H].
  assert (Hm : spaced false w (mark_seen u w1)) by exact H.
  destruct (BeautifulSoup (text r)) as [soup|e]; [| exact Hm].
  destruct (clinic_of_soup env soup u); exact Hm.
Qed.

(** Each turn of the clinic loop starts with [delay], so the loop may
    follow a GET. *)
Lemma scrape_clinics_spaced (region : Region) (clinics : list ClinicLink) :
  forall total w,
    let '(r, w') := scrape_clinics env region clinics total w in spaced true w w'.
Proof.
  induction clinics as [|clinic rest IH]; intros total w; [apply spaced_refl |].
  rewrite scrape_clinics_cons.
  pose proof (extract_clinic_details_spaced (clinic_url clinic) (emit EDelay w)) as H.
  destruct (extract_clinic_details env (clinic_url clinic) (emit EDelay w))
    as [[[d|]|e] w2]; apply spaced_delay in H.
  - destruct (write_error env (rows w2)); [exact H |].
    match goal with
    | |- context [scrape_clinics env region rest ?t ?w0] =>
        specialize (IH t w0); destruct (scrape_clinics env region rest t w0) as [r w']
    end.
    apply (spaced_trans _ _ w2); [exact H |].
    apply (spaced_trans _ _ (emit (EWriteRow (ClinicData.set_region (region_name region) d))
                                  (count_row w2))); [| exact IH].
    exists [EWriteRow (ClinicData.set_region (region_name region) d)].
    split; reflexivity.
  - specialize (IH total w2).
    destruct (scrape_clinics env region rest total w2) as [r w'].
    now apply (spaced_trans _ _ w2).
  - exact H.
Qed.

Lemma scrape_regions_spaced (regions : list Region) : forall total w,
  let '(r, w') := scrape_regions env regions total w in spaced true w w'.
Proof.
  induction regions as [|region rest IH]; intros total w; [apply spaced_refl |].
  rewrite scrape_regions_cons.
  pose proof (extract_clinics_spaced (region_url region) (emit EDelay w)) as H.
  destruct (extract_clinics_from_region env (region_url region) (emit EDelay w))
    as [[clinics|e] w1]; apply spaced_delay in H; [| exact H].
  pose proof (scrape_clinics_spaced region clinics total w1) as H1.
  destruct (scrape_clinics env region clinics total w1) as [[total'|e] w2].
  - specialize (IH total' w2).
    destruct (scrape_regions env rest total' w2) as [r w'].
    apply (spaced_trans _ _ w1); [exact H |].
    now apply (spaced_trans _ _ w2).
  - now apply (spaced_trans _ _ w1).
Qed.

Lemma run_spaced (filename : option string) (w : World) :
  let '(r, w') := scrape_all_clinics env filename w in spaced false w w'.
Proof.
  rewrite scrape_all_clinics_cases.
  pose proof (extract_regions_spaced w) as H.
  destruct (extract_regions env w) as [[[|region more]|e] w1]; try exact H.
  cbv zeta.
  set (opened := emit (EOpen (opt_str_or filename (output_file (config env)))) w1).
  destruct (open_error env _); [exact H |].
  assert (Ho : spaced false w opened).
  { apply (spaced_trans _ _ w1); [exact H | now apply spaced_emit]. }
  destruct (write_error env (rows w1)); [exact Ho |].
  match goal with
  | |- context [scrape_regions env ?rs 0 ?w0] =>
      pose proof (scrape_regions_spaced rs 0 w0) as H2;
      destruct (scrape_regions env rs 0 w0) as [r2 w2];
      assert (Hh : spaced false w w0)
  end.
  { apply (spaced_trans _ _ opened); [exact Ho |].
    exists [EWriteHeader fieldnames]. split; reflexivity. }
  apply (spaced_trans _ _ w2); [now apply (spaced_trans _ _ _ _ Hh) |].
  now apply spaced_emit.
Qed.

(** In every run, however it ends, the scraper sleeps between any two
    of its requests: after a GET, the back-off sleep of [safe_request]
    or a call of [delay] comes before the next GET. *)
Theorem requests_are_paced (filename : option string) (k : nat)
    (seen : gset string) :
  let '(r, w) := scrape_all_clinics env filename (at_start k seen) in
  forall before u between v after,
    events w = before ++ EGet u :: between ++ EGet v :: after ->
    exists e, In e between /\ is_pause e = true.
Proof.
  pose proof (run_spaced filename (at_start k seen)) as H.
  destruct (scrape_all_clinics env filename (at_start k seen)) as [r w].
  destruct H as (tr & He & Hp). simpl in He.
  intros before u between v after E. rewrite He in E. rewrite E in Hp.
  now apply paced_split in Hp.
Qed.

End Pipeline.

Lemma requests_are_paced_witness :
  events (snd (scrape_all_clinics Demo.flaky None fresh)) <> [] /\
  forall before u between v after,
    events (snd (scrape_all_clinics Demo.flaky None fresh)) =
      before ++ EGet u :: between ++ EGet v :: after ->
    exists e, In e between /\ is_pause e = true.
Proof.
  split; [vm_compute; discriminate |].
  exact (in_let _ _ (requests_are_paced Demo.flaky None 0 ∅)).
Defined.

End PacingFacts.
